(** * Fahad.AI live voice session hook ([src/hooks/useLiveGemini.ts])

    A shallow embedding of the [useLiveGemini] React hook: its React state,
    its refs, the callbacks it hands to the transport and to the Web Audio
    graph, and the teardown routine.  Every definition cites the source lines
    it embeds.

    Conventions of the embedding.
    - A JavaScript [number] is a type with the three operations the hook
      uses on the playback timeline ([0], [+=], [Math.max]).  The timeline
      lemmas are proved over exact rationals [Q]; the same definitions run on
      IEEE-754 binary64 ([PrimFloat.float]) for the concrete scenario.
    - Code between two [await]s runs atomically on the event loop, so each
      synchronous block is one command of the monad [M] below.  The blocks
      of [onmessage] are separate events, so that other callbacks can run
      at its [await]s; [onopen] is one block of [run], with the outcome
      of [getUserMedia] as its argument, and two blocks of [steps], which
      lets any block run at its [await].
    - Calls on collaborators (Web Audio nodes, the microphone, the SDK
      session, the console, timers) are recorded as an effect trace.
    - Objects that are compared by identity carry an object id drawn from
      an allocation counter kept next to the hook state.

    The hook is followed by the part of the application shell that uses
    it ([src/App.tsx]) and by the canvas visualizer
    ([src/components/AudioVisualizer.tsx]). *)

From Stdlib Require Import Bool List String Arith Lia.
From Stdlib Require Import QArith Qminmax Lqa.
From Stdlib Require Import Floats.
From Stdlib Require Strings.Byte.
Import ListNotations.

Close Scope Q_scope.
Open Scope string_scope.
Open Scope list_scope.
Open Scope nat_scope.

Set Implicit Arguments.

(* ================================================================== *)
(** ** JavaScript values *)
(* ================================================================== *)

(** The arithmetic the hook performs on [nextStartTimeRef.current]. *)
Class JsNumber (T : Type) : Type := {
  num_zero : T;                 (* the literal [0] *)
  num_add  : T -> T -> T;       (* [a + b], as in [+=] *)
  num_max  : T -> T -> T        (* [Math.max(a, b)] *)
}.

#[export] Instance Q_number : JsNumber Q :=
  {| num_zero := 0%Q; num_add := Qplus; num_max := Qmax |}.

(** [Math.max] on binary64: NaN if either argument is NaN, and [+0] is
    larger than [-0]. *)
Definition float_max (a b : float) : float :=
  if (PrimFloat.is_nan a || PrimFloat.is_nan b)%bool then PrimFloat.nan
  else if PrimFloat.ltb a b then b
  else if PrimFloat.ltb b a then a
  else if (PrimFloat.is_zero a && PrimFloat.get_sign a)%bool then b
  else a.

#[export] Instance float_number : JsNumber float :=
  {| num_zero := PrimFloat.zero; num_add := PrimFloat.add; num_max := float_max |}.

(** Identity of a JavaScript object (an audio node, a context, a stream,
    a promise, an SDK session). *)
Definition ObjId : Type := nat.

(** A thrown value; only its [message] is ever read. *)
Record Exn : Type := mkExn { message : option string }.

(** [m || fallback] on a possibly missing string: the empty string and
    [undefined] are falsy. *)
Definition or_default (m : option string) (fallback : string) : string :=
  match m with
  | Some EmptyString | None => fallback
  | Some s => s
  end.

(** Truthiness of an optional string, as tested by [if (base64Audio)]. *)
Definition truthy (m : option string) : option string :=
  match m with
  | Some EmptyString | None => None
  | Some s => Some s
  end.

(** The part of a [LiveServerMessage] that [onmessage] reads
    (lines 197 and 244); every level may be absent. *)
Record InlineData : Type := { data : option string }.
Record Part : Type := { inlineData : option InlineData }.
Record Content : Type := { parts : option (list Part) }.
Record ServerContent : Type := {
  modelTurn : option Content;
  interrupted : option bool
}.
Record LiveServerMessage : Type := { serverContent : option ServerContent }.

(** [message.serverContent?.modelTurn?.parts?.[0]?.inlineData?.data] *)
Definition base64Audio_of (msg : LiveServerMessage) : option string :=
  match serverContent msg with
  | None => None
  | Some sc =>
    match modelTurn sc with
    | None => None
    | Some c =>
      match parts c with
      | Some (p :: _) =>
        match inlineData p with
        | None => None
        | Some d => data d
        end
      | _ => None
      end
    end
  end.

(** [message.serverContent?.interrupted], as a condition. *)
Definition interrupted_of (msg : LiveServerMessage) : bool :=
  match serverContent msg with
  | None => false
  | Some sc => match interrupted sc with Some b => b | None => false end
  end.

(** [AudioContext.state] *)
Inductive AudioContextState : Type := Suspended | Running | Closed.

(** A callback queued with [.then] on the session promise. *)
Inductive Reaction : Type :=
| SendFrame (pcmBlob : string)   (* lines 177-183 *)
| CloseSession.                  (* lines 289-298 *)

(** The promise [p] created on line 134. *)
Record SessionPromise : Type := {
  settled : option ObjId;        (* the session it was resolved with *)
  reactions : list Reaction      (* callbacks waiting for the resolution *)
}.

(** What the callbacks of one [connect] call close over
    (lines 107-126). *)
Record Closure : Type := {
  inputCtx : ObjId;
  outputCtx : ObjId;
  inAnalyser : ObjId;
  outAnalyser : ObjId
}.

(** How a block of code ends: normally with a value, or by throwing. *)
Inductive Completion (A : Type) : Type :=
| Normal (a : A)
| Throw (e : Exn).

Arguments Normal {A} a.
Arguments Throw {A} e.

Section Engine.

Context {T : Type} {JN : JsNumber T}.

(** The decoded [AudioBuffer]; only its [duration] is read. *)
Record AudioBuffer : Type := { duration : T }.

(** An [AudioBufferSourceNode] and the buffer assigned to it. *)
Record SourceNode : Type := { node : ObjId; buffer : AudioBuffer }.

(** Calls on the collaborators, in program order. *)
Inductive Effect : Type :=
| ConsoleLog (msg : string)
| ConsoleError (msg : string)
| ConsoleWarn (msg : string)
| NewAudioContext (ctx : ObjId)
| LiveConnect (callbacks : Closure)
| GetUserMedia
| NodeConnect (from to : ObjId)
| NodeDisconnect (n : ObjId)
| TrackStop (stream : ObjId)
| ContextClose (ctx : ObjId)
| ContextResume (ctx : ObjId)
| SourceStart (n : ObjId) (when : T) (dur : T)
| SourceStop (n : ObjId)
| SetTimeout (ms : nat)
| SendRealtimeInput (session : ObjId) (pcmBlob : string)
| SessionClose (session : ObjId).

(* ================================================================== *)
(** ** Hook state (lines 23-45) *)
(* ================================================================== *)

Record Hook : Type := mkHook {
  (* useState *)
  isConnected : bool;
  isConnecting : bool;
  isSpeaking : bool;
  error : option string;
  inputAnalyser : option ObjId;
  outputAnalyser : option ObjId;
  (* useRef *)
  inputAudioContextRef : option ObjId;
  outputAudioContextRef : option ObjId;
  scriptProcessorRef : option ObjId;
  inputSourceRef : option ObjId;
  streamRef : option ObjId;
  nextStartTimeRef : T;
  activeSourcesRef : list SourceNode;   (* a JS [Set], in insertion order *)
  sessionResolveRef : option ObjId;     (* the resolver of that promise *)
  sessionPromiseRef : option ObjId;
  (* object store *)
  heap : ObjId;                                  (* next free identity *)
  promises : list (ObjId * SessionPromise)
}.

(** The values of [useState] and [useRef] on first render. *)
Definition initial : Hook :=
  {| isConnected := false; isConnecting := false; isSpeaking := false;
     error := None; inputAnalyser := None; outputAnalyser := None;
     inputAudioContextRef := None; outputAudioContextRef := None;
     scriptProcessorRef := None; inputSourceRef := None; streamRef := None;
     nextStartTimeRef := num_zero; activeSourcesRef := [];
     sessionResolveRef := None; sessionPromiseRef := None;
     heap := 0; promises := [] |}.

Definition setIsConnected (v : bool) (h : Hook) : Hook :=
  mkHook v (isConnecting h) (isSpeaking h) (error h) (inputAnalyser h)
    (outputAnalyser h) (inputAudioContextRef h) (outputAudioContextRef h)
    (scriptProcessorRef h) (inputSourceRef h) (streamRef h)
    (nextStartTimeRef h) (activeSourcesRef h) (sessionResolveRef h)
    (sessionPromiseRef h) (heap h) (promises h).

Definition setIsConnecting (v : bool) (h : Hook) : Hook :=
  mkHook (isConnected h) v (isSpeaking h) (error h) (inputAnalyser h)
    (outputAnalyser h) (inputAudioContextRef h) (outputAudioContextRef h)
    (scriptProcessorRef h) (inputSourceRef h) (streamRef h)
    (nextStartTimeRef h) (activeSourcesRef h) (sessionResolveRef h)
    (sessionPromiseRef h) (heap h) (promises h).

Definition setIsSpeaking (v : bool) (h : Hook) : Hook :=
  mkHook (isConnected h) (isConnecting h) v (error h) (inputAnalyser h)
    (outputAnalyser h) (inputAudioContextRef h) (outputAudioContextRef h)
    (scriptProcessorRef h) (inputSourceRef h) (streamRef h)
    (nextStartTimeRef h) (activeSourcesRef h) (sessionResolveRef h)
    (sessionPromiseRef h) (heap h) (promises h).

Definition setError (v : option string) (h : Hook) : Hook :=
  mkHook (isConnected h) (isConnecting h) (isSpeaking h) v (inputAnalyser h)
    (outputAnalyser h) (inputAudioContextRef h) (outputAudioContextRef h)
    (scriptProcessorRef h) (inputSourceRef h) (streamRef h)
    (nextStartTimeRef h) (activeSourcesRef h) (sessionResolveRef h)
    (sessionPromiseRef h) (heap h) (promises h).

Definition setInputAnalyser (v : option ObjId) (h : Hook) : Hook :=
  mkHook (isConnected h) (isConnecting h) (isSpeaking h) (error h) v
    (outputAnalyser h) (inputAudioContextRef h) (outputAudioContextRef h)
    (scriptProcessorRef h) (inputSourceRef h) (streamRef h)
    (nextStartTimeRef h) (activeSourcesRef h) (sessionResolveRef h)
    (sessionPromiseRef h) (heap h) (promises h).

Definition setOutputAnalyser (v : option ObjId) (h : Hook) : Hook :=
  mkHook (isConnected h) (isConnecting h) (isSpeaking h) (error h)
    (inputAnalyser h) v (inputAudioContextRef h) (outputAudioContextRef h)
    (scriptProcessorRef h) (inputSourceRef h) (streamRef h)
    (nextStartTimeRef h) (activeSourcesRef h) (sessionResolveRef h)
    (sessionPromiseRef h) (heap h) (promises h).

Definition set_inputAudioContextRef (v : option ObjId) (h : Hook) : Hook :=
  mkHook (isConnected h) (isConnecting h) (isSpeaking h) (error h)
    (inputAnalyser h) (outputAnalyser h) v (outputAudioContextRef h)
    (scriptProcessorRef h) (inputSourceRef h) (streamRef h)
    (nextStartTimeRef h) (activeSourcesRef h) (sessionResolveRef h)
    (sessionPromiseRef h) (heap h) (promises h).

Definition set_outputAudioContextRef (v : option ObjId) (h : Hook) : Hook :=
  mkHook (isConnected h) (isConnecting h) (isSpeaking h) (error h)
    (inputAnalyser h) (outputAnalyser h) (inputAudioContextRef h) v
    (scriptProcessorRef h) (inputSourceRef h) (streamRef h)
    (nextStartTimeRef h) (activeSourcesRef h) (sessionResolveRef h)
    (sessionPromiseRef h) (heap h) (promises h).

Definition set_scriptProcessorRef (v : option ObjId) (h : Hook) : Hook :=
  mkHook (isConnected h) (isConnecting h) (isSpeaking h) (error h)
    (inputAnalyser h) (outputAnalyser h) (inputAudioContextRef h)
    (outputAudioContextRef h) v (inputSourceRef h) (streamRef h)
    (nextStartTimeRef h) (activeSourcesRef h) (sessionResolveRef h)
    (sessionPromiseRef h) (heap h) (promises h).

Definition set_inputSourceRef (v : option ObjId) (h : Hook) : Hook :=
  mkHook (isConnected h) (isConnecting h) (isSpeaking h) (error h)
    (inputAnalyser h) (outputAnalyser h) (inputAudioContextRef h)
    (outputAudioContextRef h) (scriptProcessorRef h) v (streamRef h)
    (nextStartTimeRef h) (activeSourcesRef h) (sessionResolveRef h)
    (sessionPromiseRef h) (heap h) (promises h).

Definition set_streamRef (v : option ObjId) (h : Hook) : Hook :=
  mkHook (isConnected h) (isConnecting h) (isSpeaking h) (error h)
    (inputAnalyser h) (outputAnalyser h) (inputAudioContextRef h)
    (outputAudioContextRef h) (scriptProcessorRef h) (inputSourceRef h) v
    (nextStartTimeRef h) (activeSourcesRef h) (sessionResolveRef h)
    (sessionPromiseRef h) (heap h) (promises h).

Definition set_nextStartTimeRef (v : T) (h : Hook) : Hook :=
  mkHook (isConnected h) (isConnecting h) (isSpeaking h) (error h)
    (inputAnalyser h) (outputAnalyser h) (inputAudioContextRef h)
    (outputAudioContextRef h) (scriptProcessorRef h) (inputSourceRef h)
    (streamRef h) v (activeSourcesRef h) (sessionResolveRef h)
    (sessionPromiseRef h) (heap h) (promises h).

Definition set_activeSourcesRef (v : list SourceNode) (h : Hook) : Hook :=
  mkHook (isConnected h) (isConnecting h) (isSpeaking h) (error h)
    (inputAnalyser h) (outputAnalyser h) (inputAudioContextRef h)
    (outputAudioContextRef h) (scriptProcessorRef h) (inputSourceRef h)
    (streamRef h) (nextStartTimeRef h) v (sessionResolveRef h)
    (sessionPromiseRef h) (heap h) (promises h).

Definition set_sessionResolveRef (v : option ObjId) (h : Hook) : Hook :=
  mkHook (isConnected h) (isConnecting h) (isSpeaking h) (error h)
    (inputAnalyser h) (outputAnalyser h) (inputAudioContextRef h)
    (outputAudioContextRef h) (scriptProcessorRef h) (inputSourceRef h)
    (streamRef h) (nextStartTimeRef h) (activeSourcesRef h) v
    (sessionPromiseRef h) (heap h) (promises h).

Definition set_sessionPromiseRef (v : option ObjId) (h : Hook) : Hook :=
  mkHook (isConnected h) (isConnecting h) (isSpeaking h) (error h)
    (inputAnalyser h) (outputAnalyser h) (inputAudioContextRef h)
    (outputAudioContextRef h) (scriptProcessorRef h) (inputSourceRef h)
    (streamRef h) (nextStartTimeRef h) (activeSourcesRef h)
    (sessionResolveRef h) v (heap h) (promises h).

Definition set_heap (v : ObjId) (h : Hook) : Hook :=
  mkHook (isConnected h) (isConnecting h) (isSpeaking h) (error h)
    (inputAnalyser h) (outputAnalyser h) (inputAudioContextRef h)
    (outputAudioContextRef h) (scriptProcessorRef h) (inputSourceRef h)
    (streamRef h) (nextStartTimeRef h) (activeSourcesRef h)
    (sessionResolveRef h) (sessionPromiseRef h) v (promises h).

Definition set_promises (v : list (ObjId * SessionPromise)) (h : Hook) : Hook :=
  mkHook (isConnected h) (isConnecting h) (isSpeaking h) (error h)
    (inputAnalyser h) (outputAnalyser h) (inputAudioContextRef h)
    (outputAudioContextRef h) (scriptProcessorRef h) (inputSourceRef h)
    (streamRef h) (nextStartTimeRef h) (activeSourcesRef h)
    (sessionResolveRef h) (sessionPromiseRef h) (heap h) v.

(* ================================================================== *)
(** ** Commands: state, effect trace and exceptions *)
(* ================================================================== *)

Record Outcome (A : Type) : Type := {
  completion : Completion A;
  final : Hook;
  emitted : list Effect
}.

Definition M (A : Type) : Type := Hook -> Outcome A.

Definition ret {A : Type} (a : A) : M A :=
  fun h => {| completion := Normal a; final := h; emitted := [] |}.

(** [o] with the effects [es] in front of its own. *)
Definition prepend {A : Type} (es : list Effect) (o : Outcome A) : Outcome A :=
  match o with
  | Build_Outcome c h es' =>
    {| completion := c; final := h; emitted := es ++ es' |}
  end.

Definition bind {A B : Type} (m : M A) (k : A -> M B) : M B :=
  fun h =>
    match m h with
    | Build_Outcome (Normal a) h' es => prepend es (k a h')
    | Build_Outcome (Throw e) h' es =>
      {| completion := Throw e; final := h'; emitted := es |}
    end.

Definition throw {A : Type} (e : Exn) : M A :=
  fun h => {| completion := Throw e; final := h; emitted := [] |}.

(** [try { body } catch (e) { handler e }] *)
Definition try_catch {A : Type} (body : M A) (handler : Exn -> M A) : M A :=
  fun h =>
    match body h with
    | Build_Outcome (Normal a) h' es =>
      {| completion := Normal a; final := h'; emitted := es |}
    | Build_Outcome (Throw e) h' es => prepend es (handler e h')
    end.

Definition emit (e : Effect) : M unit :=
  fun h => {| completion := Normal tt; final := h; emitted := [e] |}.

Definition gets {A : Type} (f : Hook -> A) : M A :=
  fun h => {| completion := Normal (f h); final := h; emitted := [] |}.

Definition modify (f : Hook -> Hook) : M unit :=
  fun h => {| completion := Normal tt; final := f h; emitted := [] |}.

Notation "x <- m ;; k" := (bind m (fun x => k))
  (at level 61, m at next level, right associativity).
Notation "m ;; k" := (bind m (fun _ => k))
  (at level 61, right associativity).

(** [if (r) { body r }] on a nullable reference. *)
Definition when_some {A : Type} (r : option A) (body : A -> M unit) : M unit :=
  match r with
  | Some a => body a
  | None => ret tt
  end.

(** [xs.forEach(body)] *)
Fixpoint for_each {A : Type} (xs : list A) (body : A -> M unit) : M unit :=
  match xs with
  | [] => ret tt
  | x :: rest => body x ;; for_each rest body
  end.

(** A fresh object identity. *)
Definition alloc : M ObjId :=
  fun h => {| completion := Normal (heap h);
              final := set_heap (S (heap h)) h; emitted := [] |}.

(* ------------------------------------------------------------------ *)
(** *** The live-segment [Set] (line 41) *)

Definition has_node (n : ObjId) (s : list SourceNode) : bool :=
  existsb (fun x => Nat.eqb (node x) n) s.

(** [Set.prototype.add]: membership is object identity. *)
Definition set_add (x : SourceNode) (s : list SourceNode) : list SourceNode :=
  if has_node (node x) s then s else s ++ [x].

(** [Set.prototype.delete] *)
Definition set_delete (n : ObjId) (s : list SourceNode) : list SourceNode :=
  filter (fun x => negb (Nat.eqb (node x) n)) s.

(* ------------------------------------------------------------------ *)
(** *** The session promise (lines 133-138) *)

Fixpoint lookup_promise (p : ObjId) (store : list (ObjId * SessionPromise))
  : option SessionPromise :=
  match store with
  | [] => None
  | (q, pr) :: rest => if Nat.eqb q p then Some pr else lookup_promise p rest
  end.

Fixpoint update_promise (p : ObjId) (pr : SessionPromise)
    (store : list (ObjId * SessionPromise)) : list (ObjId * SessionPromise) :=
  match store with
  | [] => []
  | (q, old) :: rest =>
    if Nat.eqb q p then (q, pr) :: rest
    else (q, old) :: update_promise p pr rest
  end.

(** [new Promise(resolve => ...)]: pending, no callbacks yet. *)
Definition new_promise : M ObjId :=
  p <- alloc ;;
  modify (fun h => set_promises
    ((p, {| settled := None; reactions := [] |}) :: promises h) h) ;;
  ret p.

(** The body of a [.then] callback once the promise holds [session]. *)
Definition run_reaction (session : ObjId) (r : Reaction) : M unit :=
  match r with
  | SendFrame pcmBlob =>
    (* lines 178-182 *)
    try_catch (emit (SendRealtimeInput session pcmBlob))
              (fun _ => emit (ConsoleError "Error sending input"))
  | CloseSession =>
    (* lines 290-298 *)
    try_catch (emit (SessionClose session))
              (fun _ => emit (ConsoleWarn "Could not close session explicitly"))
  end.

(** [p.then(r)]: runs [r] if [p] is already resolved, queues it
    otherwise. *)
Definition promise_then (p : ObjId) (r : Reaction) : M unit :=
  store <- gets promises ;;
  match lookup_promise p store with
  | None => ret tt
  | Some pr =>
    match settled pr with
    | Some session => run_reaction session r
    | None =>
      modify (set_promises (update_promise p
        {| settled := None; reactions := reactions pr ++ [r] |} store))
    end
  end.

(** Calling the resolver of [p] with [session]: the first call settles
    the promise and runs the queued callbacks in order; later calls do
    nothing. *)
Definition resolve_promise (p session : ObjId) : M unit :=
  store <- gets promises ;;
  match lookup_promise p store with
  | None => ret tt
  | Some pr =>
    match settled pr with
    | Some _ => ret tt
    | None =>
      modify (set_promises (update_promise p
        {| settled := Some session; reactions := [] |} store)) ;;
      for_each (reactions pr) (run_reaction session)
    end
  end.

(* ================================================================== *)
(** ** Teardown (lines 47-96) *)
(* ================================================================== *)

Definition cleanup : M unit :=
  emit (ConsoleLog "Cleaning up Gemini Live session...") ;;
  (* lines 51-54 *)
  sources <- gets activeSourcesRef ;;
  for_each sources (fun source =>
    try_catch (emit (SourceStop (node source))) (fun _ => ret tt)) ;;
  modify (set_activeSourcesRef []) ;;
  (* lines 57-61; clearing [onaudioprocess] goes with clearing the ref *)
  processor <- gets scriptProcessorRef ;;
  when_some processor (fun p =>
    emit (NodeDisconnect p) ;;
    modify (set_scriptProcessorRef None)) ;;
  (* lines 64-67 *)
  source <- gets inputSourceRef ;;
  when_some source (fun n =>
    emit (NodeDisconnect n) ;;
    modify (set_inputSourceRef None)) ;;
  (* lines 70-73 *)
  stream <- gets streamRef ;;
  when_some stream (fun st =>
    emit (TrackStop st) ;;
    modify (set_streamRef None)) ;;
  (* lines 76-83; a rejected [close()] is swallowed by [.catch] *)
  ictx <- gets inputAudioContextRef ;;
  when_some ictx (fun c =>
    emit (ContextClose c) ;;
    modify (set_inputAudioContextRef None)) ;;
  octx <- gets outputAudioContextRef ;;
  when_some octx (fun c =>
    emit (ContextClose c) ;;
    modify (set_outputAudioContextRef None)) ;;
  (* lines 86-88 *)
  modify (set_nextStartTimeRef num_zero) ;;
  modify (set_sessionPromiseRef None) ;;
  modify (set_sessionResolveRef None) ;;
  (* lines 91-95 *)
  modify (setIsConnected false) ;;
  modify (setIsConnecting false) ;;
  modify (setIsSpeaking false) ;;
  modify (setInputAnalyser None) ;;
  modify (setOutputAnalyser None).

(* ================================================================== *)
(** ** [connect] (lines 98-285) *)
(* ================================================================== *)

(** The constructors in the [try] block of [connect] that can throw. *)
Inductive ConnectStage : Type := AtInputContext | AtOutputContext | AtClient.

Definition same_stage (a b : ConnectStage) : bool :=
  match a, b with
  | AtInputContext, AtInputContext
  | AtOutputContext, AtOutputContext
  | AtClient, AtClient => true
  | _, _ => false
  end.

Record ConnectFault : Type := { stage : ConnectStage; thrown : Exn }.

Definition may_throw (fault : option ConnectFault) (here : ConnectStage)
  : M unit :=
  match fault with
  | Some f => if same_stage (stage f) here then throw (thrown f) else ret tt
  | None => ret tt
  end.

(** [new AudioContext({ sampleRate })] *)
Definition new_audio_context (fault : option ConnectFault)
    (here : ConnectStage) : M ObjId :=
  may_throw fault here ;;
  ctx <- alloc ;;
  emit (NewAudioContext ctx) ;;
  ret ctx.

(** [connected] and [connecting] are the values of [isConnected] and
    [isConnecting] captured by the callback (its dependency list,
    line 285). *)
Definition connect (connected connecting : bool)
    (fault : option ConnectFault) : M unit :=
  if (connected || connecting)%bool then ret tt            (* line 99 *)
  else
    try_catch
      (modify (setIsConnecting true) ;;                     (* line 102 *)
       modify (setError None) ;;                            (* line 103 *)
       ictx <- new_audio_context fault AtInputContext ;;    (* lines 107-109 *)
       octx <- new_audio_context fault AtOutputContext ;;   (* lines 110-112 *)
       modify (set_inputAudioContextRef (Some ictx)) ;;     (* line 114 *)
       modify (set_outputAudioContextRef (Some octx)) ;;    (* line 115 *)
       ina <- alloc ;;                                      (* lines 118-121 *)
       modify (setInputAnalyser (Some ina)) ;;
       outa <- alloc ;;                                     (* lines 123-126 *)
       modify (setOutputAnalyser (Some outa)) ;;
       may_throw fault AtClient ;;                          (* line 130 *)
       p <- new_promise ;;                                  (* lines 133-136 *)
       modify (set_sessionResolveRef (Some p)) ;;           (* line 137 *)
       modify (set_sessionPromiseRef (Some p)) ;;           (* line 138 *)
       emit (LiveConnect {| inputCtx := ictx; outputCtx := octx;
                            inAnalyser := ina; outAnalyser := outa |}))
      (fun err =>                                           (* lines 279-284 *)
       emit (ConsoleError (or_default (message err) "")) ;;
       modify (setError (Some (or_default (message err) "Failed to connect"))) ;;
       modify (setIsConnecting false) ;;
       cleanup).

(** The connection promise resolves (lines 268-272). *)
Definition session_resolved (session : ObjId) : M unit :=
  resolver <- gets sessionResolveRef ;;
  when_some resolver (fun p => resolve_promise p session).

(** The connection promise rejects (lines 273-277). *)
Definition session_rejected (err : Exn) : M unit :=
  emit (ConsoleError "Session connection failed") ;;
  modify (setError (Some (or_default (message err) "Connection failed"))) ;;
  cleanup.

(* ================================================================== *)
(** ** Transport callbacks (lines 152-263) *)
(* ================================================================== *)

(** The result of [navigator.mediaDevices.getUserMedia]. *)
Inductive MicOutcome : Type := Granted | Denied (e : Exn).

Definition getUserMedia (mic : MicOutcome) : M ObjId :=
  emit GetUserMedia ;;
  match mic with
  | Granted => alloc
  | Denied e => throw e
  end.

(** [onopen] (lines 153-194).  Installing [processor.onaudioprocess]
    (line 171) is the assignment of [scriptProcessorRef]: the handler
    [onaudioprocess] below is delivered to the processor the ref holds. *)
Definition onopen (cl : Closure) (mic : MicOutcome) : M unit :=
  emit (ConsoleLog "Gemini Live Connection Opened") ;;
  modify (setIsConnected true) ;;
  modify (setIsConnecting false) ;;
  try_catch
    (stream <- getUserMedia mic ;;                          (* line 160 *)
     modify (set_streamRef (Some stream)) ;;                (* line 161 *)
     source <- alloc ;;                                     (* line 163 *)
     modify (set_inputSourceRef (Some source)) ;;           (* line 164 *)
     emit (NodeConnect source (inAnalyser cl)) ;;           (* line 165 *)
     processor <- alloc ;;                                  (* line 168 *)
     modify (set_scriptProcessorRef (Some processor)) ;;    (* line 169 *)
     emit (NodeConnect source processor) ;;                 (* line 187 *)
     emit (NodeConnect processor (inputCtx cl)))            (* line 188 *)
    (fun err =>                                             (* lines 189-193 *)
     emit (ConsoleError "Microphone error:") ;;
     modify (setError (Some "Microphone access failed.")) ;;
     cleanup).

(** [processor.onaudioprocess] (lines 171-185), on an already encoded
    frame. *)
Definition onaudioprocess (pcmBlob : string) : M unit :=
  p <- gets sessionPromiseRef ;;
  when_some p (fun p => promise_then p (SendFrame pcmBlob)).

(** What [onmessage] reads from the output context. *)
Record OutputClock : Type := {
  ctx_state : AudioContextState;    (* [outputCtx.state] *)
  resume_error : option Exn;        (* [None]: [resume()] resolves *)
  currentTime : T                   (* [outputCtx.currentTime] *)
}.

(** Lines 201-203. *)
Definition resume_if_suspended (cl : Closure) (clock : OutputClock) : M unit :=
  match ctx_state clock with
  | Suspended =>
    emit (ContextResume (outputCtx cl)) ;;
    match resume_error clock with
    | Some e => throw e
    | None => ret tt
    end
  | _ => ret tt
  end.

(** Lines 206-209. *)
Definition sync_timeline (now : T) : M unit :=
  modify (fun h => set_nextStartTimeRef (num_max (nextStartTimeRef h) now) h).

(** Lines 218-227, once the buffer is decoded.  Line 229 attaches
    [onended] to the new source. *)
Definition schedule (cl : Closure) (audioBuffer : AudioBuffer) : M unit :=
  source <- alloc ;;                                        (* line 218 *)
  emit (NodeConnect source (outAnalyser cl)) ;;             (* line 220 *)
  emit (NodeConnect (outAnalyser cl) (outputCtx cl)) ;;     (* line 221 *)
  start <- gets nextStartTimeRef ;;
  emit (SourceStart source start (duration audioBuffer)) ;; (* line 223 *)
  modify (fun h => set_nextStartTimeRef                     (* line 224 *)
    (num_add (nextStartTimeRef h) (duration audioBuffer)) h) ;;
  modify (fun h => set_activeSourcesRef                     (* line 226 *)
    (set_add {| node := source; buffer := audioBuffer |}
             (activeSourcesRef h)) h) ;;
  modify (setIsSpeaking true).                              (* line 227 *)

(** Lines 238-240. *)
Definition decode_failed (decodeErr : Exn) : M unit :=
  emit (ConsoleError "Audio Decode Error").

(** Lines 244-252. *)
Definition interruption : M unit :=
  emit (ConsoleLog "Model interrupted") ;;
  sources <- gets activeSourcesRef ;;
  for_each sources (fun src =>
    try_catch (emit (SourceStop (node src))) (fun _ => ret tt)) ;;
  modify (set_activeSourcesRef []) ;;
  modify (set_nextStartTimeRef num_zero) ;;
  modify (setIsSpeaking false).

(** [onmessage] (lines 195-253), when no other callback runs at its
    [await]s.  [decodeAudioData] stands for
    [decodeAudioData(decodeBase64(data), outputCtx, 24000, 1)] of
    [utils/audio]: a buffer, or the exception it throws. *)
Definition onmessage (decodeAudioData : string -> Exn + AudioBuffer)
    (cl : Closure) (message : LiveServerMessage) (clock : OutputClock)
  : M unit :=
  match truthy (base64Audio_of message) with
  | Some base64Audio =>
    try_catch
      (resume_if_suspended cl clock ;;
       sync_timeline (currentTime clock) ;;
       match decodeAudioData base64Audio with
       | inr audioBuffer => schedule cl audioBuffer
       | inl e => throw e
       end)
      decode_failed
  | None => ret tt
  end ;;
  if interrupted_of message then interruption else ret tt.

(** [source.onended] (lines 229-237), up to the timer registration. *)
Definition onended (source : ObjId) : M unit :=
  modify (fun h => set_activeSourcesRef
    (set_delete source (activeSourcesRef h)) h) ;;
  emit (SetTimeout 200).

(** The timer callback (lines 232-236). *)
Definition speaking_timeout : M unit :=
  sources <- gets activeSourcesRef ;;
  if Nat.eqb (List.length sources) 0 then modify (setIsSpeaking false)
  else ret tt.

(** [onclose] (lines 254-257). *)
Definition onclose : M unit :=
  emit (ConsoleLog "Gemini Connection Closed") ;;
  cleanup.

(** [onerror] (lines 258-262). *)
Definition onerror : M unit :=
  emit (ConsoleError "Gemini Connection Error") ;;
  modify (setError (Some "Connection error.")) ;;
  cleanup.

(** [disconnect] (lines 287-303).  The callback registered on line 289
    runs after the synchronous [cleanup] of line 302 when the promise is
    already resolved, and waits in the promise otherwise. *)
Definition disconnect : M unit :=
  p <- gets sessionPromiseRef ;;
  cleanup ;;
  when_some p (fun p => promise_then p CloseSession).

(* ================================================================== *)
(** ** The event loop *)
(* ================================================================== *)

(** One entry per synchronous block the event loop can run.  The three
    blocks of an audio chunk are separate events, since other callbacks
    may run at the [await]s of lines 202 and 211. *)
Inductive Event : Type :=
| EvConnect (fault : option ConnectFault)      (* the user calls [connect] *)
| EvDisconnect                                 (* the user calls [disconnect] *)
| EvUnmount                                    (* lines 305-309 *)
| EvSessionResolved (session : ObjId)
| EvSessionRejected (err : Exn)
| EvOpen (cl : Closure) (mic : MicOutcome)
| EvChunkResume (cl : Closure) (clock : OutputClock)
| EvChunkSync (now : T)
| EvChunkDecoded (cl : Closure) (audioBuffer : AudioBuffer)
| EvChunkFailed (e : Exn)
| EvInterrupted
| EvClose
| EvError
| EvAudioProcess (pcmBlob : string)
| EvEnded (source : ObjId)
| EvTimeout.

(** The block an event runs.  [EvConnect] is a call of [connect] through
    a callback whose closure holds the flags of the current state (the
    component has rendered since they last changed); a call through an
    older callback is [connect] applied to the flags it captured.  The
    audio callback fires only on the processor currently held by
    [scriptProcessorRef] (teardown clears both together). *)
Definition handle (ev : Event) : M unit :=
  match ev with
  | EvConnect fault =>
    connected <- gets isConnected ;;
    connecting <- gets isConnecting ;;
    connect connected connecting fault
  | EvDisconnect => disconnect
  | EvUnmount => cleanup
  | EvSessionResolved session => session_resolved session
  | EvSessionRejected err => session_rejected err
  | EvOpen cl mic => onopen cl mic
  | EvChunkResume cl clock => try_catch (resume_if_suspended cl clock) decode_failed
  | EvChunkSync now => sync_timeline now
  | EvChunkDecoded cl audioBuffer => schedule cl audioBuffer
  | EvChunkFailed e => decode_failed e
  | EvInterrupted => interruption
  | EvClose => onclose
  | EvError => onerror
  | EvAudioProcess pcmBlob =>
    processor <- gets scriptProcessorRef ;;
    when_some processor (fun _ => onaudioprocess pcmBlob)
  | EvEnded source => onended source
  | EvTimeout => speaking_timeout
  end.

Definition run (evs : list Event) : M unit := for_each evs handle.

(** The blocks [onmessage] runs for one message. *)
Definition message_blocks (decodeAudioData : string -> Exn + AudioBuffer)
    (cl : Closure) (message : LiveServerMessage) (clock : OutputClock)
  : list Event :=
  match truthy (base64Audio_of message) with
  | Some base64Audio =>
    match ctx_state clock, resume_error clock with
    | Suspended, Some _ => [EvChunkResume cl clock]
    | _, _ =>
      [EvChunkResume cl clock; EvChunkSync (currentTime clock);
       match decodeAudioData base64Audio with
       | inr audioBuffer => EvChunkDecoded cl audioBuffer
       | inl e => EvChunkFailed e
       end]
    end
  | None => []
  end ++ (if interrupted_of message then [EvInterrupted] else []).

(** The segments handed to [source.start], oldest first:
    (start, duration). *)
Fixpoint scheduled (trace : list Effect) : list (T * T) :=
  match trace with
  | [] => []
  | SourceStart _ when dur :: rest => (when, dur) :: scheduled rest
  | _ :: rest => scheduled rest
  end.

(** The sources stopped by a trace, oldest first. *)
Fixpoint stopped (trace : list Effect) : list ObjId :=
  match trace with
  | [] => []
  | SourceStop n :: rest => n :: stopped rest
  | _ :: rest => stopped rest
  end.

Definition is_send (e : Effect) : bool :=
  match e with SendRealtimeInput _ _ => true | _ => false end.

Definition is_session_close (e : Effect) : bool :=
  match e with SessionClose _ => true | _ => false end.

Definition is_timer (e : Effect) : bool :=
  match e with SetTimeout _ => true | _ => false end.

(** Calls that release a resource. *)
Definition is_release (e : Effect) : bool :=
  match e with
  | SourceStop _ | NodeDisconnect _ | TrackStop _ | ContextClose _
  | SessionClose _ => true
  | _ => false
  end.

(* ================================================================== *)
(** ** Views of a block's outcome, used in the statements below *)
(* ================================================================== *)

(** [[f r]] if the reference holds [r], nothing otherwise. *)
Definition opt_effect {A : Type} (f : A -> Effect) (r : option A)
  : list Effect :=
  match r with Some a => [f a] | None => [] end.

(** The state [cleanup] leaves: [error] and the object store are kept. *)
Definition torn_down (h : Hook) : Hook :=
  {| isConnected := false; isConnecting := false; isSpeaking := false;
     error := error h; inputAnalyser := None; outputAnalyser := None;
     inputAudioContextRef := None; outputAudioContextRef := None;
     scriptProcessorRef := None; inputSourceRef := None; streamRef := None;
     nextStartTimeRef := num_zero; activeSourcesRef := [];
     sessionResolveRef := None; sessionPromiseRef := None;
     heap := heap h; promises := promises h |}.

(** The collaborator calls of [cleanup] after its log line. *)
Definition releases (h : Hook) : list Effect :=
  map (fun source => SourceStop (node source)) (activeSourcesRef h)
  ++ opt_effect NodeDisconnect (scriptProcessorRef h)
  ++ opt_effect NodeDisconnect (inputSourceRef h)
  ++ opt_effect TrackStop (streamRef h)
  ++ opt_effect ContextClose (inputAudioContextRef h)
  ++ opt_effect ContextClose (outputAudioContextRef h).

(** The collaborator call a [.then] callback makes. *)
Definition reaction_effect (session : ObjId) (r : Reaction) : Effect :=
  match r with
  | SendFrame pcmBlob => SendRealtimeInput session pcmBlob
  | CloseSession => SessionClose session
  end.

(** State and effects of [p.then(r)]. *)
Definition then_final (p : ObjId) (r : Reaction) (h : Hook) : Hook :=
  match lookup_promise p (promises h) with
  | Some pr =>
    match settled pr with
    | Some _ => h
    | None =>
      set_promises (update_promise p
        {| settled := None; reactions := reactions pr ++ [r] |}
        (promises h)) h
    end
  | None => h
  end.

(** State and effects of calling the resolver of [p]. *)
Definition resolve_final (p session : ObjId) (h : Hook) : Hook :=
  match lookup_promise p (promises h) with
  | Some pr =>
    match settled pr with
    | Some _ => h
    | None =>
      set_promises (update_promise p
        {| settled := Some session; reactions := [] |} (promises h)) h
    end
  | None => h
  end.

Definition then_emitted (p : ObjId) (r : Reaction) (h : Hook) : list Effect :=
  match lookup_promise p (promises h) with
  | Some pr =>
    match settled pr with
    | Some session => [reaction_effect session r]
    | None => []
    end
  | None => []
  end.

Definition resolve_emitted (p session : ObjId) (h : Hook) : list Effect :=
  match lookup_promise p (promises h) with
  | Some pr =>
    match settled pr with
    | Some _ => []
    | None => map (reaction_effect session) (reactions pr)
    end
  | None => []
  end.

Definition is_none {A : Type} (r : option A) : bool :=
  match r with None => true | Some _ => false end.

(** The session is Idle: neither connected nor connecting. *)
Definition idle (h : Hook) : bool :=
  negb (isConnected h) && negb (isConnecting h).

(** Every resource reference is null and the live-segment set is
    empty. *)
Definition released (h : Hook) : bool :=
  is_none (inputAudioContextRef h) && is_none (outputAudioContextRef h)
  && is_none (scriptProcessorRef h) && is_none (inputSourceRef h)
  && is_none (streamRef h) && is_none (sessionPromiseRef h)
  && is_none (sessionResolveRef h)
  && Nat.eqb (List.length (activeSourcesRef h)) 0.

Definition is_mic (e : Effect) : bool :=
  match e with GetUserMedia => true | _ => false end.

(** Neither a frame sent to the transport nor a microphone request. *)
Definition no_capture (trace : list Effect) : bool :=
  negb (existsb is_send trace) && negb (existsb is_mic trace).

(** Not a frame sent, a microphone request or a scheduled segment. *)
Definition is_quiet (e : Effect) : bool :=
  match e with
  | SendRealtimeInput _ _ | GetUserMedia | SourceStart _ _ _ => false
  | _ => true
  end.

(** The state and the trace of [connect] at the moment the constructor
    at [st] throws (lines 102-126). *)
Definition fault_state (st : ConnectStage) (h : Hook) : Hook :=
  match st with
  | AtInputContext => setError None (setIsConnecting true h)
  | AtOutputContext =>
    set_heap (S (heap h)) (setError None (setIsConnecting true h))
  | AtClient =>
    setOutputAnalyser (Some (3 + heap h))
      (setInputAnalyser (Some (2 + heap h))
         (set_outputAudioContextRef (Some (1 + heap h))
            (set_inputAudioContextRef (Some (heap h))
               (set_heap (4 + heap h)
                  (setError None (setIsConnecting true h))))))
  end.

Definition fault_trace (st : ConnectStage) (h : Hook) : list Effect :=
  match st with
  | AtInputContext => []
  | AtOutputContext => [NewAudioContext (heap h)]
  | AtClient => [NewAudioContext (heap h); NewAudioContext (1 + heap h)]
  end.

(** Events that leave the session Open and the timeline running: the
    blocks of audio chunks, natural completions and their timers, and
    the capture path. *)
Definition timeline_event (ev : Event) : bool :=
  match ev with
  | EvChunkResume _ _ | EvChunkSync _ | EvChunkDecoded _ _ | EvChunkFailed _
  | EvEnded _ | EvTimeout | EvAudioProcess _ | EvSessionResolved _ => true
  | _ => false
  end.

(** [nextStartTimeRef.current] after a timeline event. *)
Definition cursor_after (ev : Event) (nextStart : T) : T :=
  match ev with
  | EvChunkSync now => num_max nextStart now
  | EvChunkDecoded _ audioBuffer => num_add nextStart (duration audioBuffer)
  | _ => nextStart
  end.

(** The segment a timeline event hands to [source.start]. *)
Definition segment_of (ev : Event) (nextStart : T) : list (T * T) :=
  match ev with
  | EvChunkDecoded _ audioBuffer => [(nextStart, duration audioBuffer)]
  | _ => []
  end.

(** Messages delivered one after the other, each handled to
    completion before the next arrives. *)
Definition deliver (decodeAudioData : string -> Exn + AudioBuffer)
    (cl : Closure) (clock : OutputClock) (messages : list LiveServerMessage)
  : M unit :=
  for_each messages (fun message => onmessage decodeAudioData cl message clock).

(** The blocks of an audio chunk. *)
Definition chunk_block (ev : Event) : bool :=
  match ev with
  | EvChunkResume _ _ | EvChunkSync _ | EvChunkDecoded _ _
  | EvChunkFailed _ => true
  | _ => false
  end.

(** [await outputCtx.resume()] rejects (line 202). *)
Definition resume_fails (clock : OutputClock) : bool :=
  match ctx_state clock, resume_error clock with
  | Suspended, Some _ => true
  | _, _ => false
  end.

(** The call of lines 201-203. *)
Definition resume_trace (cl : Closure) (clock : OutputClock) : list Effect :=
  match ctx_state clock with
  | Suspended => [ContextResume (outputCtx cl)]
  | _ => []
  end.

Definition is_frame (r : Reaction) : bool :=
  match r with SendFrame _ => true | CloseSession => false end.

Definition is_open (ev : Event) : bool :=
  match ev with EvOpen _ _ => true | _ => false end.

(** Frames wait behind the promise that [sessionPromiseRef] holds. *)
Definition queued_frames (h : Hook) : bool :=
  match sessionPromiseRef h with
  | Some p =>
    match lookup_promise p (promises h) with
    | Some pr => existsb is_frame (reactions pr)
    | None => false
    end
  | None => false
  end.

(** The capture path exists only while the session is Open: a processor
    is installed, or frames are queued, only if [isConnected]; and the
    resolver held by [sessionResolveRef] is the one of the promise held
    by [sessionPromiseRef]. *)
Definition capture_gate (h : Hook) : Prop :=
  (is_none (scriptProcessorRef h) = false -> isConnected h = true)
  /\ sessionResolveRef h = sessionPromiseRef h
  /\ (queued_frames h = true -> isConnected h = true).

(* ================================================================== *)
(** ** [onopen] when other callbacks run at its [await] *)
(* ================================================================== *)

(** [onopen] up to the [await] of line 160. *)
Definition onopen_begin : M unit :=
  emit (ConsoleLog "Gemini Live Connection Opened") ;;
  modify (setIsConnected true) ;;
  modify (setIsConnecting false) ;;
  emit GetUserMedia.

(** The rest of [onopen], once [getUserMedia] has settled
    (lines 160-193).  [graph_error] is the exception that
    [createMediaStreamSource] throws if a teardown has closed [inputCtx]
    in the meantime and the browser refuses a closed context. *)
Definition onopen_resume (cl : Closure) (mic : MicOutcome)
    (graph_error : option Exn) : M unit :=
  try_catch
    (stream <- match mic with
               | Granted => alloc
               | Denied e => throw e
               end ;;                                       (* line 160 *)
     modify (set_streamRef (Some stream)) ;;                (* line 161 *)
     match graph_error with
     | Some e => throw e
     | None => ret tt
     end ;;
     source <- alloc ;;                                     (* line 163 *)
     modify (set_inputSourceRef (Some source)) ;;           (* line 164 *)
     emit (NodeConnect source (inAnalyser cl)) ;;           (* line 165 *)
     processor <- alloc ;;                                  (* line 168 *)
     modify (set_scriptProcessorRef (Some processor)) ;;    (* line 169 *)
     emit (NodeConnect source processor) ;;                 (* line 187 *)
     emit (NodeConnect processor (inputCtx cl)))            (* line 188 *)
    (fun err =>                                             (* lines 189-193 *)
     emit (ConsoleError "Microphone error:") ;;
     modify (setError (Some "Microphone access failed.")) ;;
     cleanup).

(** The blocks of the event loop, with [onopen] split at its [await]:
    any block may run between [OpenBegin] and [OpenResume]. *)
Inductive Step : Type :=
| Block (ev : Event)
| OpenBegin
| OpenResume (cl : Closure) (mic : MicOutcome) (graph_error : option Exn).

Definition step (s : Step) : M unit :=
  match s with
  | Block ev => handle ev
  | OpenBegin => onopen_begin
  | OpenResume cl mic graph_error => onopen_resume cl mic graph_error
  end.

Definition steps (l : list Step) : M unit := for_each l step.

(* ================================================================== *)
(** ** Views of whole runs *)
(* ================================================================== *)

(** Every reference to a context, an analyser, a capture node, the
    microphone stream or the session promise is null. *)
Definition no_refs (h : Hook) : bool :=
  is_none (inputAudioContextRef h) && is_none (outputAudioContextRef h)
  && is_none (scriptProcessorRef h) && is_none (inputSourceRef h)
  && is_none (streamRef h) && is_none (sessionPromiseRef h)
  && is_none (sessionResolveRef h)
  && is_none (inputAnalyser h) && is_none (outputAnalyser h).

(** The references [connect] sets are null: both contexts, both
    analysers, the session promise and its resolver. *)
Definition no_session_refs (h : Hook) : bool :=
  is_none (inputAudioContextRef h) && is_none (outputAudioContextRef h)
  && is_none (inputAnalyser h) && is_none (outputAnalyser h)
  && is_none (sessionPromiseRef h) && is_none (sessionResolveRef h).

(** What every reachable state satisfies: the two connection flags are
    not set together, an Idle session holds none of the references that
    [connect] sets, and a hook that does not report speaking has no live
    segment. *)
Definition consistent (h : Hook) : Prop :=
  (isConnected h && isConnecting h)%bool = false
  /\ (idle h = true -> no_session_refs h = true)
  /\ (isSpeaking h = false -> activeSourcesRef h = []).

(** The frames handed to [session.sendRealtimeInput], oldest first. *)
Fixpoint sent (trace : list Effect) : list (ObjId * string) :=
  match trace with
  | [] => []
  | SendRealtimeInput session pcmBlob :: rest => (session, pcmBlob) :: sent rest
  | _ :: rest => sent rest
  end.

(** The frames among the callbacks that wait in a promise. *)
Fixpoint frames (rs : list Reaction) : list string :=
  match rs with
  | [] => []
  | SendFrame pcmBlob :: rest => pcmBlob :: frames rest
  | CloseSession :: rest => frames rest
  end.

(** The frames the audio callback is invoked with during a run. *)
Fixpoint captured (l : list Step) : list string :=
  match l with
  | [] => []
  | Block (EvAudioProcess pcmBlob) :: rest => pcmBlob :: captured rest
  | _ :: rest => captured rest
  end.

Definition is_connect (s : Step) : bool :=
  match s with Block (EvConnect _) => true | _ => false end.

(** The events whose block ends in [cleanup]. *)
Definition is_teardown (ev : Event) : bool :=
  match ev with
  | EvDisconnect | EvUnmount | EvSessionRejected _ | EvClose | EvError => true
  | _ => false
  end.

(** Calls that release a capture node, the microphone or a context. *)
Definition is_device_release (e : Effect) : bool :=
  match e with
  | NodeDisconnect _ | TrackStop _ | ContextClose _ => true
  | _ => false
  end.

(** The session the promise held by [sessionPromiseRef] is resolved
    with, if it is resolved. *)
Definition resolved_session (h : Hook) : option ObjId :=
  match sessionPromiseRef h with
  | Some p =>
    match lookup_promise p (promises h) with
    | Some pr => settled pr
    | None => None
    end
  | None => None
  end.

(** The closure a [connect] that starts in [h] hands to the transport
    (lines 107-126). *)
Definition next_closure (h : Hook) : Closure :=
  {| inputCtx := heap h; outputCtx := 1 + heap h;
     inAnalyser := 2 + heap h; outAnalyser := 3 + heap h |}.

(** Constructions and closings of audio contexts. *)
Definition is_context_call (e : Effect) : bool :=
  match e with
  | NewAudioContext _ | ContextClose _ => true
  | _ => false
  end.

(** The blocks [onmessage] runs for chunks that each resume, synchronise
    and decode without another callback in between: (what the chunk reads
    from the output context, its decoded buffer). *)
Fixpoint chunk_events (cl : Closure)
    (chunks : list (OutputClock * AudioBuffer)) : list Event :=
  match chunks with
  | [] => []
  | (clock, audioBuffer) :: rest =>
    EvChunkResume cl clock :: EvChunkSync (currentTime clock)
    :: EvChunkDecoded cl audioBuffer :: chunk_events cl rest
  end.

(** Segments that follow one another without a gap from [start]. *)
Fixpoint back_to_back (start : T) (durations : list T) : list (T * T) :=
  match durations with
  | [] => []
  | d :: rest => (start, d) :: back_to_back (num_add start d) rest
  end.

(** The frames that wait behind the promise held by [sessionPromiseRef]
    are among [pool], and the resolver belongs to that promise. *)
Definition queue_within (pool : list string) (h : Hook) : Prop :=
  sessionResolveRef h = sessionPromiseRef h
  /\ forall p pr, sessionPromiseRef h = Some p ->
       lookup_promise p (promises h) = Some pr ->
       incl (frames (reactions pr)) pool.

Definition is_live_connect (e : Effect) : bool :=
  match e with LiveConnect _ => true | _ => false end.

(** The releasing calls [cleanup] makes for the capture nodes, the
    microphone stream and the two contexts (lines 57-83). *)
Definition releases_of_devices (h : Hook) : list Effect :=
  opt_effect NodeDisconnect (scriptProcessorRef h)
  ++ opt_effect NodeDisconnect (inputSourceRef h)
  ++ opt_effect TrackStop (streamRef h)
  ++ opt_effect ContextClose (inputAudioContextRef h)
  ++ opt_effect ContextClose (outputAudioContextRef h).

(* ================================================================== *)
(** ** The application shell ([src/App.tsx]) *)
(* ================================================================== *)

(** The colour of the status indicator (lines 51-56 and 58). *)
Inductive StatusTone : Type := Green | Yellow | Zinc.

Definition status_tone (h : Hook) : StatusTone :=
  if isConnected h then Green
  else if isConnecting h then Yellow
  else Zinc.

(** The text of the status indicator (line 60). *)
Definition status_label (h : Hook) : string :=
  if isConnecting h then "CONNECTING..."
  else if isConnected h then "LIVE"
  else "DISCONNECTED".

(** The caption of the button (lines 122-136). *)
Definition button_label (h : Hook) : string :=
  if isConnected h then "End Call"
  else if isConnecting h then "Connecting..."
  else "Start Conversation".

(** [disabled={isConnecting}] (line 112). *)
Definition button_disabled (h : Hook) : bool := isConnecting h.

(** The idle icon and the glow of the button are rendered
    (lines 85 and 139). *)
Definition idle_icon (h : Hook) : bool :=
  negb (isConnected h) && negb (isConnecting h).

(** The text of the error banner, if it is rendered (lines 95-99). *)
Definition error_banner (h : Hook) : option string := truthy (error h).

(** [handleToggleConnection] (lines 18-24), with the values of the
    render it closes over. *)
Definition handleToggleConnection (connected connecting : bool)
    (fault : option ConnectFault) : M unit :=
  if connected then disconnect
  else connect connected connecting fault.

(** A click on the button of the latest render; a disabled button
    dispatches no click (lines 111-112). *)
Definition click (fault : option ConnectFault) : M unit :=
  connected <- gets isConnected ;;
  connecting <- gets isConnecting ;;
  if connecting then ret tt
  else handleToggleConnection connected connecting fault.

End Engine.

(** Two segments (start, duration) play at a common instant. *)
Definition overlaps (a b : Q * Q) : Prop :=
  exists t : Q,
    (fst a <= t /\ t < fst a + snd a)%Q /\ (fst b <= t /\ t < fst b + snd b)%Q.

(** A decoded buffer has a duration that is not negative. *)
Definition duration_ok (ev : Event (T:=Q)) : Prop :=
  match ev with
  | EvChunkDecoded _ audioBuffer => (0 <= duration audioBuffer)%Q
  | _ => True
  end.

Arguments Hook T : clear implicits.
Arguments Effect T : clear implicits.
Arguments Event T : clear implicits.
Arguments SourceNode T : clear implicits.
Arguments AudioBuffer T : clear implicits.
Arguments OutputClock T : clear implicits.
Arguments Outcome T A : clear implicits.
Arguments M T A : clear implicits.

(** The closure of the first [connect] call of a fresh hook. *)
Definition first_closure : Closure :=
  {| inputCtx := 0; outputCtx := 1; inAnalyser := 2; outAnalyser := 3 |}.

(** A server message that carries one audio chunk and nothing else. *)
Definition audio_message (base64Audio : string) : LiveServerMessage :=
  {| serverContent := Some
       {| modelTurn := Some
            {| parts := Some
                 [{| inlineData := Some {| data := Some base64Audio |} |}] |};
          interrupted := None |} |}.

(** A server message that only signals an interruption. *)
Definition interrupted_message : LiveServerMessage :=
  {| serverContent := Some {| modelTurn := None; interrupted := Some true |} |}.

(** A decoder for three chunks with the given durations; any other
    payload is malformed. *)
Definition three_chunks {T : Type} (d1 d2 d3 : T) (base64Audio : string)
  : Exn + AudioBuffer T :=
  if String.eqb base64Audio "chunk1" then inr {| duration := d1 |}
  else if String.eqb base64Audio "chunk2" then inr {| duration := d2 |}
  else if String.eqb base64Audio "chunk3" then inr {| duration := d3 |}
  else inl {| message := Some "malformed chunk" |}.

Arguments Step T : clear implicits.

(** Each chunk resumes the output context without an error and is
    synchronised while the cursor is at or ahead of the device clock:
    (what the chunk reads from the output context, its decoded buffer),
    from the cursor [start]. *)
Fixpoint in_time (start : Q) (chunks : list (OutputClock Q * AudioBuffer Q))
  : Prop :=
  match chunks with
  | [] => True
  | (clock, audioBuffer) :: rest =>
    resume_fails clock = false
    /\ (currentTime clock <= start)%Q
    /\ in_time (start + duration audioBuffer)%Q rest
  end.

(** The output context is running and its clock reads [now]. *)
Definition running_at (now : Q) : OutputClock Q :=
  {| ctx_state := Running; resume_error := None; currentTime := now |}.

(** A server message with the given parts in its model turn. *)
Definition turn_message (ps : list Part) (flag : option bool)
  : LiveServerMessage :=
  {| serverContent := Some
       {| modelTurn := Some {| parts := Some ps |}; interrupted := flag |} |}.

(* ================================================================== *)
(** ** The audio visualizer ([src/components/AudioVisualizer.tsx]) *)
(* ================================================================== *)

(** Numbers of the drawing code are exact rationals.  [Math.PI],
    [Math.cos] and [Math.sin] are parameters of [draw]. *)
Record Trig : Type := { PI : Q; cos : Q -> Q; sin : Q -> Q }.

Inductive Mode : Type := Circle | Bars.

(** An [AnalyserNode], as far as the component reads it. *)
Record Analyser : Type := { frequencyBinCount : nat }.

(** The props of the component (lines 3-8). *)
Record Props : Type := {
  analyser : option Analyser;
  isActive : bool;
  barColor : string;
  mode : Mode
}.

(** What one call of [draw] reads from its environment: the size of the
    canvas, [Date.now()], and the bytes [getByteFrequencyData] would
    write. *)
Record Frame : Type := {
  canvas_width : nat;
  canvas_height : nat;
  date_now : nat;
  spectrum : list Byte.byte
}.

(** Calls on the 2D context, on the analyser and on the window. *)
Inductive CanvasCall : Type :=
| ClearRect (x y w h : Q)
| BeginPath
| Arc (x y radius startAngle endAngle : Q)
| MoveTo (x y : Q)
| LineTo (x y : Q)
| Stroke
| FillRect (x y w h : Q)
| StrokeStyle (color : string)
| FillStyle (color : string)
| LineWidth (w : Q)
| LineCap (cap : string)
| ShadowBlur (blur : Q)
| ShadowColor (color : string)
| GetByteFrequencyData
| RequestAnimationFrame (id : nat)
| CancelAnimationFrame (id : nat).

(** What the closure [draw] of one effect run holds (lines 28-29). *)
Record Instance : Type := {
  props : Props;
  bufferLength : nat;
  dataArray : list Byte.byte
}.

(** [animationRef] and the animation callbacks the browser still has
    to run, each with the closure it belongs to; [fresh] is the next
    request id, [has_cleanup] whether the last effect run returned a
    cleanup function. *)
Record Visualizer : Type := {
  animationRef : option nat;
  pending : list (nat * Instance);
  fresh : nat;
  has_cleanup : bool
}.

(** A number of the canvas as a rational. *)
Definition num (n : nat) : Q := inject_Z (Z.of_nat n).

(** [analyser.getByteFrequencyData(dataArray)]: the array keeps its
    length. *)
Fixpoint getByteFrequencyData (written array : list Byte.byte)
    {struct array} : list Byte.byte :=
  match array, written with
  | [], _ => []
  | a :: rest, [] => a :: rest
  | _ :: rest, w :: more => w :: getByteFrequencyData more rest
  end.

(** [dataArray[index] || 0]: an index out of range reads [undefined]. *)
Definition bar_value (array : list Byte.byte) (index : nat) : nat :=
  match nth_error array index with
  | Some b => Byte.to_nat b
  | None => 0
  end.

(** The index bar [i] samples (lines 70-74). *)
Definition bar_index (length i : nat) : nat := i * (length / 60).

(** [Math.min(width, height) / 3] (line 38). *)
Definition radius_of (fr : Frame) : Q :=
  (Qmin (num (canvas_width fr)) (num (canvas_height fr)) / 3)%Q.

(** [percent * (radius * 0.8)] (lines 75-76). *)
Definition bar_height (radius : Q) (value : nat) : Q :=
  ((num value / 255) * (radius * (8 # 10)))%Q.

(** [animationRef.current = requestAnimationFrame(draw)]
    (lines 56 and 119). *)
Definition request_frame (inst : Instance) (calls : list CanvasCall)
    (v : Visualizer) : Visualizer * list CanvasCall :=
  ({| animationRef := Some (fresh v);
      pending := pending v ++ [(fresh v, inst)];
      fresh := S (fresh v);
      has_cleanup := has_cleanup v |},
   calls ++ [RequestAnimationFrame (fresh v)]).

(** One radial bar (lines 74-103). *)
Definition circle_bar (tr : Trig) (inst : Instance) (centerX centerY radius : Q)
    (i : nat) : list CanvasCall :=
  let value := bar_value (dataArray inst) (bar_index (bufferLength inst) i) in
  let barHeight := bar_height radius value in
  let angle := (PI tr * 2 * num i / 60)%Q in
  let x1 := (centerX + cos tr angle * radius)%Q in
  let y1 := (centerY + sin tr angle * radius)%Q in
  let x2 := (centerX + cos tr angle * (radius + barHeight))%Q in
  let y2 := (centerY + sin tr angle * (radius + barHeight))%Q in
  [BeginPath; MoveTo x1 y1; LineTo x2 y2;
   StrokeStyle (barColor (props inst)); LineWidth 3; LineCap "round";
   ShadowBlur 10; ShadowColor (barColor (props inst));
   Stroke; ShadowBlur 0].

(** The loop of lines 111-116, from bar [i] at abscissa [x]. *)
Fixpoint simple_bars (inst : Instance) (height barWidth x : Q)
    (array : list Byte.byte) : list CanvasCall :=
  match array with
  | [] => []
  | b :: rest =>
    let barHeight := (num (Byte.to_nat b) / 2)%Q in
    FillStyle (barColor (props inst))
    :: FillRect x (height - barHeight / 2 - height / 2)%Q barWidth barHeight
    :: simple_bars inst height barWidth (x + (barWidth + 1))%Q rest
  end.

(** Lines 61-119: the bars of the chosen mode, then the next frame. *)
Definition draw_mode (tr : Trig) (inst : Instance) (fr : Frame)
    (calls : list CanvasCall) (v : Visualizer)
  : Visualizer * list CanvasCall :=
  let width := num (canvas_width fr) in
  let height := num (canvas_height fr) in
  let centerX := (width / 2)%Q in
  let centerY := (height / 2)%Q in
  let radius := radius_of fr in
  match mode (props inst) with
  | Circle =>
    request_frame inst
      (calls
       ++ [BeginPath; Arc centerX centerY (radius - 10)%Q 0 (2 * PI tr)%Q;
           StrokeStyle "#27272a"; LineWidth 1; Stroke]
       ++ flat_map (circle_bar tr inst centerX centerY radius) (seq 0 60))
      v
  | Bars =>
    (* the array has [bufferLength] elements (line 29) *)
    let barWidth := (width / num (bufferLength inst) * (25 # 10))%Q in
    request_frame inst
      (calls
       ++ simple_bars inst height barWidth 0
            (firstn (bufferLength inst) (dataArray inst)))
      v
  end.

(** [draw] (lines 31-120). *)
Definition draw (tr : Trig) (inst : Instance) (fr : Frame) (v : Visualizer)
  : Visualizer * list CanvasCall :=
  let width := num (canvas_width fr) in
  let height := num (canvas_height fr) in
  let centerX := (width / 2)%Q in
  let centerY := (height / 2)%Q in
  let radius := radius_of fr in
  let clear := ClearRect 0 0 width height in
  match isActive (props inst), analyser (props inst) with
  | true, Some _ =>
    (* line 43 *)
    draw_mode tr
      {| props := props inst; bufferLength := bufferLength inst;
         dataArray := getByteFrequencyData (spectrum fr) (dataArray inst) |}
      fr [clear; GetByteFrequencyData] v
  | false, _ =>
    (* lines 46-58 *)
    let time := (num (date_now fr) / 1000)%Q in
    let breathingRadius := (radius + sin tr (time * 2) * 5)%Q in
    request_frame inst
      [clear; BeginPath;
       Arc centerX centerY breathingRadius 0 (2 * PI tr)%Q;
       StrokeStyle "#27272a"; LineWidth 2; Stroke]
      v
  | true, None => draw_mode tr inst fr [clear] v
  end.

(** The body of the effect (lines 20-123): [canvas] tells whether the
    canvas and its 2D context exist. *)
Definition effect_body (tr : Trig) (p : Props) (canvas : bool) (fr : Frame)
    (v : Visualizer) : Visualizer * list CanvasCall :=
  if canvas then
    let length :=
      match analyser p with
      | Some a => frequencyBinCount a
      | None => 0
      end in
    let (v', calls) :=
      draw tr {| props := p; bufferLength := length;
                 dataArray := repeat Byte.x00 length |} fr v in
    ({| animationRef := animationRef v'; pending := pending v';
        fresh := fresh v'; has_cleanup := true |}, calls)
  else
    ({| animationRef := animationRef v; pending := pending v;
        fresh := fresh v; has_cleanup := false |}, []).

(** The browser forgets the callback registered under [id]. *)
Definition cancel (id : nat) (queue : list (nat * Instance))
  : list (nat * Instance) :=
  filter (fun entry => negb (Nat.eqb (fst entry) id)) queue.

(** The cleanup function of the effect (lines 124-128), if the last
    effect run returned one. *)
Definition effect_cleanup (v : Visualizer) : Visualizer * list CanvasCall :=
  if has_cleanup v then
    match animationRef v with
    | Some id =>
      ({| animationRef := animationRef v; pending := cancel id (pending v);
          fresh := fresh v; has_cleanup := false |},
       [CancelAnimationFrame id])
    | None =>
      ({| animationRef := None; pending := pending v;
          fresh := fresh v; has_cleanup := false |}, [])
    end
  else (v, []).

(** What happens to a mounted visualizer: React commits a render whose
    dependencies (line 129) changed, the first one included; the browser
    runs the animation callback registered under [id]; React unmounts the
    component. *)
Inductive VisualizerEvent : Type :=
| Commit (p : Props) (canvas : bool) (fr : Frame)
| AnimationFrame (id : nat) (fr : Frame)
| Unmount.

Fixpoint callback_of (id : nat) (queue : list (nat * Instance))
  : option Instance :=
  match queue with
  | [] => None
  | (id', inst) :: rest =>
    if Nat.eqb id' id then Some inst else callback_of id rest
  end.

(** React runs the cleanup of the previous effect before the next
    effect body; a callback runs once and only if it was not cancelled. *)
Definition visualizer_step (tr : Trig) (ev : VisualizerEvent) (v : Visualizer)
  : Visualizer * list CanvasCall :=
  match ev with
  | Commit p canvas fr =>
    let (v1, calls1) := effect_cleanup v in
    let (v2, calls2) := effect_body tr p canvas fr v1 in
    (v2, calls1 ++ calls2)
  | AnimationFrame id fr =>
    match callback_of id (pending v) with
    | Some inst =>
      draw tr inst fr
        {| animationRef := animationRef v; pending := cancel id (pending v);
           fresh := fresh v; has_cleanup := has_cleanup v |}
    | None => (v, [])
    end
  | Unmount => effect_cleanup v
  end.

Fixpoint visualizer_run (tr : Trig) (evs : list VisualizerEvent)
    (v : Visualizer) : Visualizer * list CanvasCall :=
  match evs with
  | [] => (v, [])
  | ev :: rest =>
    let (v1, calls1) := visualizer_step tr ev v in
    let (v2, calls2) := visualizer_run tr rest v1 in
    (v2, calls1 ++ calls2)
  end.

(** The component before its first effect. *)
Definition unmounted : Visualizer :=
  {| animationRef := None; pending := []; fresh := 0; has_cleanup := false |}.

Definition is_request (c : CanvasCall) : bool :=
  match c with RequestAnimationFrame _ => true | _ => false end.

Definition is_read (c : CanvasCall) : bool :=
  match c with GetByteFrequencyData => true | _ => false end.

Definition is_line (c : CanvasCall) : bool :=
  match c with LineTo _ _ => true | _ => false end.

Definition is_rect (c : CanvasCall) : bool :=
  match c with FillRect _ _ _ _ => true | _ => false end.

Definition is_animation_frame (ev : VisualizerEvent) : bool :=
  match ev with AnimationFrame _ _ => true | _ => false end.

(** The props of the last commit. *)
Fixpoint latest_props (evs : list VisualizerEvent) (before : option Props)
  : option Props :=
  match evs with
  | [] => before
  | Commit p _ _ :: rest => latest_props rest (Some p)
  | _ :: rest => latest_props rest before
  end.

(** At most one animation callback is registered; [animationRef] names
    it, the effect it belongs to has a cleanup function, and its closure
    holds the props [latest] and an array of [bufferLength] bytes. *)
Definition one_loop (latest : option Props) (v : Visualizer) : Prop :=
  match pending v with
  | [] => True
  | [(id, inst)] =>
    animationRef v = Some id /\ has_cleanup v = true
    /\ latest = Some (props inst)
    /\ List.length (dataArray inst) = bufferLength inst
  | _ => False
  end.

(** Rational stand-ins for [Math.PI], [Math.cos] and [Math.sin], used
    for concrete frames: Taylor polynomials. *)
Definition taylor_trig : Trig :=
  {| PI := 355 # 113;
     cos := fun x => (1 - x * x / 2)%Q;
     sin := fun x => (x - x * x * x / 6)%Q |}.

(** The output visualizer of the application while the model speaks
    (lines 68-72 of [App.tsx]), on an analyser with [fftSize = 256]. *)
Definition speaking_props : Props :=
  {| analyser := Some {| frequencyBinCount := 128 |}; isActive := true;
     barColor := "#818cf8"; mode := Circle |}.

(** A frame of the 600 by 600 canvas (lines 134-135). *)
Definition canvas_frame (now : nat) (written : list Byte.byte) : Frame :=
  {| canvas_width := 600; canvas_height := 600; date_now := now;
     spectrum := written |}.

(** The rational number a finite binary64 value denotes. *)
Definition float_value (x : float) : Q :=
  match Prim2SF x with
  | S754_finite s m e =>
    let v := (inject_Z (Zpos m) * Qpower 2 e)%Q in
    if s then (- v)%Q else v
  | _ => 0%Q
  end.

(** A block that runs between a reset of the cursor and the next commit:
    it commits no segment, and if it synchronises the cursor it reads a
    device time that is not after [now]. *)
Definition before_commit_at (now : Q) (ev : Event Q) : Prop :=
  match ev with
  | EvChunkDecoded _ _ => False
  | EvChunkSync t => (t <= now)%Q
  | _ => True
  end.

(* ================================================================== *)
(** ** Facts about commands *)
(* ================================================================== *)

Section CommandFacts.

Context {T : Type} {JN : JsNumber T}.

Implicit Types (h : Hook T) (s : list (SourceNode T)).

(** A command whose outcome is known runs the continuation on it. *)
Lemma bind_step {A B : Type} (m : M T A) (k : A -> M T B) h a h' es :
  m h = {| completion := Normal a; final := h'; emitted := es |} ->
  bind m k h = prepend es (k a h').
Proof. intros E. unfold bind. rewrite E. reflexivity. Qed.

Lemma bind_throw {A B : Type} (m : M T A) (k : A -> M T B) h e h' es :
  m h = {| completion := Throw e; final := h'; emitted := es |} ->
  bind m k h = {| completion := Throw e; final := h'; emitted := es |}.
Proof. intros E. unfold bind. rewrite E. reflexivity. Qed.

Lemma try_catch_throw {A : Type} (body : M T A) handler h e h' es :
  body h = {| completion := Throw e; final := h'; emitted := es |} ->
  try_catch body handler h = prepend es (handler e h').
Proof. intros E. unfold try_catch. rewrite E. reflexivity. Qed.

Lemma prepend_nil {A : Type} (o : Outcome T A) : prepend [] o = o.
Proof. destruct o; reflexivity. Qed.

(** Stopping every source of a set never throws and leaves the state. *)
Lemma stop_all_spec s h :
  for_each s (fun source =>
    try_catch (emit (SourceStop (node source))) (fun _ => ret tt)) h
  = {| completion := Normal tt; final := h;
       emitted := map (fun source => SourceStop (node source)) s |}.
Proof.
  revert h. induction s as [|x s IH]; intros h; [reflexivity|].
  cbn [for_each]. erewrite bind_step by reflexivity.
  rewrite IH. reflexivity.
Qed.

Lemma cleanup_spec h :
  cleanup h
  = {| completion := Normal tt; final := torn_down h;
       emitted := ConsoleLog "Cleaning up Gemini Live session..."
                  :: releases h |}.
Proof.
  destruct h as [c g sp er ia oa ic oc pr isr st ns act rr pp hp ps].
  unfold cleanup, releases, torn_down.
  do 2 (erewrite bind_step by reflexivity).
  erewrite bind_step by apply stop_all_spec.
  destruct pr, isr, st, ic, oc; reflexivity.
Qed.

Lemma run_reaction_spec session r h :
  run_reaction session r h
  = {| completion := Normal tt; final := h;
       emitted := [reaction_effect session r] |}.
Proof. destruct r; reflexivity. Qed.

Lemma run_reactions_spec session rs h :
  for_each rs (run_reaction session) h
  = {| completion := Normal tt; final := h;
       emitted := map (reaction_effect session) rs |}.
Proof.
  revert h. induction rs as [|r rs IH]; intros h; [reflexivity|].
  cbn [for_each]. erewrite bind_step by apply run_reaction_spec.
  rewrite IH. reflexivity.
Qed.

Lemma promise_then_spec p r h :
  promise_then p r h
  = {| completion := Normal tt; final := then_final p r h;
       emitted := then_emitted p r h |}.
Proof.
  unfold promise_then, then_final, then_emitted.
  erewrite bind_step by reflexivity. rewrite prepend_nil.
  destruct (lookup_promise p (promises h)) as [pr|]; [|reflexivity].
  destruct (settled pr); [apply run_reaction_spec | reflexivity].
Qed.

Lemma resolve_promise_spec p session h :
  resolve_promise p session h
  = {| completion := Normal tt; final := resolve_final p session h;
       emitted := resolve_emitted p session h |}.
Proof.
  unfold resolve_promise, resolve_final, resolve_emitted.
  erewrite bind_step by reflexivity. rewrite prepend_nil.
  destruct (lookup_promise p (promises h)) as [pr|]; [|reflexivity].
  destruct (settled pr); [reflexivity|].
  erewrite bind_step by reflexivity. rewrite prepend_nil.
  apply run_reactions_spec.
Qed.

End CommandFacts.

(** One step of symbolic execution: run the first command of a [bind]
    whose outcome is computable or given by one of the lemmas above. *)
Ltac step_block :=
  erewrite bind_step by
    first [ reflexivity | apply cleanup_spec | apply stop_all_spec
          | apply promise_then_spec | apply resolve_promise_spec ];
  cbv beta.

Ltac run_block :=
  repeat first
    [ rewrite cleanup_spec | rewrite stop_all_spec
    | rewrite promise_then_spec | rewrite resolve_promise_spec
    | rewrite prepend_nil
    | step_block ].

Ltac finish_block :=
  unfold prepend; cbn -[releases]; rewrite ?app_nil_r; try reflexivity.

(* ================================================================== *)
(** ** Outcome of each block *)
(* ================================================================== *)

Section BlockFacts.

Context {T : Type} {JN : JsNumber T}.

Implicit Types (h : Hook T) (ev : Event T) (evs : list (Event T)).

Lemma disconnect_spec h :
  disconnect h
  = match sessionPromiseRef h with
    | Some p =>
      {| completion := Normal tt;
         final := then_final p CloseSession (torn_down h);
         emitted := (ConsoleLog "Cleaning up Gemini Live session..."
                     :: releases h)
                    ++ then_emitted p CloseSession (torn_down h) |}
    | None =>
      {| completion := Normal tt; final := torn_down h;
         emitted := ConsoleLog "Cleaning up Gemini Live session..."
                    :: releases h |}
    end.
Proof.
  unfold disconnect.
  erewrite bind_step by reflexivity. rewrite prepend_nil.
  erewrite bind_step by apply cleanup_spec.
  destruct (sessionPromiseRef h) as [p|]; cbn [when_some].
  - rewrite promise_then_spec. reflexivity.
  - unfold prepend. cbn. now rewrite app_nil_r.
Qed.

Lemma interruption_spec h :
  interruption h
  = {| completion := Normal tt;
       final := setIsSpeaking false
                  (set_nextStartTimeRef num_zero (set_activeSourcesRef [] h));
       emitted := ConsoleLog "Model interrupted"
                  :: map (fun src => SourceStop (node src))
                         (activeSourcesRef h) |}.
Proof.
  unfold interruption. run_block. finish_block.
Qed.

Lemma onopen_denied_spec cl e h :
  onopen cl (Denied e) h
  = {| completion := Normal tt;
       final := torn_down (setError (Some "Microphone access failed.") h);
       emitted := [ConsoleLog "Gemini Live Connection Opened"; GetUserMedia;
                   ConsoleError "Microphone error:";
                   ConsoleLog "Cleaning up Gemini Live session..."]
                  ++ releases h |}.
Proof.
  unfold onopen. run_block.
  erewrite try_catch_throw by (apply bind_throw; reflexivity).
  run_block. finish_block.
Qed.

Lemma schedule_spec cl (b : AudioBuffer T) h :
  schedule cl b h
  = {| completion := Normal tt;
       final := setIsSpeaking true
         (set_activeSourcesRef
            (set_add {| node := heap h; buffer := b |} (activeSourcesRef h))
            (set_nextStartTimeRef (num_add (nextStartTimeRef h) (duration b))
               (set_heap (S (heap h)) h)));
       emitted := [NodeConnect (heap h) (outAnalyser cl);
                   NodeConnect (outAnalyser cl) (outputCtx cl);
                   SourceStart (heap h) (nextStartTimeRef h) (duration b)] |}.
Proof. reflexivity. Qed.

Lemma onended_spec source h :
  onended source h
  = {| completion := Normal tt;
       final := set_activeSourcesRef
                  (set_delete source (activeSourcesRef h)) h;
       emitted := [SetTimeout 200] |}.
Proof. reflexivity. Qed.

Lemma speaking_timeout_spec h :
  speaking_timeout h
  = {| completion := Normal tt;
       final := match activeSourcesRef h with
                | [] => setIsSpeaking false h
                | _ :: _ => h
                end;
       emitted := [] |}.
Proof.
  unfold speaking_timeout. run_block.
  destruct (activeSourcesRef h); reflexivity.
Qed.

Lemma resume_block_spec cl (clock : OutputClock T) h :
  try_catch (resume_if_suspended cl clock) decode_failed h
  = {| completion := Normal tt; final := h;
       emitted := match ctx_state clock with
                  | Suspended =>
                    ContextResume (outputCtx cl)
                    :: match resume_error clock with
                       | Some _ => [ConsoleError "Audio Decode Error"]
                       | None => []
                       end
                  | _ => []
                  end |}.
Proof.
  unfold resume_if_suspended.
  destruct (ctx_state clock); try reflexivity.
  destruct (resume_error clock); reflexivity.
Qed.

Lemma session_resolved_spec session h :
  session_resolved session h
  = match sessionResolveRef h with
    | Some p =>
      {| completion := Normal tt; final := resolve_final p session h;
         emitted := resolve_emitted p session h |}
    | None => {| completion := Normal tt; final := h; emitted := [] |}
    end.
Proof.
  unfold session_resolved. run_block.
  destruct (sessionResolveRef h); cbn [when_some]; [|reflexivity].
  apply resolve_promise_spec.
Qed.

Lemma audio_process_spec pcmBlob h :
  handle (EvAudioProcess pcmBlob) h
  = match scriptProcessorRef h, sessionPromiseRef h with
    | Some _, Some p =>
      {| completion := Normal tt;
         final := then_final p (SendFrame pcmBlob) h;
         emitted := then_emitted p (SendFrame pcmBlob) h |}
    | _, _ => {| completion := Normal tt; final := h; emitted := [] |}
    end.
Proof.
  cbn [handle]. run_block.
  destruct (scriptProcessorRef h); cbn [when_some]; [|reflexivity].
  unfold onaudioprocess. run_block.
  destruct (sessionPromiseRef h); cbn [when_some]; [|reflexivity].
  apply promise_then_spec.
Qed.

Lemma session_rejected_spec err h :
  session_rejected err h
  = {| completion := Normal tt;
       final := torn_down
         (setError (Some (or_default (message err) "Connection failed")) h);
       emitted := ConsoleError "Session connection failed"
                  :: ConsoleLog "Cleaning up Gemini Live session..."
                  :: releases h |}.
Proof. unfold session_rejected. run_block. finish_block. Qed.

Lemma onclose_spec h :
  onclose h
  = {| completion := Normal tt; final := torn_down h;
       emitted := ConsoleLog "Gemini Connection Closed"
                  :: ConsoleLog "Cleaning up Gemini Live session..."
                  :: releases h |}.
Proof. unfold onclose. run_block. finish_block. Qed.

Lemma onerror_spec h :
  onerror h
  = {| completion := Normal tt;
       final := torn_down (setError (Some "Connection error.") h);
       emitted := ConsoleError "Gemini Connection Error"
                  :: ConsoleLog "Cleaning up Gemini Live session..."
                  :: releases h |}.
Proof. unfold onerror. run_block. finish_block. Qed.

Lemma onopen_granted_spec cl h :
  onopen cl Granted h
  = {| completion := Normal tt;
       final := set_scriptProcessorRef (Some (S (S (heap h))))
         (set_inputSourceRef (Some (S (heap h)))
            (set_streamRef (Some (heap h))
               (set_heap (S (S (S (heap h))))
                  (setIsConnecting false (setIsConnected true h)))));
       emitted := [ConsoleLog "Gemini Live Connection Opened"; GetUserMedia;
                   NodeConnect (S (heap h)) (inAnalyser cl);
                   NodeConnect (S (heap h)) (S (S (heap h)));
                   NodeConnect (S (S (heap h))) (inputCtx cl)] |}.
Proof. reflexivity. Qed.

Lemma connect_guarded connected connecting fault h :
  (connected || connecting)%bool = true ->
  connect connected connecting fault h
  = {| completion := Normal tt; final := h; emitted := [] |}.
Proof. intros G. unfold connect. now rewrite G. Qed.

Lemma connect_ok_spec h :
  connect false false None h
  = {| completion := Normal tt;
       final := set_sessionPromiseRef (Some (4 + heap h))
         (set_sessionResolveRef (Some (4 + heap h))
            (set_promises
               ((4 + heap h, {| settled := None; reactions := [] |})
                :: promises h)
               (set_heap (5 + heap h)
                  (setOutputAnalyser (Some (3 + heap h))
                     (setInputAnalyser (Some (2 + heap h))
                        (set_outputAudioContextRef (Some (1 + heap h))
                           (set_inputAudioContextRef (Some (heap h))
                              (setError None (setIsConnecting true h)))))))));
       emitted := [NewAudioContext (heap h); NewAudioContext (1 + heap h);
                   LiveConnect {| inputCtx := heap h;
                                  outputCtx := 1 + heap h;
                                  inAnalyser := 2 + heap h;
                                  outAnalyser := 3 + heap h |}] |}.
Proof. reflexivity. Qed.

Lemma scheduled_app (es1 es2 : list (Effect T)) :
  scheduled (es1 ++ es2) = scheduled es1 ++ scheduled es2.
Proof.
  induction es1 as [|e es1 IH]; [reflexivity|].
  destruct e; cbn; now rewrite ?IH.
Qed.

Lemma quiet_trace (es : list (Effect T)) :
  forallb is_quiet es = true ->
  no_capture es = true /\ scheduled es = [].
Proof.
  induction es as [|e es IH]; [split; reflexivity|].
  cbn [forallb]. intros Q. apply andb_prop in Q as [Q1 Q2].
  destruct (IH Q2) as [IH1 IH2]. revert IH1. unfold no_capture. cbn.
  destruct e; cbn in *; try discriminate; auto.
Qed.

Lemma releases_quiet h : forallb is_quiet (releases h) = true.
Proof.
  unfold releases. rewrite !forallb_app.
  assert (S : forall l : list (SourceNode T),
    forallb is_quiet (map (fun source => @SourceStop T (node source)) l) = true)
    by (induction l as [|x l IH]; [reflexivity | exact IH]).
  rewrite S.
  destruct (scriptProcessorRef h), (inputSourceRef h), (streamRef h),
    (inputAudioContextRef h), (outputAudioContextRef h); reflexivity.
Qed.

(** A constructor that throws inside [connect] ends in the teardown of
    the [catch] block (lines 279-284). *)
Lemma connect_fault_spec f h :
  connect false false (Some f) h
  = {| completion := Normal tt;
       final := torn_down
         (setIsConnecting false
            (setError
               (Some (or_default (message (thrown f)) "Failed to connect"))
               (fault_state (stage f) h)));
       emitted := fault_trace (stage f) h
         ++ ConsoleError (or_default (message (thrown f)) "")
         :: ConsoleLog "Cleaning up Gemini Live session..."
         :: releases
              (setIsConnecting false
                 (setError
                    (Some (or_default (message (thrown f))
                                      "Failed to connect"))
                    (fault_state (stage f) h))) |}.
Proof.
  destruct f as [st ex]. unfold connect. cbn [orb].
  rewrite try_catch_throw with (e := ex)
      (h' := fault_state st h) (es := fault_trace st h)
      by (destruct st; vm_compute; reflexivity).
  run_block. unfold prepend. cbn [app stage thrown]. reflexivity.
Qed.

End BlockFacts.

(* ================================================================== *)
(** ** Runs of the event loop *)
(* ================================================================== *)

Section RunFacts.

Context {T : Type} {JN : JsNumber T}.

Implicit Types (h : Hook T) (ev : Event T) (evs : list (Event T)).

Lemma handle_connect h fault :
  handle (EvConnect fault) h
  = connect (isConnected h) (isConnecting h) fault h.
Proof. cbn [handle]. run_block. reflexivity. Qed.

Lemma connect_completes connected connecting fault h :
  completion (connect connected connecting fault h) = Normal tt.
Proof.
  destruct (connected || connecting)%bool eqn:G.
  - now rewrite connect_guarded.
  - apply orb_false_elim in G as [-> ->].
    destruct fault as [f|];
      [rewrite connect_fault_spec | rewrite connect_ok_spec]; reflexivity.
Qed.

(** No callback lets an exception escape to the event loop. *)
Lemma handle_completes ev h : completion (handle ev h) = Normal tt.
Proof.
  destruct ev.
  - rewrite handle_connect. apply connect_completes.
  - cbn [handle]. rewrite disconnect_spec.
    destruct (sessionPromiseRef h); reflexivity.
  - cbn [handle]. now rewrite cleanup_spec.
  - cbn [handle]. rewrite session_resolved_spec.
    destruct (sessionResolveRef h); reflexivity.
  - cbn [handle]. now rewrite session_rejected_spec.
  - cbn [handle]. destruct mic;
      [rewrite onopen_granted_spec | rewrite onopen_denied_spec]; reflexivity.
  - cbn [handle]. now rewrite resume_block_spec.
  - reflexivity.
  - reflexivity.
  - reflexivity.
  - cbn [handle]. now rewrite interruption_spec.
  - cbn [handle]. now rewrite onclose_spec.
  - cbn [handle]. now rewrite onerror_spec.
  - rewrite audio_process_spec.
    destruct (scriptProcessorRef h), (sessionPromiseRef h); reflexivity.
  - reflexivity.
  - cbn [handle]. now rewrite speaking_timeout_spec.
Qed.

Lemma outcome_eta {A : Type} (o : Outcome T A) :
  o = {| completion := completion o; final := final o;
         emitted := emitted o |}.
Proof. now destruct o. Qed.

Lemma run_cons ev evs h :
  run (ev :: evs) h
  = prepend (emitted (handle ev h)) (run evs (final (handle ev h))).
Proof.
  unfold run. cbn [for_each].
  rewrite bind_step with (a := tt) (h' := final (handle ev h))
    (es := emitted (handle ev h)); [reflexivity|].
  rewrite (outcome_eta (handle ev h)) at 1.
  now rewrite handle_completes.
Qed.

Lemma final_prepend {A : Type} es (o : Outcome T A) :
  final (prepend es o) = final o.
Proof. now destruct o. Qed.

Lemma emitted_prepend {A : Type} es (o : Outcome T A) :
  emitted (prepend es o) = es ++ emitted o.
Proof. now destruct o. Qed.

Lemma completion_prepend {A : Type} es (o : Outcome T A) :
  completion (prepend es o) = completion o.
Proof. now destruct o. Qed.

Lemma run_completes evs h : completion (run evs h) = Normal tt.
Proof.
  revert h. induction evs as [|ev evs IH]; intros h; [reflexivity|].
  rewrite run_cons, completion_prepend. apply IH.
Qed.

Lemma run_app evs1 evs2 h :
  final (run (evs1 ++ evs2) h) = final (run evs2 (final (run evs1 h)))
  /\ emitted (run (evs1 ++ evs2) h)
     = emitted (run evs1 h) ++ emitted (run evs2 (final (run evs1 h))).
Proof.
  revert h. induction evs1 as [|ev evs1 IH]; intros h; [split; reflexivity|].
  cbn [app]. rewrite !run_cons, !final_prepend, !emitted_prepend.
  destruct (IH (final (handle ev h))) as [-> ->].
  now rewrite app_assoc.
Qed.

Lemma run_one ev h :
  final (run [ev] h) = final (handle ev h)
  /\ emitted (run [ev] h) = emitted (handle ev h).
Proof.
  rewrite run_cons, final_prepend, emitted_prepend. cbn.
  now rewrite app_nil_r.
Qed.

Lemma bind_ext {A B : Type} (m m' : M T A) (k k' : A -> M T B) h :
  (forall h0, m h0 = m' h0) -> (forall a h0, k a h0 = k' a h0) ->
  bind m k h = bind m' k' h.
Proof.
  intros Em Ek. unfold bind. rewrite Em.
  destruct (m' h) as [[a|e] h' es]; [now rewrite Ek | reflexivity].
Qed.

Lemma outcome_normal {A : Type} (o : Outcome T A) a :
  completion o = Normal a ->
  o = {| completion := Normal a; final := final o; emitted := emitted o |}.
Proof. destruct o. cbn. now intros ->. Qed.

Lemma run_single ev h : run [ev] h = handle ev h.
Proof.
  rewrite run_cons. cbn [run for_each ret prepend].
  rewrite app_nil_r. symmetry. apply outcome_normal, handle_completes.
Qed.

Lemma bind_after_prepend {A B : Type} (m m1 : M T A) (k : A -> M T B)
    h h1 es :
  m h = prepend es (m1 h1) -> bind m k h = prepend es (bind m1 k h1).
Proof.
  intros E. unfold bind. rewrite E.
  destruct (m1 h1) as [[a|e] h' es']; cbn; [|reflexivity].
  destruct (k a h'); cbn. now rewrite app_assoc.
Qed.

Lemma run_app_bind evs1 evs2 h :
  run (evs1 ++ evs2) h = bind (run evs1) (fun _ => run evs2) h.
Proof.
  revert h. induction evs1 as [|ev evs1 IH]; intros h.
  - cbn [app]. unfold bind. cbn. now rewrite prepend_nil.
  - cbn [app]. rewrite run_cons, IH. symmetry.
    apply bind_after_prepend, run_cons.
Qed.

Lemma onmessage_blocks decodeAudioData cl message (clock : OutputClock T) h :
  onmessage decodeAudioData cl message clock h
  = run (message_blocks decodeAudioData cl message clock) h.
Proof.
  unfold onmessage, message_blocks. rewrite run_app_bind.
  apply bind_ext.
  - intros h0. 
    destruct (truthy (base64Audio_of message)) as [base64Audio|];
      [|reflexivity].
    unfold resume_if_suspended.
    destruct (ctx_state clock) eqn:S, (resume_error clock) as [e|] eqn:R,
      (decodeAudioData base64Audio) as [e'|b] eqn:DE.
    all: rewrite ?run_cons; cbn [handle]; unfold resume_if_suspended; rewrite ?S, ?R.
    all: try reflexivity.
  - intros _ h0. destruct (interrupted_of message); [|reflexivity].
    symmetry. apply run_single.
Qed.

(** A session from [connect] to [disconnect]: a frame captured before
    the connection promise resolves waits in the promise and is sent when
    it resolves; later frames are sent at once. *)
Example session_walkthrough :
  emitted
    (run [EvConnect None; EvOpen first_closure Granted;
          EvAudioProcess "frame1"; EvSessionResolved 100;
          EvAudioProcess "frame2"; EvDisconnect]
         (initial (T:=T)))
  = [NewAudioContext 0; NewAudioContext 1; LiveConnect first_closure;
     ConsoleLog "Gemini Live Connection Opened"; GetUserMedia;
     NodeConnect 6 2; NodeConnect 6 7; NodeConnect 7 0;
     SendRealtimeInput 100 "frame1"; SendRealtimeInput 100 "frame2";
     ConsoleLog "Cleaning up Gemini Live session...";
     NodeDisconnect 7; NodeDisconnect 6; TrackStop 5;
     ContextClose 0; ContextClose 1; SessionClose 100].
Proof. vm_compute. reflexivity. Qed.

End RunFacts.

(* ================================================================== *)
(** ** Teardown and the connect guard *)
(* ================================================================== *)

Section Lifecycle.

Context {T : Type} {JN : JsNumber T}.

Implicit Types (h : Hook T).

Lemma releases_torn_down h : releases (torn_down h) = [].
Proof. reflexivity. Qed.

Lemma released_no_releases h : released h = true -> releases h = [].
Proof.
  destruct h as [c g sp er ia oa ic oc pr isr st ns act rr pp hp ps].
  unfold released, releases. cbn.
  destruct ic, oc, pr, isr, st, pp, rr, act; cbn; congruence.
Qed.

Lemma released_no_promise h : released h = true -> sessionPromiseRef h = None.
Proof.
  destruct h as [c g sp er ia oa ic oc pr isr st ns act rr pp hp ps].
  unfold released. cbn.
  destruct ic, oc, pr, isr, st, pp; cbn; congruence.
Qed.

Lemma then_final_torn_down p r h :
  torn_down (then_final p r (torn_down h)) = then_final p r (torn_down h)
  /\ sessionPromiseRef (then_final p r (torn_down h)) = None
  /\ idle (then_final p r (torn_down h)) = true.
Proof.
  unfold then_final.
  destruct (lookup_promise p (promises (torn_down h))) as [pr|];
    [destruct (settled pr)|]; repeat split; reflexivity.
Qed.

(** C5. Teardown is idempotent.  [cleanup] and [disconnect] never throw;
    run a second time, or on a session whose resource references are
    already null and whose live-segment set is empty, they make no
    releasing call (no [stop], [disconnect], [close]), and the state
    they leave is Idle and is the state one run leaves. *)
Theorem teardown_idempotent h :
  let c1 := cleanup h in
  let c2 := cleanup (final c1) in
  let d1 := disconnect h in
  let d2 := disconnect (final d1) in
  (completion c1 = Normal tt /\ completion c2 = Normal tt
   /\ completion d1 = Normal tt /\ completion d2 = Normal tt)
  /\ (idle (final c1) = true /\ idle (final c2) = true
      /\ idle (final d1) = true /\ idle (final d2) = true)
  /\ (final c2 = final c1 /\ final d2 = final d1)
  /\ (filter is_release (emitted c2) = []
      /\ filter is_release (emitted d2) = [])
  /\ (released h = true ->
      filter is_release (emitted c1) = []
      /\ filter is_release (emitted d1) = [])
  /\ (cleanup initial
      = {| completion := Normal tt; final := initial (T:=T);
           emitted := [ConsoleLog "Cleaning up Gemini Live session..."] |}
      /\ disconnect initial
      = {| completion := Normal tt; final := initial (T:=T);
           emitted := [ConsoleLog "Cleaning up Gemini Live session..."] |}).
Proof.
  cbv zeta.
  assert (D : exists hd, final (disconnect h) = hd
                 /\ completion (disconnect h) = Normal tt
                 /\ torn_down hd = hd /\ sessionPromiseRef hd = None
                 /\ idle hd = true).
  { rewrite disconnect_spec. destruct (sessionPromiseRef h) as [p|]; cbn.
    - eexists; split; [reflexivity|]. split; [reflexivity|].
      apply then_final_torn_down.
    - eexists; repeat split; reflexivity. }
  destruct D as (hd & Ed & Cd & Td & Pd & Id). rewrite Ed, Cd.
  assert (E2 : disconnect hd
               = {| completion := Normal tt; final := hd;
                    emitted := [ConsoleLog "Cleaning up Gemini Live session..."] |}).
  { rewrite disconnect_spec, Pd, Td. rewrite <- Td at 2.
    now rewrite releases_torn_down. }
  rewrite E2. rewrite !cleanup_spec. cbn [completion final emitted].
  rewrite releases_torn_down.
  repeat split; try reflexivity; try assumption.
  - now rewrite (released_no_releases h H).
  - rename H into R. rewrite disconnect_spec.
    rewrite (released_no_promise h R). cbn. now rewrite (released_no_releases h R).
Qed.

(** Through a callback whose closure holds the flags of the current
    state, a further [connect] while the session is Connecting or Open
    returns at the guard of line 99, with no effect and the state
    unchanged. *)
Theorem connect_while_active_is_noop h (fault : option ConnectFault) :
  isConnecting h = true \/ isConnected h = true ->
  connect (isConnected h) (isConnecting h) fault h
  = {| completion := Normal tt; final := h; emitted := [] |}
  /\ handle (EvConnect fault) h
     = {| completion := Normal tt; final := h; emitted := [] |}.
Proof.
  intros G.
  assert (E : (isConnected h || isConnecting h)%bool = true)
    by (destruct G as [-> | ->]; [apply orb_true_r | reflexivity]).
  assert (C : connect (isConnected h) (isConnecting h) fault h
              = {| completion := Normal tt; final := h; emitted := [] |})
    by (unfold connect; now rewrite E).
  split; [exact C|].
  cbn [handle]. do 2 (erewrite bind_step by reflexivity).
  rewrite C. reflexivity.
Qed.

End Lifecycle.

(* ================================================================== *)
(** ** The playback timeline *)
(* ================================================================== *)

Section TimelineSteps.

Context {T : Type} {JN : JsNumber T}.

Implicit Types (h : Hook T) (ev : Event T) (evs : list (Event T)).

Lemma reactions_not_scheduled session (rs : list Reaction) :
  scheduled (map (reaction_effect (T:=T) session) rs) = [].
Proof.
  induction rs as [|r rs IH]; [reflexivity|]. destruct r; exact IH.
Qed.

(** What a timeline event does to the cursor and what it schedules. *)
Lemma timeline_step ev h :
  timeline_event ev = true ->
  nextStartTimeRef (final (handle ev h)) = cursor_after ev (nextStartTimeRef h)
  /\ scheduled (emitted (handle ev h)) = segment_of ev (nextStartTimeRef h).
Proof.
  destruct ev; try discriminate; intros _.
  - cbn [handle]. rewrite session_resolved_spec.
    destruct (sessionResolveRef h) as [p|]; [|split; reflexivity].
    cbn [final emitted]. unfold resolve_final, resolve_emitted.
    destruct (lookup_promise p (promises h)) as [pr|]; [|split; reflexivity].
    destruct (settled pr); split; try reflexivity.
    apply reactions_not_scheduled.
  - cbn [handle]. rewrite resume_block_spec. cbn [final emitted].
    destruct (ctx_state clock); [|split; reflexivity..].
    destruct (resume_error clock); split; reflexivity.
  - split; reflexivity.
  - split; reflexivity.
  - split; reflexivity.
  - rewrite audio_process_spec.
    destruct (scriptProcessorRef h); [|split; reflexivity].
    destruct (sessionPromiseRef h) as [p|]; [|split; reflexivity].
    cbn [final emitted]. unfold then_final, then_emitted.
    destruct (lookup_promise p (promises h)) as [pr|]; [|split; reflexivity].
    destruct (settled pr); split; reflexivity.
  - split; reflexivity.
  - cbn [handle]. rewrite speaking_timeout_spec. cbn [final emitted].
    destruct (activeSourcesRef h); split; reflexivity.
Qed.

End TimelineSteps.

Section Timeline.

Local Open Scope Q_scope.

Implicit Types (h : Hook Q) (ev : Event Q) (evs : list (Event Q)).

Lemma cursor_after_le ev (t : Q) : duration_ok ev -> t <= cursor_after ev t.
Proof.
  destruct ev; cbn; intros D; try apply Qle_refl.
  - apply Q.le_max_l.
  - lra.
Qed.

(** Along a run of timeline events every scheduled segment starts at or
    after the cursor the run started with, ends at or before the cursor
    it finished with, and ends before any later segment starts. *)
Lemma timeline_chain evs h :
  forallb (timeline_event (T:=Q)) evs = true ->
  Forall duration_ok evs ->
  let segs := scheduled (emitted (run evs h)) in
  nextStartTimeRef h <= nextStartTimeRef (final (run evs h))
  /\ Forall (fun s => nextStartTimeRef h <= fst s) segs
  /\ Forall (fun s => fst s + snd s <= nextStartTimeRef (final (run evs h))) segs
  /\ ForallOrdPairs (fun a b => fst a + snd a <= fst b) segs.
Proof.
  revert h. induction evs as [|ev evs IH]; intros h TL D; cbv zeta.
  - cbn. repeat split; try constructor. apply Qle_refl.
  - cbn [forallb] in TL. apply andb_prop in TL as [TLev TLevs].
    inversion D as [|? ? Dev Devs]; subst.
    rewrite run_cons, final_prepend, emitted_prepend, scheduled_app.
    destruct (timeline_step ev h TLev) as [Ec Es].
    specialize (IH (final (handle ev h)) TLevs Devs). cbv zeta in IH.
    rewrite Ec in IH. rewrite Es.
    destruct IH as (Hle & Hst & Hen & Hord).
    pose proof (cursor_after_le ev (nextStartTimeRef h) Dev) as Hc.
    set (ns := nextStartTimeRef h) in *.
    set (ns1 := cursor_after ev ns) in *.
    set (segs := scheduled (emitted (run evs (final (handle ev h))))) in *.
    set (nsF := nextStartTimeRef (final (run evs (final (handle ev h))))) in *.
    assert (Hst' : Forall (fun s => ns <= fst s) segs).
    { eapply Forall_impl; [|exact Hst]. cbn. intros s Hs. lra. }
    split; [lra|].
    destruct ev; cbn [segment_of app]; try (repeat split; assumption).
    (* the event that commits a segment *)
    cbn [cursor_after] in ns1. cbn [duration_ok] in Dev.
    repeat split.
    + constructor; [cbn; apply Qle_refl | exact Hst'].
    + constructor; [cbn; exact Hle | exact Hen].
    + constructor; [|exact Hord].
      eapply Forall_impl; [|exact Hst]. cbn. intros s Hs. exact Hs.
Qed.

Lemma ordered_not_overlapping (a b : Q * Q) :
  fst a + snd a <= fst b -> ~ overlaps a b.
Proof. intros H (t & [A1 A2] & [B1 B2]). lra. Qed.

Lemma ordered_pairs_impl {A : Type} (R R' : A -> A -> Prop) (l : list A) :
  (forall a b, R a b -> R' a b) ->
  ForallOrdPairs R l -> ForallOrdPairs R' l.
Proof.
  intros I H. induction H as [|a l Ha Hl IH]; constructor; [|exact IH].
  eapply Forall_impl; [|exact Ha]. apply I.
Qed.

(** C1, as amended.  In exact arithmetic, and as long as no
    interruption or teardown resets the cursor, however the blocks of
    inbound audio chunks interleave and whatever the device clock reads,
    the segments handed to [source.start] never overlap: a segment starts
    at the cursor [nextStartTimeRef.current] as it is when the segment is
    committed, the commit advances the cursor by the duration of the
    decoded buffer, and so every segment ends no later than any later one
    starts.  For any number type, binary64 included, a segment starts at
    the cursor as it is at the commit and the commit sets the cursor to
    the sum that [+=] computes. *)
Theorem scheduled_segments_never_overlap evs h :
  forallb (timeline_event (T:=Q)) evs = true ->
  Forall duration_ok evs ->
  let segs := scheduled (emitted (run evs h)) in
  ForallOrdPairs (fun a b => fst a + snd a <= fst b) segs
  /\ ForallOrdPairs (fun a b => ~ overlaps a b) segs
  /\ (forall pre cl audioBuffer post,
        evs = pre ++ EvChunkDecoded cl audioBuffer :: post ->
        let before := final (run pre h) in
        let after := final (run (pre ++ [EvChunkDecoded cl audioBuffer]) h) in
        scheduled (emitted (handle (EvChunkDecoded cl audioBuffer) before))
        = [(nextStartTimeRef before, duration audioBuffer)]
        /\ nextStartTimeRef after
           = nextStartTimeRef before + duration audioBuffer)
  /\ (forall (T : Type) (JN : JsNumber T) cl (audioBuffer : AudioBuffer T)
             (before : Hook T),
        scheduled (emitted (schedule cl audioBuffer before))
        = [(nextStartTimeRef before, duration audioBuffer)]
        /\ nextStartTimeRef (final (schedule cl audioBuffer before))
           = num_add (nextStartTimeRef before) (duration audioBuffer)).
Proof.
  intros TL D. cbv zeta.
  destruct (@timeline_chain evs h TL D) as (_ & _ & _ & Hord).
  split; [exact Hord|]. split; [|split].
  - eapply ordered_pairs_impl; [|exact Hord].
    intros a b. apply ordered_not_overlapping.
  - intros pre cl audioBuffer post _. split; [reflexivity|].
    destruct (run_app pre [EvChunkDecoded cl audioBuffer] h) as [-> _].
    destruct (run_one (EvChunkDecoded cl audioBuffer) (final (run pre h)))
      as [-> _].
    reflexivity.
  - intros T JN cl audioBuffer before. split; reflexivity.
Qed.

(** The theorem at work on a run in which a chunk is synchronised twice
    before it is committed and a segment ends in between. *)
Lemma scheduled_segments_never_overlap_witness :
  let evs :=
    [EvChunkSync 10; EvChunkDecoded first_closure {| duration := 1 # 2 |};
     EvChunkSync (51 # 5); EvChunkSync (52 # 5); EvEnded 0%nat;
     EvChunkDecoded first_closure {| duration := 3 # 10 |};
     EvChunkFailed {| message := None |};
     EvChunkDecoded first_closure {| duration := 1 # 5 |}] in
  ForallOrdPairs (fun a b => fst a + snd a <= fst b)
    (scheduled (emitted (run evs (initial (T:=Q))))).
Proof.
  cbv zeta.
  apply scheduled_segments_never_overlap.
  - reflexivity.
  - repeat constructor; cbn; lra.
Defined.

End Timeline.

(* ================================================================== *)
(** ** Scenario: three chunks back to back *)
(* ================================================================== *)

Section ScenarioB.

Local Open Scope Q_scope.

(* A decimal literal denotes the nearest binary64 value, as it does in
   JavaScript. *)
#[local] Set Warnings "-inexact-float".

(** C3. Three chunks of 0.5 s, 0.3 s and 0.2 s handled back to back at
    device time 10.0 with the cursor at 10.0 are scheduled at 10.0, 10.5
    and 10.8 and leave the cursor at 11.0; in exact arithmetic, and bit
    for bit in the binary64 arithmetic of JavaScript numbers. *)
Theorem three_chunks_back_to_back :
  (let o :=
     deliver (three_chunks 0.5 0.3 0.2) first_closure
       {| ctx_state := Running; resume_error := None; currentTime := 10 |}
       [audio_message "chunk1"; audio_message "chunk2";
        audio_message "chunk3"]
       (set_nextStartTimeRef 10 initial) in
   Forall2 (fun segment start => fst segment == start)
     (scheduled (emitted o)) [10; 10.5; 10.8]
   /\ map snd (scheduled (emitted o)) = [0.5; 0.3; 0.2]
   /\ nextStartTimeRef (final o) == 11)
  /\ (let o :=
        deliver (three_chunks 0.5 0.3 0.2)%float first_closure
          {| ctx_state := Running; resume_error := None;
             currentTime := 10%float |}
          [audio_message "chunk1"; audio_message "chunk2";
           audio_message "chunk3"]
          (set_nextStartTimeRef 10%float initial) in
      scheduled (emitted o)
      = [(10, 0.5); (10.5, 0.3); (10.8, 0.2)]%float
      /\ nextStartTimeRef (final o) = 11%float).
Proof.
  split; cbv zeta.
  - vm_compute. repeat split; repeat constructor.
  - split; vm_compute; reflexivity.
Qed.

End ScenarioB.

(* ================================================================== *)
(** ** Inbound messages *)
(* ================================================================== *)

Section Messages.

Context {T : Type} {JN : JsNumber T}.

Implicit Types (h : Hook T) (ev : Event T) (evs : list (Event T)).

(** A chunk whose decode fails is logged and dropped; the cursor has
    been synchronised unless [resume()] already failed. *)
Lemma onmessage_decode_failure decodeAudioData cl message
    (clock : OutputClock T) h base64Audio e :
  truthy (base64Audio_of message) = Some base64Audio ->
  decodeAudioData base64Audio = inl e ->
  interrupted_of message = false ->
  onmessage decodeAudioData cl message clock h
  = {| completion := Normal tt;
       final := if resume_fails clock then h
                else set_nextStartTimeRef
                       (num_max (nextStartTimeRef h) (currentTime clock)) h;
       emitted := resume_trace cl clock
                  ++ [ConsoleError "Audio Decode Error"] |}.
Proof.
  intros A D I. rewrite onmessage_blocks. unfold message_blocks.
  rewrite A, D, I. unfold resume_fails, resume_trace.
  destruct (ctx_state clock) eqn:S; [destruct (resume_error clock) eqn:R|..];
    cbn [app]; rewrite ?run_cons; cbn [handle];
    unfold resume_if_suspended; rewrite ?S, ?R; reflexivity.
Qed.

(** A chunk that decodes is scheduled at the synchronised cursor. *)
Lemma onmessage_decoded decodeAudioData cl message
    (clock : OutputClock T) h base64Audio audioBuffer :
  truthy (base64Audio_of message) = Some base64Audio ->
  decodeAudioData base64Audio = inr audioBuffer ->
  resume_fails clock = false ->
  interrupted_of message = false ->
  onmessage decodeAudioData cl message clock h
  = {| completion := Normal tt;
       final := final (schedule cl audioBuffer
                  (set_nextStartTimeRef
                     (num_max (nextStartTimeRef h) (currentTime clock)) h));
       emitted := resume_trace cl clock
                  ++ emitted (schedule cl audioBuffer
                       (set_nextStartTimeRef
                          (num_max (nextStartTimeRef h) (currentTime clock))
                          h)) |}.
Proof.
  intros A D R I. rewrite onmessage_blocks. unfold message_blocks.
  rewrite A, D, I. revert R. unfold resume_fails, resume_trace.
  destruct (ctx_state clock) eqn:S;
    [destruct (resume_error clock) eqn:R'; [discriminate|]|..]; intros _;
    cbn [app]; rewrite ?run_cons; cbn [handle];
    unfold resume_if_suspended; rewrite ?S, ?R'; reflexivity.
Qed.

Lemma message_blocks_shape decodeAudioData cl message (clock : OutputClock T) :
  exists blocks,
    forallb (chunk_block (T:=T)) blocks = true
    /\ message_blocks decodeAudioData cl message clock
       = blocks ++ (if interrupted_of message then [EvInterrupted] else []).
Proof.
  unfold message_blocks.
  destruct (truthy (base64Audio_of message)) as [base64Audio|];
    [|exists []; split; reflexivity].
  destruct (ctx_state clock), (resume_error clock),
    (decodeAudioData base64Audio);
    eexists; split; try reflexivity; reflexivity.
Qed.

Lemma set_add_incl (x : SourceNode T) s : incl s (set_add x s).
Proof.
  unfold set_add. destruct (has_node (node x) s);
    [apply incl_refl | apply incl_appl, incl_refl].
Qed.

(** The blocks of a chunk remove nothing from the live-segment set and
    set no timer. *)
Lemma chunk_blocks_keep evs h :
  forallb (chunk_block (T:=T)) evs = true ->
  incl (activeSourcesRef h) (activeSourcesRef (final (run evs h)))
  /\ forallb (fun e => negb (is_timer e)) (emitted (run evs h)) = true.
Proof.
  revert h. induction evs as [|ev evs IH]; intros h C.
  - split; [apply incl_refl | reflexivity].
  - cbn [forallb] in C. apply andb_prop in C as [Cev Cevs].
    rewrite run_cons, final_prepend, emitted_prepend, forallb_app.
    destruct (IH (final (handle ev h)) Cevs) as [I1 I2]. rewrite I2.
    assert (S : incl (activeSourcesRef h) (activeSourcesRef (final (handle ev h)))
                /\ forallb (fun e => negb (is_timer e)) (emitted (handle ev h)) = true).
    { destruct ev; try discriminate.
      - cbn [handle]. rewrite resume_block_spec. cbn [final emitted].
        split; [apply incl_refl|].
        destruct (ctx_state clock); try reflexivity.
        destruct (resume_error clock); reflexivity.
      - split; [apply incl_refl | reflexivity].
      - split; [apply set_add_incl | reflexivity].
      - split; [apply incl_refl | reflexivity]. }
    destruct S as [S1 S2]. rewrite S2. split; [|reflexivity].
    eapply incl_tran; eassumption.
Qed.

Lemma stopped_app (es1 es2 : list (Effect T)) :
  stopped (es1 ++ es2) = stopped es1 ++ stopped es2.
Proof.
  induction es1 as [|e es1 IH]; [reflexivity|].
  destruct e; cbn; now rewrite ?IH.
Qed.

Lemma stopped_stops (s : list (SourceNode T)) :
  stopped (map (fun src => SourceStop (T:=T) (node src)) s) = map node s.
Proof. induction s as [|x s IH]; [reflexivity|]. cbn. now rewrite IH. Qed.

Lemma stops_set_no_timer (s : list (SourceNode T)) :
  forallb (fun e => negb (is_timer e))
    (map (fun src => SourceStop (T:=T) (node src)) s) = true.
Proof. induction s as [|x s IH]; [reflexivity | exact IH]. Qed.

(** C2. An interruption stops every segment that is live, clears the
    live-segment set, resets the cursor to zero and sets [isSpeaking] to
    false in the block that handles the message, without setting a
    grace timer, however many segments were live. *)
Theorem interruption_is_total decodeAudioData cl message
    (clock : OutputClock T) h :
  interrupted_of message = true ->
  let o := onmessage decodeAudioData cl message clock h in
  completion o = Normal tt
  /\ incl (map node (activeSourcesRef h)) (stopped (emitted o))
  /\ activeSourcesRef (final o) = []
  /\ nextStartTimeRef (final o) = num_zero
  /\ isSpeaking (final o) = false
  /\ forallb (fun e => negb (is_timer e)) (emitted o) = true
  /\ stopped (emitted (interruption h)) = map node (activeSourcesRef h)
  /\ final (interruption h)
     = setIsSpeaking false
         (set_nextStartTimeRef num_zero (set_activeSourcesRef [] h)).
Proof.
  intros I. cbv zeta. rewrite onmessage_blocks.
  destruct (message_blocks_shape decodeAudioData cl message clock)
    as (blocks & C & ->).
  rewrite I, run_completes.
  destruct (run_app blocks [EvInterrupted] h) as [-> ->].
  destruct (run_one EvInterrupted (final (run blocks h))) as [-> ->].
  destruct (@chunk_blocks_keep blocks h C) as [K1 K2].
  cbn [handle]. rewrite !interruption_spec. cbn [final emitted].
  rewrite stopped_app, forallb_app, K2. cbn [stopped forallb is_timer negb andb].
  rewrite !stopped_stops, stops_set_no_timer.
  repeat split; try reflexivity.
  apply incl_appr. apply incl_map. exact K1.
Qed.

End Messages.

(* ================================================================== *)
(** ** Decode failures *)
(* ================================================================== *)

Section DecodeFailure.

Local Open Scope Q_scope.

Implicit Types (h : Hook Q).

Lemma set_cursor_same h : set_nextStartTimeRef (nextStartTimeRef h) h = h.
Proof. now destruct h. Qed.

(** C8. A chunk whose decode fails is local to that chunk: the handler
    does not throw, the failure is logged, nothing is scheduled, the
    connection state and the live-segment set are untouched, the cursor
    is not moved back, and the next chunk that decodes is scheduled
    from the cursor the failed one left. *)
Theorem decode_failure_is_local decodeAudioData cl message
    (clock : OutputClock Q) h base64Audio e :
  truthy (base64Audio_of message) = Some base64Audio ->
  decodeAudioData base64Audio = inl e ->
  interrupted_of message = false ->
  let o := onmessage decodeAudioData cl message clock h in
  completion o = Normal tt
  /\ In (ConsoleError "Audio Decode Error") (emitted o)
  /\ scheduled (emitted o) = []
  /\ final o = set_nextStartTimeRef (nextStartTimeRef (final o)) h
  /\ isConnected (final o) = isConnected h
  /\ activeSourcesRef (final o) = activeSourcesRef h
  /\ nextStartTimeRef h <= nextStartTimeRef (final o)
  /\ (forall message' (clock' : OutputClock Q) base64Audio' audioBuffer,
        truthy (base64Audio_of message') = Some base64Audio' ->
        decodeAudioData base64Audio' = inr audioBuffer ->
        resume_fails clock' = false ->
        interrupted_of message' = false ->
        scheduled
          (emitted (onmessage decodeAudioData cl message' clock' (final o)))
        = [(Qmax (nextStartTimeRef (final o)) (currentTime clock'),
            duration audioBuffer)]).
Proof.
  intros A D I. cbv zeta.
  rewrite (onmessage_decode_failure decodeAudioData cl message clock h A D I).
  cbn [completion final emitted].
  split; [reflexivity|].
  split; [apply in_or_app; right; left; reflexivity|].
  split; [rewrite scheduled_app; unfold resume_trace;
          destruct (ctx_state clock); reflexivity|].
  split; [destruct (resume_fails clock);
          [symmetry; apply set_cursor_same | reflexivity]|].
  split; [destruct (resume_fails clock); reflexivity|].
  split; [destruct (resume_fails clock); reflexivity|].
  split.
  - destruct (resume_fails clock); [apply Qle_refl|].
    cbn. apply Q.le_max_l.
  - intros message' clock' base64Audio' audioBuffer A' D' R' I'.
    rewrite (onmessage_decoded decodeAudioData cl message' clock' _ A' D' R' I').
    cbn [emitted]. rewrite scheduled_app. unfold resume_trace.
    destruct (ctx_state clock'); reflexivity.
Qed.

(** C10. When the decode of a chunk fails after [resume()] went
    through, the cursor has already been synchronised: it is
    [Math.max] of its old value and the device time, so it rises to
    the device time when that is later, while no duration is added and
    the live-segment set is unchanged. *)
Theorem decode_failure_still_synchronises decodeAudioData cl message
    (clock : OutputClock Q) h base64Audio e :
  truthy (base64Audio_of message) = Some base64Audio ->
  decodeAudioData base64Audio = inl e ->
  interrupted_of message = false ->
  resume_fails clock = false ->
  let o := onmessage decodeAudioData cl message clock h in
  nextStartTimeRef (final o) = Qmax (nextStartTimeRef h) (currentTime clock)
  /\ activeSourcesRef (final o) = activeSourcesRef h
  /\ scheduled (emitted o) = []
  /\ (nextStartTimeRef h < currentTime clock ->
      nextStartTimeRef (final o) = currentTime clock
      /\ nextStartTimeRef h < nextStartTimeRef (final o))
  /\ (currentTime clock <= nextStartTimeRef h ->
      nextStartTimeRef (final o) = nextStartTimeRef h).
Proof.
  intros A D I R. cbv zeta.
  rewrite (onmessage_decode_failure decodeAudioData cl message clock h A D I).
  rewrite R. cbn [completion final emitted].
  split; [reflexivity|]. split; [reflexivity|].
  split; [rewrite scheduled_app; unfold resume_trace;
          destruct (ctx_state clock); reflexivity|].
  cbn [nextStartTimeRef set_nextStartTimeRef num_max Q_number].
  unfold Qmax, GenericMinMax.gmax.
  destruct (nextStartTimeRef h ?= currentTime clock) eqn:C.
  - apply Qeq_alt in C. split; intros L; [lra | reflexivity].
  - apply Qlt_alt in C. split; intros L; [split; [reflexivity | exact L] | lra].
  - apply Qgt_alt in C. split; intros L; [lra | reflexivity].
Qed.

(** A hook whose cursor stands at 10 s, a device clock that reads 12 s,
    and a payload the decoder rejects. *)
Lemma decode_failure_is_local_witness :
  let o :=
    onmessage (three_chunks 0.5 0.3 0.2) first_closure
      (audio_message "garbage")
      {| ctx_state := Running; resume_error := None; currentTime := 12 |}
      (set_nextStartTimeRef 10 initial) in
  completion o = Normal tt
  /\ In (ConsoleError "Audio Decode Error") (emitted o).
Proof.
  cbv zeta.
  pose proof (@decode_failure_is_local (three_chunks 0.5 0.3 0.2)
    first_closure (audio_message "garbage")
    {| ctx_state := Running; resume_error := None; currentTime := 12 |}
    (set_nextStartTimeRef 10 initial) "garbage"
    {| message := Some "malformed chunk" |}
    eq_refl eq_refl eq_refl) as W.
  cbv zeta in W. split; [exact (proj1 W) | exact (proj1 (proj2 W))].
Defined.

Lemma decode_failure_still_synchronises_witness :
  let o :=
    onmessage (three_chunks 0.5 0.3 0.2) first_closure
      (audio_message "garbage")
      {| ctx_state := Running; resume_error := None; currentTime := 12 |}
      (set_nextStartTimeRef 10 initial) in
  nextStartTimeRef (final o) = 12.
Proof.
  cbv zeta.
  pose proof (@decode_failure_still_synchronises (three_chunks 0.5 0.3 0.2)
    first_closure (audio_message "garbage")
    {| ctx_state := Running; resume_error := None; currentTime := 12 |}
    (set_nextStartTimeRef 10 initial) "garbage"
    {| message := Some "malformed chunk" |}
    eq_refl eq_refl eq_refl eq_refl) as W.
  cbv zeta in W.
  apply (proj1 (proj2 (proj2 (proj2 W)))). reflexivity.
Defined.

End DecodeFailure.

(* ================================================================== *)
(** ** The speaking signal after a natural completion *)
(* ================================================================== *)

Section GraceTimer.

Context {T : Type} {JN : JsNumber T}.

Implicit Types (h : Hook T).

Lemma set_delete_removes n (s : list (SourceNode T)) :
  has_node n (set_delete n s) = false.
Proof.
  unfold has_node, set_delete. induction s as [|x s IH]; [reflexivity|].
  cbn. destruct (Nat.eqb (node x) n) eqn:E; cbn; [exact IH|].
  now rewrite E.
Qed.

Lemma set_add_not_empty (x : SourceNode T) s : set_add x s <> [].
Proof.
  unfold set_add. destruct s as [|y s]; [discriminate|].
  destruct (has_node (node x) (y :: s)); discriminate.
Qed.

(** C9, as the code has it.  When a segment ends it leaves the
    live-segment set at once, [isSpeaking] keeps its value and a 200 ms
    timer is set.  The timer is never cancelled: when it fires,
    [isSpeaking] becomes false exactly if the live-segment set is empty
    at that moment, and the state is untouched otherwise; so a segment
    that joined in the meantime and is still live keeps [isSpeaking]
    true. *)
Theorem grace_timer_reevaluates source h :
  (has_node source (activeSourcesRef (final (onended source h))) = false
   /\ isSpeaking (final (onended source h)) = isSpeaking h
   /\ emitted (onended source h) = [SetTimeout 200])
  /\ isSpeaking (final (speaking_timeout h))
     = (isSpeaking h && negb (Nat.eqb (List.length (activeSourcesRef h)) 0))%bool
  /\ final (speaking_timeout h)
     = (if Nat.eqb (List.length (activeSourcesRef h)) 0
        then setIsSpeaking false h else h)
  /\ emitted (speaking_timeout h) = []
  /\ (forall cl audioBuffer,
        isSpeaking
          (final (run [EvChunkDecoded cl audioBuffer; EvTimeout] h)) = true).
Proof.
  split; [|split; [|split; [|split]]].
  - rewrite onended_spec. cbn [final emitted].
    split; [apply set_delete_removes | split; reflexivity].
  - rewrite speaking_timeout_spec. cbn [final].
    destruct (activeSourcesRef h); cbn;
      [now rewrite andb_false_r | now rewrite andb_true_r].
  - rewrite speaking_timeout_spec. cbn [final].
    destruct (activeSourcesRef h); reflexivity.
  - now rewrite speaking_timeout_spec.
  - intros cl audioBuffer.
    rewrite !run_cons, !final_prepend. cbn [run for_each ret final handle]. rewrite speaking_timeout_spec, schedule_spec.
    cbn [final activeSourcesRef set_activeSourcesRef setIsSpeaking].
    pose proof (set_add_not_empty {| node := heap h; buffer := audioBuffer |}
                  (activeSourcesRef h)) as NE.
    destruct (set_add _ _); [contradiction|reflexivity].
Qed.

End GraceTimer.

Section GraceTimerRun.

Local Open Scope Q_scope.

(** C9, as stated, fails: a segment ends at 10.5 s and sets its timer;
    a 50 ms segment joins the live-segment set during the delay and
    ends before the timer fires; the timer then finds the set empty and
    sets [isSpeaking] to false, although a segment joined during the
    delay. *)
Lemma grace_timer_not_cancelled :
  let h0 := final (run [EvChunkSync 10;
                        EvChunkDecoded first_closure {| duration := 0.5 |}]
                       (initial (T:=Q))) in
  let h1 := final (run [EvEnded 0%nat] h0) in
  let h2 := final (run [EvChunkSync 10.51;
                        EvChunkDecoded first_closure {| duration := 0.05 |}]
                       h1) in
  let h3 := final (run [EvEnded 1%nat] h2) in
  let h4 := final (run [EvTimeout] h3) in
  (has_node 0%nat (activeSourcesRef h0) = true /\ isSpeaking h0 = true)
  /\ (activeSourcesRef h1 = [] /\ isSpeaking h1 = true)
  /\ (has_node 1%nat (activeSourcesRef h2) = true /\ isSpeaking h2 = true)
  /\ isSpeaking h3 = true
  /\ isSpeaking h4 = false.
Proof. vm_compute. repeat split; reflexivity. Qed.

End GraceTimerRun.

(* ================================================================== *)
(** ** Microphone failure after open *)
(* ================================================================== *)

Section MicrophoneFailure.

Context {T : Type} {JN : JsNumber T}.

Implicit Types (h : Hook T).

Lemma releases_keep_session h :
  forallb (fun e => negb (is_session_close e)) (releases h) = true.
Proof.
  unfold releases. rewrite !forallb_app.
  assert (S : forall l : list (SourceNode T),
    forallb (fun e => negb (is_session_close e))
      (map (fun source => @SourceStop T (node source)) l) = true)
    by (induction l as [|x l IH]; [reflexivity | exact IH]).
  rewrite S.
  destruct (scriptProcessorRef h), (inputSourceRef h), (streamRef h),
    (inputAudioContextRef h), (outputAudioContextRef h); reflexivity.
Qed.

(** C7, what the code does.  When [getUserMedia] rejects inside
    [onopen], the error is set and the local teardown runs, after which
    a new [connect] goes through; but the teardown never calls
    [session.close()] and queues no callback that would: the transport
    that has just opened stays open.  [disconnect] in the same state
    does close the session. *)
Theorem mic_failure_leaves_transport_open cl e h :
  let o := onopen cl (Denied e) h in
  (completion o = Normal tt
   /\ error (final o) = Some "Microphone access failed."
   /\ final o = torn_down (setError (Some "Microphone access failed.") h)
   /\ idle (final o) = true)
  /\ (forallb (fun x => negb (is_session_close x)) (emitted o) = true
      /\ promises (final o) = promises h)
  /\ (isConnecting (final (handle (EvConnect None) (final o))) = true
      /\ error (final (handle (EvConnect None) (final o))) = None)
  /\ (let opened := [EvConnect None; EvSessionResolved 100] in
      filter is_session_close
        (emitted (run (opened ++ [EvOpen first_closure (Denied e)])
                      (initial (T:=T)))) = []
      /\ filter is_session_close
           (emitted (run (opened ++ [EvOpen first_closure Granted;
                                     EvDisconnect])
                         (initial (T:=T)))) = [SessionClose 100]).
Proof.
  cbv zeta. rewrite onopen_denied_spec. cbn [completion final emitted].
  split; [repeat split; reflexivity|].
  split; [split; [|reflexivity]|].
  { cbn [app forallb is_session_close negb andb]. apply releases_keep_session. }
  split.
  - rewrite handle_connect. cbn [isConnected isConnecting torn_down].
    rewrite connect_ok_spec. split; reflexivity.
  - split; vm_compute; reflexivity.
Qed.

End MicrophoneFailure.

(* ================================================================== *)
(** ** Inhabited instances of the conditional statements *)
(* ================================================================== *)

Section Instances.

Local Open Scope Q_scope.

(** Two segments are live when the interruption arrives. *)
Lemma interruption_is_total_witness :
  let h2 :=
    final (deliver (three_chunks 0.5 0.3 0.2) first_closure
             {| ctx_state := Running; resume_error := None;
                currentTime := 10 |}
             [audio_message "chunk1"; audio_message "chunk2"]
             (initial (T:=Q))) in
  let o :=
    onmessage (three_chunks 0.5 0.3 0.2) first_closure interrupted_message
      {| ctx_state := Running; resume_error := None; currentTime := 10.2 |}
      h2 in
  List.length (activeSourcesRef h2) = 2%nat
  /\ incl (map node (activeSourcesRef h2)) (stopped (emitted o))
  /\ activeSourcesRef (final o) = []
  /\ isSpeaking (final o) = false.
Proof.
  cbv zeta. split; [reflexivity|].
  pose proof (@interruption_is_total Q _ (three_chunks 0.5 0.3 0.2)
    first_closure interrupted_message
    {| ctx_state := Running; resume_error := None; currentTime := 10.2 |}
    (final (deliver (three_chunks 0.5 0.3 0.2) first_closure
              {| ctx_state := Running; resume_error := None;
                 currentTime := 10 |}
              [audio_message "chunk1"; audio_message "chunk2"]
              (initial (T:=Q))))
    eq_refl) as W.
  cbv zeta in W. destruct W as (_ & W2 & W3 & _ & W5 & _).
  repeat split; assumption.
Defined.

(** A second [connect] while the first is still connecting. *)
Lemma connect_while_active_is_noop_witness :
  let h := final (handle (EvConnect None) (initial (T:=Q))) in
  isConnecting h = true
  /\ handle (EvConnect None) h
     = {| completion := Normal tt; final := h; emitted := [] |}.
Proof.
  cbv zeta. split; [reflexivity|].
  apply (@connect_while_active_is_noop Q _
           (final (handle (EvConnect None) (initial (T:=Q)))) None).
  left. reflexivity.
Defined.

End Instances.

(* ================================================================== *)
(** ** Capture gating *)
(* ================================================================== *)

Section CaptureGate.

Context {T : Type} {JN : JsNumber T}.

Implicit Types (h : Hook T) (ev : Event T) (evs : list (Event T)).

Lemma lookup_update_same p pr old (store : list (ObjId * SessionPromise)) :
  lookup_promise p store = Some old ->
  lookup_promise p (update_promise p pr store) = Some pr.
Proof.
  induction store as [|[q x] store IH]; [discriminate|].
  cbn. destruct (Nat.eqb q p) eqn:E; cbn; rewrite E; [reflexivity | exact IH].
Qed.

Lemma quiet_no_capture (es : list (Effect T)) :
  forallb is_quiet es = true ->
  existsb is_send es = false /\ existsb is_mic es = false.
Proof.
  intros Q. destruct (quiet_trace es Q) as [N _]. revert N.
  unfold no_capture.
  destruct (existsb is_send es), (existsb is_mic es); cbn; intros N;
    try discriminate; split; reflexivity.
Qed.

Lemma reactions_sends session (rs : list Reaction) :
  existsb is_send (map (reaction_effect (T:=T) session) rs)
  = existsb is_frame rs
  /\ existsb is_mic (map (reaction_effect (T:=T) session) rs) = false.
Proof.
  induction rs as [|r rs [IH1 IH2]]; [split; reflexivity|].
  destruct r; cbn; rewrite ?IH1, ?IH2; split; reflexivity.
Qed.

Lemma gate_initial : capture_gate (initial (T:=T)).
Proof. repeat split; discriminate. Qed.

(** The gate only reads five fields. *)
Lemma gate_frame h h' :
  isConnected h' = isConnected h ->
  scriptProcessorRef h' = scriptProcessorRef h ->
  sessionPromiseRef h' = sessionPromiseRef h ->
  sessionResolveRef h' = sessionResolveRef h ->
  promises h' = promises h ->
  capture_gate h -> capture_gate h'.
Proof.
  unfold capture_gate, queued_frames. intros -> -> -> -> ->. exact (fun G => G).
Qed.

Lemma gate_no_refs h :
  scriptProcessorRef h = None -> sessionPromiseRef h = None ->
  sessionResolveRef h = None -> capture_gate h.
Proof.
  unfold capture_gate, queued_frames. intros -> -> ->.
  repeat split; discriminate.
Qed.

Lemma gate_connected h :
  isConnected h = true -> sessionResolveRef h = sessionPromiseRef h ->
  capture_gate h.
Proof. unfold capture_gate. intros C R. repeat split; auto. Qed.

Lemma then_final_fields p r h :
  isConnected (then_final p r h) = isConnected h
  /\ scriptProcessorRef (then_final p r h) = scriptProcessorRef h
  /\ sessionPromiseRef (then_final p r h) = sessionPromiseRef h
  /\ sessionResolveRef (then_final p r h) = sessionResolveRef h.
Proof.
  unfold then_final. destruct (lookup_promise p (promises h)) as [pr|];
    [destruct (settled pr)|]; repeat split; reflexivity.
Qed.

Lemma resolve_final_fields p session h :
  isConnected (resolve_final p session h) = isConnected h
  /\ scriptProcessorRef (resolve_final p session h) = scriptProcessorRef h
  /\ sessionPromiseRef (resolve_final p session h) = sessionPromiseRef h
  /\ sessionResolveRef (resolve_final p session h) = sessionResolveRef h.
Proof.
  unfold resolve_final. destruct (lookup_promise p (promises h)) as [pr|];
    [destruct (settled pr)|]; repeat split; reflexivity.
Qed.

(** Every block keeps the gate. *)
Lemma gate_step ev h : capture_gate h -> capture_gate (final (handle ev h)).
Proof.
  intros G. destruct ev.
  - (* connect *)
    rewrite handle_connect.
    destruct (isConnected h || isConnecting h)%bool eqn:B.
    + now rewrite connect_guarded.
    + apply orb_false_elim in B as [C1 C2]. rewrite C1, C2.
      destruct fault as [f|].
      * rewrite connect_fault_spec. now apply gate_no_refs.
      * rewrite connect_ok_spec. cbn [final].
        destruct G as (G1 & _ & _). unfold capture_gate, queued_frames.
        cbn. rewrite Nat.eqb_refl. cbn.
        repeat split; [exact G1 | discriminate].
  - (* disconnect *)
    cbn [handle]. rewrite disconnect_spec.
    destruct (sessionPromiseRef h) as [p|]; cbn [final];
      [|now apply gate_no_refs].
    destruct (then_final_fields p CloseSession (torn_down h))
      as (_ & F2 & F3 & F4).
    apply gate_no_refs; [rewrite F2 | rewrite F3 | rewrite F4]; reflexivity.
  - cbn [handle]. rewrite cleanup_spec. now apply gate_no_refs.
  - (* the connection promise resolves *)
    cbn [handle]. rewrite session_resolved_spec.
    destruct (sessionResolveRef h) as [p|] eqn:R; [|exact G]. cbn [final].
    destruct (resolve_final_fields p session h) as (F1 & F2 & F3 & F4).
    destruct G as (G1 & G2 & G3). unfold capture_gate.
    rewrite F1, F2, F3, F4. repeat split; [exact G1 | exact G2 |].
    unfold queued_frames. rewrite F3, <- G2, R.
    revert G3. unfold queued_frames, resolve_final. rewrite <- G2, R.
    destruct (lookup_promise p (promises h)) as [pr|] eqn:L;
      [|now rewrite L].
    destruct (settled pr); [now rewrite L|].
    cbn [promises set_promises]. rewrite (@lookup_update_same p _ _ _ L).
    discriminate.
  - cbn [handle]. rewrite session_rejected_spec. now apply gate_no_refs.
  - (* onopen *)
    cbn [handle]. destruct mic.
    + rewrite onopen_granted_spec. cbn [final].
      apply gate_connected; [reflexivity|]. apply G.
    + rewrite onopen_denied_spec. now apply gate_no_refs.
  - cbn [handle]. now rewrite resume_block_spec.
  - revert G. now apply gate_frame.
  - revert G. now apply gate_frame.
  - exact G.
  - cbn [handle]. rewrite interruption_spec. revert G. now apply gate_frame.
  - cbn [handle]. rewrite onclose_spec. now apply gate_no_refs.
  - cbn [handle]. rewrite onerror_spec. now apply gate_no_refs.
  - (* a captured frame *)
    rewrite audio_process_spec.
    destruct (scriptProcessorRef h) eqn:P; [|exact G].
    destruct (sessionPromiseRef h) as [p|] eqn:S; [|exact G]. cbn [final].
    destruct (then_final_fields p (SendFrame pcmBlob) h) as (F1 & F2 & F3 & F4).
    destruct G as (G1 & G2 & _).
    apply gate_connected; [rewrite F1; apply G1; now rewrite P|].
    now rewrite F3, F4.
  - revert G. now apply gate_frame.
  - cbn [handle]. rewrite speaking_timeout_spec. cbn [final].
    destruct (activeSourcesRef h); [revert G; now apply gate_frame | exact G].
Qed.

Lemma stops_quiet (l : list (SourceNode T)) :
  forallb is_quiet (map (fun source => @SourceStop T (node source)) l) = true.
Proof. induction l as [|x l IH]; [reflexivity | exact IH]. Qed.

(** While the session is not Open no block sends a frame, and only
    [onopen] asks for the microphone. *)
Lemma gate_blocks_capture ev h :
  capture_gate h ->
  (isConnected h = false -> existsb is_send (emitted (handle ev h)) = false)
  /\ (is_open ev = false -> existsb is_mic (emitted (handle ev h)) = false).
Proof.
  intros (G1 & G2 & G3).
  assert (Q : forall (A B : Prop) (es : list (Effect T)),
            forallb is_quiet es = true ->
            (A -> existsb is_send es = false)
            /\ (B -> existsb is_mic es = false)).
  { intros A B es Hq. destruct (quiet_no_capture es Hq). split; auto. }
  destruct ev.
  - rewrite handle_connect.
    destruct (isConnected h || isConnecting h)%bool eqn:B.
    + rewrite connect_guarded by exact B. split; reflexivity.
    + apply orb_false_elim in B as [C1 C2]. rewrite C1, C2.
      destruct fault as [f|].
      * rewrite connect_fault_spec. cbn [emitted]. apply Q.
        rewrite forallb_app. cbn [forallb is_quiet andb].
        rewrite releases_quiet. destruct (stage f); reflexivity.
      * rewrite connect_ok_spec. split; reflexivity.
  - cbn [handle]. rewrite disconnect_spec.
    destruct (sessionPromiseRef h) as [p|]; cbn [emitted]; apply Q.
    + rewrite forallb_app. cbn [forallb is_quiet andb]. rewrite releases_quiet.
      unfold then_emitted.
      destruct (lookup_promise p (promises (torn_down h))) as [pr|];
        [destruct (settled pr)|]; reflexivity.
    + cbn [forallb is_quiet andb]. apply releases_quiet.
  - cbn [handle]. rewrite cleanup_spec. apply Q.
    cbn [emitted forallb is_quiet andb]. apply releases_quiet.
  - cbn [handle]. rewrite session_resolved_spec.
    destruct (sessionResolveRef h) as [p|] eqn:R; [|split; reflexivity].
    cbn [emitted]. unfold resolve_emitted.
    destruct (lookup_promise p (promises h)) as [pr|] eqn:L;
      [|split; reflexivity].
    destruct (settled pr); [split; reflexivity|].
    destruct (reactions_sends session (reactions pr)) as [-> ->].
    split; [|reflexivity]. intros C.
    destruct (existsb is_frame (reactions pr)) eqn:F; [|reflexivity].
    rewrite G3 in C; [discriminate|].
    unfold queued_frames. now rewrite <- G2, L.
  - cbn [handle]. rewrite session_rejected_spec. apply Q.
    cbn [emitted forallb is_quiet andb]. apply releases_quiet.
  - cbn [handle]. split; [|discriminate]. destruct mic.
    + now rewrite onopen_granted_spec.
    + rewrite onopen_denied_spec. cbn [emitted app existsb is_send orb].
      destruct (quiet_no_capture _ (releases_quiet h)) as [-> _]. reflexivity.
  - cbn [handle]. rewrite resume_block_spec. cbn [emitted].
    destruct (ctx_state clock); [|split; reflexivity..].
    destruct (resume_error clock); split; reflexivity.
  - split; reflexivity.
  - split; reflexivity.
  - split; reflexivity.
  - cbn [handle]. rewrite interruption_spec. apply Q.
    cbn [emitted forallb is_quiet andb]. apply stops_quiet.
  - cbn [handle]. rewrite onclose_spec. apply Q.
    cbn [emitted forallb is_quiet andb]. apply releases_quiet.
  - cbn [handle]. rewrite onerror_spec. apply Q.
    cbn [emitted forallb is_quiet andb]. apply releases_quiet.
  - rewrite audio_process_spec.
    destruct (scriptProcessorRef h) eqn:P; [|split; reflexivity].
    destruct (sessionPromiseRef h) as [p|] eqn:S; [|split; reflexivity].
    cbn [emitted]. unfold then_emitted.
    split.
    + intros C. rewrite G1 in C; [discriminate | reflexivity].
    + intros _. destruct (lookup_promise p (promises h)) as [pr|];
        [destruct (settled pr)|]; reflexivity.
  - split; reflexivity.
  - cbn [handle]. rewrite speaking_timeout_spec. split; reflexivity.
Qed.

(** Only [onopen] sets [isConnected]. *)
Lemma stays_unconnected ev h :
  is_open ev = false -> isConnected h = false ->
  isConnected (final (handle ev h)) = false.
Proof.
  intros O C. destruct ev; try discriminate.
  - rewrite handle_connect.
    destruct (isConnected h || isConnecting h)%bool eqn:B.
    + now rewrite connect_guarded.
    + apply orb_false_elim in B as [C1 C2]. rewrite C1, C2.
      destruct fault as [f|];
        [now rewrite connect_fault_spec | now rewrite connect_ok_spec].
  - cbn [handle]. rewrite disconnect_spec.
    destruct (sessionPromiseRef h) as [p|]; cbn [final]; [|reflexivity].
    now destruct (then_final_fields p CloseSession (torn_down h)) as (-> & _).
  - cbn [handle]. now rewrite cleanup_spec.
  - cbn [handle]. rewrite session_resolved_spec.
    destruct (sessionResolveRef h) as [p|]; cbn [final]; [|exact C].
    now destruct (resolve_final_fields p session h) as (-> & _).
  - cbn [handle]. now rewrite session_rejected_spec.
  - cbn [handle]. now rewrite resume_block_spec.
  - exact C.
  - exact C.
  - exact C.
  - cbn [handle]. now rewrite interruption_spec.
  - cbn [handle]. now rewrite onclose_spec.
  - cbn [handle]. now rewrite onerror_spec.
  - rewrite audio_process_spec.
    destruct (scriptProcessorRef h); [|exact C].
    destruct (sessionPromiseRef h) as [p|]; cbn [final]; [|exact C].
    now destruct (then_final_fields p (SendFrame pcmBlob) h) as (-> & _).
  - exact C.
  - cbn [handle]. rewrite speaking_timeout_spec. cbn [final].
    destruct (activeSourcesRef h); exact C.
Qed.

Lemma gate_run evs h : capture_gate h -> capture_gate (final (run evs h)).
Proof.
  revert h. induction evs as [|ev evs IH]; intros h G; [exact G|].
  rewrite run_cons, final_prepend. apply IH, gate_step, G.
Qed.

Lemma no_capture_before_open evs h :
  capture_gate h -> isConnected h = false ->
  forallb (fun e => negb (is_open e)) evs = true ->
  no_capture (emitted (run evs h)) = true
  /\ isConnected (final (run evs h)) = false.
Proof.
  revert h. induction evs as [|ev evs IH]; intros h G C O.
  - split; [reflexivity | exact C].
  - cbn [forallb] in O. apply andb_prop in O as [Oev Oevs].
    apply negb_true_iff in Oev.
    rewrite run_cons, final_prepend, emitted_prepend.
    destruct (@gate_blocks_capture ev h G) as [S M].
    destruct (IH (final (handle ev h)) (gate_step ev G)
                 (stays_unconnected ev h Oev C) Oevs) as [N1 N2].
    split; [|exact N2].
    revert N1. unfold no_capture. rewrite !existsb_app, (S C), (M Oev).
    exact (fun N => N).
Qed.

(** When [getUserMedia] settles before any other callback runs, so that
    [onopen] is one block, the capture path is gated: in every state such
    a run reaches, no block sends a frame to the transport while the
    session is not Open, the microphone is requested by no block other
    than [onopen], and a processor is installed only while the session is
    Open; in particular a run without [onopen] sends no frame and
    requests no microphone. *)
Theorem capture_is_gated evs ev :
  let h := final (run evs (initial (T:=T))) in
  (isConnected h = false -> existsb is_send (emitted (handle ev h)) = false)
  /\ (is_open ev = false -> existsb is_mic (emitted (handle ev h)) = false)
  /\ (is_none (scriptProcessorRef h) = false -> isConnected h = true)
  /\ (forallb (fun e => negb (is_open e)) evs = true ->
      no_capture (emitted (run evs (initial (T:=T)))) = true
      /\ isConnected h = false).
Proof.
  cbv zeta.
  pose proof (gate_run evs gate_initial) as G.
  destruct (@gate_blocks_capture ev _ G) as [S M].
  repeat split; try assumption; try apply G.
  - now apply no_capture_before_open; [apply gate_initial | |].
  - now apply no_capture_before_open; [apply gate_initial | |].
Qed.

End CaptureGate.

(* ================================================================== *)
(** ** Runs in which other callbacks run while [onopen] waits *)
(* ================================================================== *)

Section OpenSplit.

Context {T : Type} {JN : JsNumber T}.

Implicit Types (h : Hook T) (ev : Event T) (s : Step T) (l : list (Step T)).

Lemma onopen_begin_spec h :
  onopen_begin h
  = {| completion := Normal tt;
       final := setIsConnecting false (setIsConnected true h);
       emitted := [ConsoleLog "Gemini Live Connection Opened";
                   GetUserMedia] |}.
Proof. reflexivity. Qed.

Lemma onopen_resume_granted_spec cl h :
  onopen_resume cl Granted None h
  = {| completion := Normal tt;
       final := set_scriptProcessorRef (Some (S (S (heap h))))
         (set_inputSourceRef (Some (S (heap h)))
            (set_streamRef (Some (heap h))
               (set_heap (S (S (S (heap h)))) h)));
       emitted := [NodeConnect (S (heap h)) (inAnalyser cl);
                   NodeConnect (S (heap h)) (S (S (heap h)));
                   NodeConnect (S (S (heap h))) (inputCtx cl)] |}.
Proof. reflexivity. Qed.

Lemma onopen_resume_denied_spec cl e graph_error h :
  onopen_resume cl (Denied e) graph_error h
  = {| completion := Normal tt;
       final := torn_down (setError (Some "Microphone access failed.") h);
       emitted := [ConsoleError "Microphone error:";
                   ConsoleLog "Cleaning up Gemini Live session..."]
                  ++ releases h |}.
Proof.
  unfold onopen_resume.
  erewrite try_catch_throw by (apply bind_throw; reflexivity).
  run_block. finish_block.
Qed.

(** The stream is stored before the graph is built, so the teardown of
    the [catch] block stops it. *)
Lemma onopen_resume_refused_spec cl e h :
  onopen_resume cl Granted (Some e) h
  = {| completion := Normal tt;
       final := torn_down
         (setError (Some "Microphone access failed.")
            (set_streamRef (Some (heap h)) (set_heap (S (heap h)) h)));
       emitted := [ConsoleError "Microphone error:";
                   ConsoleLog "Cleaning up Gemini Live session..."]
                  ++ releases
                       (set_streamRef (Some (heap h))
                          (set_heap (S (heap h)) h)) |}.
Proof.
  unfold onopen_resume.
  rewrite try_catch_throw with (e := e)
      (h' := set_streamRef (Some (heap h)) (set_heap (S (heap h)) h))
      (es := []) by reflexivity.
  run_block. finish_block.
Qed.

Lemma step_completes s h : completion (step s h) = Normal tt.
Proof.
  destruct s as [ev | | cl mic graph_error]; cbn [step].
  - apply handle_completes.
  - reflexivity.
  - destruct mic as [|e]; [destruct graph_error as [e|]|].
    + now rewrite onopen_resume_refused_spec.
    + now rewrite onopen_resume_granted_spec.
    + now rewrite onopen_resume_denied_spec.
Qed.

Lemma steps_cons s l h :
  steps (s :: l) h = prepend (emitted (step s h)) (steps l (final (step s h))).
Proof.
  unfold steps. cbn [for_each].
  rewrite bind_step with (a := tt) (h' := final (step s h))
    (es := emitted (step s h)); [reflexivity|].
  rewrite (outcome_eta (step s h)) at 1.
  now rewrite step_completes.
Qed.

(** A run of the event loop is a run of steps. *)
Lemma steps_blocks (evs : list (Event T)) h :
  steps (map (@Block T) evs) h = run evs h.
Proof.
  revert h. induction evs as [|ev evs IH]; intros h; [reflexivity|].
  cbn [map]. rewrite steps_cons, run_cons. cbn [step]. now rewrite IH.
Qed.

(** When nothing runs at the [await], the two blocks are [onopen]. *)
Lemma onopen_split cl mic h :
  steps [OpenBegin; OpenResume cl mic None] h = onopen cl mic h.
Proof.
  rewrite !steps_cons. cbn [step]. rewrite onopen_begin_spec.
  cbn [final emitted]. unfold steps. cbn [for_each ret].
  destruct mic as [|e].
  - rewrite onopen_resume_granted_spec, onopen_granted_spec. reflexivity.
  - rewrite onopen_resume_denied_spec, onopen_denied_spec.
    unfold prepend, ret. cbn [app]. rewrite app_nil_r. reflexivity.
Qed.

End OpenSplit.

(* ================================================================== *)
(** ** What holds in every reachable state *)
(* ================================================================== *)

Section Reachable.

Context {T : Type} {JN : JsNumber T}.

Implicit Types (h : Hook T) (ev : Event T) (s : Step T) (l : list (Step T)).

(** [p.then] and the resolver only touch the promise store. *)
Lemma then_final_store p r h :
  exists store, then_final p r h = set_promises store h.
Proof.
  unfold then_final. destruct (lookup_promise p (promises h)) as [pr|];
    [destruct (settled pr)|]; try (eexists; reflexivity);
    exists (promises h); now destruct h.
Qed.

Lemma resolve_final_store p session h :
  exists store, resolve_final p session h = set_promises store h.
Proof.
  unfold resolve_final. destruct (lookup_promise p (promises h)) as [pr|];
    [destruct (settled pr)|]; try (eexists; reflexivity);
    exists (promises h); now destruct h.
Qed.

Lemma consistent_initial : consistent (initial (T:=T)).
Proof. repeat split. Qed.

Lemma consistent_torn_down h : consistent (torn_down h).
Proof. repeat split. Qed.

Lemma consistent_block ev h :
  consistent h -> consistent (final (handle ev h)).
Proof.
  intros G. destruct ev.
  - (* connect *)
    rewrite handle_connect.
    destruct (isConnected h || isConnecting h)%bool eqn:B.
    + now rewrite connect_guarded.
    + apply orb_false_elim in B as [C1 C2]. rewrite C1, C2.
      destruct fault as [f|].
      * rewrite connect_fault_spec. apply consistent_torn_down.
      * rewrite connect_ok_spec. cbn [final].
        destruct G as (_ & _ & G3). unfold consistent, idle. cbn.
        rewrite C1. repeat split; [discriminate | exact G3].
  - cbn [handle]. rewrite disconnect_spec.
    destruct (sessionPromiseRef h) as [p|]; cbn [final];
      [|apply consistent_torn_down].
    destruct (then_final_store p CloseSession (torn_down h)) as [store ->].
    repeat split.
  - cbn [handle]. rewrite cleanup_spec. apply consistent_torn_down.
  - cbn [handle]. rewrite session_resolved_spec.
    destruct (sessionResolveRef h) as [p|]; [|exact G]. cbn [final].
    destruct (resolve_final_store p session h) as [store ->]. exact G.
  - cbn [handle]. rewrite session_rejected_spec. apply consistent_torn_down.
  - cbn [handle]. destruct mic.
    + rewrite onopen_granted_spec. cbn [final].
      destruct G as (_ & _ & G3). repeat split; [discriminate | exact G3].
    + rewrite onopen_denied_spec. apply consistent_torn_down.
  - cbn [handle]. now rewrite resume_block_spec.
  - exact G.
  - destruct G as (G1 & G2 & _). repeat split; [exact G1 | exact G2 | discriminate].
  - exact G.
  - cbn [handle]. rewrite interruption_spec.
    destruct G as (G1 & G2 & _). repeat split; [exact G1 | exact G2].
  - cbn [handle]. rewrite onclose_spec. apply consistent_torn_down.
  - cbn [handle]. rewrite onerror_spec. apply consistent_torn_down.
  - rewrite audio_process_spec.
    destruct (scriptProcessorRef h); [|exact G].
    destruct (sessionPromiseRef h) as [p|]; [|exact G]. cbn [final].
    destruct (then_final_store p (SendFrame pcmBlob) h) as [store ->]. exact G.
  - destruct G as (G1 & G2 & G3). repeat split; [exact G1 | exact G2 |].
    cbn. intros S. now rewrite (G3 S).
  - cbn [handle]. rewrite speaking_timeout_spec. cbn [final].
    destruct (activeSourcesRef h) eqn:A; [|exact G].
    destruct G as (G1 & G2 & _). repeat split; [exact G1 | exact G2 |].
    intros _. exact A.
Qed.

Lemma consistent_step s h : consistent h -> consistent (final (step s h)).
Proof.
  intros G. destruct s as [ev | | cl mic graph_error]; cbn [step].
  - now apply consistent_block.
  - rewrite onopen_begin_spec. cbn [final].
    destruct G as (_ & _ & G3). repeat split; [discriminate | exact G3].
  - destruct mic as [|e]; [destruct graph_error as [e|]|].
    + rewrite onopen_resume_refused_spec. apply consistent_torn_down.
    + rewrite onopen_resume_granted_spec. exact G.
    + rewrite onopen_resume_denied_spec. apply consistent_torn_down.
Qed.

Lemma consistent_steps l h : consistent h -> consistent (final (steps l h)).
Proof.
  revert h. induction l as [|s l IH]; intros h G; [exact G|].
  rewrite steps_cons, final_prepend. apply IH, consistent_step, G.
Qed.

(** X1. As long as every call of [connect] goes through a callback
    whose closure holds the flags of the current state (the component has
    rendered since the flags last changed, as it has for the clicks of
    [App.tsx]), [isConnected] and [isConnecting] are never set together,
    whatever blocks the hook has run since its first render and whatever
    ran while [onopen] waited for the microphone: the session is Idle,
    Connecting or Open. *)
Theorem connected_and_connecting_exclude l :
  let h := final (steps l (initial (T:=T))) in
  (isConnected h && isConnecting h)%bool = false.
Proof. cbv zeta. apply (consistent_steps l consistent_initial). Qed.

(** X2. In every reachable state the hook reports speaking whenever a
    scheduled segment is still in the live set. *)
Theorem live_segment_means_speaking l :
  let h := final (steps l (initial (T:=T))) in
  (isSpeaking h || Nat.eqb (List.length (activeSourcesRef h)) 0)%bool = true.
Proof.
  cbv zeta. destruct (consistent_steps l consistent_initial) as (_ & _ & G3).
  destruct (isSpeaking _); [reflexivity|]. now rewrite G3.
Qed.

(** X3. In every reachable state an Idle session holds none of the
    references that [connect] sets: both context references, both
    analysers, the session promise and its resolver are null. *)
Theorem idle_session_holds_nothing l :
  let h := final (steps l (initial (T:=T))) in
  implb (idle h) (no_session_refs h) = true.
Proof.
  cbv zeta. destruct (consistent_steps l consistent_initial) as (_ & G2 & _).
  destruct (idle _); [now rewrite G2 | reflexivity].
Qed.

End Reachable.

(* ================================================================== *)
(** ** The capture path through the session promise *)
(* ================================================================== *)

Section CapturePath.

Context {T : Type} {JN : JsNumber T}.

Implicit Types (h : Hook T) (ev : Event T) (evs : list (Event T))
  (s : Step T) (l : list (Step T)).

Lemma sent_app (es1 es2 : list (Effect T)) :
  sent (es1 ++ es2) = sent es1 ++ sent es2.
Proof.
  induction es1 as [|e es1 IH]; [reflexivity|].
  destruct e; cbn; now rewrite ?IH.
Qed.

Lemma frames_app (rs1 rs2 : list Reaction) :
  frames (rs1 ++ rs2) = frames rs1 ++ frames rs2.
Proof.
  induction rs1 as [|r rs1 IH]; [reflexivity|].
  destruct r; cbn; now rewrite ?IH.
Qed.

Lemma captured_app l1 l2 :
  captured (l1 ++ l2) = captured l1 ++ captured l2.
Proof.
  induction l1 as [|s l1 IH]; [reflexivity|].
  destruct s as [[] | |]; cbn; now rewrite ?IH.
Qed.

Lemma sent_reactions session (rs : list Reaction) :
  sent (map (reaction_effect (T:=T) session) rs)
  = map (pair session) (frames rs).
Proof.
  induction rs as [|r rs IH]; [reflexivity|].
  destruct r; cbn; now rewrite IH.
Qed.

Lemma sent_quiet (es : list (Effect T)) :
  forallb is_quiet es = true -> sent es = [].
Proof.
  induction es as [|e es IH]; [reflexivity|].
  cbn [forallb]. intros Q. apply andb_prop in Q as [Q1 Q2].
  destruct e; cbn in *; try discriminate; auto.
Qed.

(** A frame captured while the promise is pending waits behind it. *)
Lemma frames_wait (bs : list string) : forall h p pr proc,
  scriptProcessorRef h = Some proc ->
  sessionPromiseRef h = Some p ->
  lookup_promise p (promises h) = Some pr ->
  settled pr = None ->
  let o := run (map (@EvAudioProcess T) bs) h in
  emitted o = []
  /\ scriptProcessorRef (final o) = Some proc
  /\ sessionPromiseRef (final o) = Some p
  /\ sessionResolveRef (final o) = sessionResolveRef h
  /\ lookup_promise p (promises (final o))
     = Some {| settled := None;
               reactions := reactions pr ++ map SendFrame bs |}.
Proof.
  induction bs as [|b bs IH]; intros h p pr proc P S L N; cbv zeta.
  - cbn. rewrite app_nil_r. repeat split; try assumption.
    rewrite L. destruct pr as [st rs]. cbn in N. now rewrite N.
  - cbn [map]. rewrite run_cons, final_prepend, emitted_prepend.
    rewrite audio_process_spec, P, S. cbn [final emitted].
    unfold then_final, then_emitted. rewrite L, N. cbn [app].
    set (h1 := set_promises _ h).
    assert (L1 : lookup_promise p (promises h1)
                 = Some {| settled := None;
                           reactions := reactions pr ++ [SendFrame b] |})
      by (apply (@lookup_update_same p _ _ _ L)).
    destruct (IH h1 p _ proc P S L1 eq_refl) as (E1 & E2 & E3 & E4 & E5).
    cbn [reactions] in E5. rewrite <- app_assoc in E5.
    repeat split; assumption.
Qed.

(** A frame captured after the promise resolved is sent at once. *)
Lemma frames_pass (bs : list string) : forall h p pr proc session,
  scriptProcessorRef h = Some proc ->
  sessionPromiseRef h = Some p ->
  lookup_promise p (promises h) = Some pr ->
  settled pr = Some session ->
  run (map (@EvAudioProcess T) bs) h
  = {| completion := Normal tt; final := h;
       emitted := map (SendRealtimeInput session) bs |}.
Proof.
  induction bs as [|b bs IH]; intros h p pr proc session P S L N;
    [reflexivity|].
  cbn [map]. rewrite run_cons.
  rewrite audio_process_spec, P, S. cbn [final emitted].
  unfold then_final, then_emitted. rewrite L, N.
  rewrite (IH h p pr proc session P S L N). reflexivity.
Qed.

Lemma sent_sends session (bs : list string) :
  sent (map (@SendRealtimeInput T session) bs) = map (pair session) bs.
Proof. induction bs as [|b bs IH]; [reflexivity|]. cbn. now rewrite IH. Qed.

Lemma frames_of_frames (bs : list string) : frames (map SendFrame bs) = bs.
Proof. induction bs as [|b bs IH]; [reflexivity|]. cbn. now rewrite IH. Qed.

(** X4. Frames reach the transport in the order they were captured.
    Frames captured while the connection promise is pending send nothing
    at capture time; when the promise resolves with [session] they are
    sent, oldest first, behind the frames already waiting, and every
    later frame is sent as soon as it is captured. *)
Theorem frames_are_sent_in_capture_order h p pr proc session
    (before after : list string) :
  scriptProcessorRef h = Some proc ->
  sessionPromiseRef h = Some p ->
  sessionResolveRef h = Some p ->
  lookup_promise p (promises h) = Some pr ->
  settled pr = None ->
  emitted (run (map (@EvAudioProcess T) before) h) = []
  /\ sent (emitted (run (map (@EvAudioProcess T) before
                          ++ EvSessionResolved session
                          :: map (@EvAudioProcess T) after) h))
     = map (pair session) (frames (reactions pr) ++ before ++ after).
Proof.
  intros P S R L N.
  destruct (@frames_wait before h p pr proc P S L N) as (E1 & E2 & E3 & E4 & E5).
  split; [exact E1|].
  destruct (run_app (map (@EvAudioProcess T) before)
              (EvSessionResolved session :: map (@EvAudioProcess T) after) h)
    as [_ ->].
  rewrite E1. cbn [app].
  set (h1 := final (run (map (@EvAudioProcess T) before) h)) in *.
  rewrite run_cons, emitted_prepend. cbn [handle].
  rewrite session_resolved_spec, E4, R. cbn [final emitted].
  unfold resolve_final, resolve_emitted. rewrite E5. cbn [settled reactions].
  set (h2 := set_promises _ h1).
  assert (L2 : lookup_promise p (promises h2)
               = Some {| settled := Some session; reactions := [] |})
    by (apply (@lookup_update_same p _ _ _ E5)).
  rewrite (@frames_pass after h2 p _ proc session E2 E3 L2 eq_refl).
  cbn [emitted]. rewrite sent_app, sent_reactions, sent_sends, frames_app.
  rewrite frames_of_frames, <- map_app. now rewrite <- app_assoc.
Qed.

Lemma queue_within_no_refs pool h :
  sessionPromiseRef h = None -> sessionResolveRef h = None ->
  queue_within pool h.
Proof. intros S R. split; [congruence|]. intros p pr E. congruence. Qed.

Lemma queue_within_frame pool h h' :
  sessionPromiseRef h' = sessionPromiseRef h ->
  sessionResolveRef h' = sessionResolveRef h ->
  promises h' = promises h ->
  queue_within pool h -> queue_within pool h'.
Proof. unfold queue_within. intros -> -> ->. exact (fun G => G). Qed.

Lemma queue_within_weaken pool pool' h :
  incl pool pool' -> queue_within pool h -> queue_within pool' h.
Proof.
  intros I [G1 G2]. split; [exact G1|]. intros p pr S L.
  eapply incl_tran; [exact (G2 p pr S L) | exact I].
Qed.

Lemma sent_releases h : sent (releases h) = [].
Proof. apply sent_quiet, releases_quiet. Qed.

(** One block: the frames it sends were waiting or are captured by it,
    and the frames that wait afterwards were waiting or are captured by
    it. *)
Lemma queue_block pool ev h :
  queue_within pool h ->
  queue_within (captured [Block ev] ++ pool) (final (handle ev h))
  /\ incl (map snd (sent (emitted (handle ev h)))) (captured [Block ev] ++ pool).
Proof.
  intros G.
  assert (N : forall h', sessionPromiseRef h' = None ->
              sessionResolveRef h' = None ->
              forall es : list (Effect T), sent es = [] ->
              queue_within (captured [Block ev] ++ pool) h'
              /\ incl (map snd (sent es)) (captured [Block ev] ++ pool)).
  { intros h' S R es ->. split; [now apply queue_within_no_refs|].
    intros x []. }
  assert (K : forall h', sessionPromiseRef h' = sessionPromiseRef h ->
              sessionResolveRef h' = sessionResolveRef h ->
              promises h' = promises h ->
              forall es : list (Effect T), sent es = [] ->
              queue_within (captured [Block ev] ++ pool) h'
              /\ incl (map snd (sent es)) (captured [Block ev] ++ pool)).
  { intros h' S R P es ->. split; [|intros x []].
    apply (@queue_within_frame _ h h' S R P).
    eapply queue_within_weaken; [|exact G]. apply incl_appr, incl_refl. }
  destruct ev.
  - rewrite handle_connect.
    destruct (isConnected h || isConnecting h)%bool eqn:B.
    + rewrite connect_guarded by exact B. now apply K.
    + apply orb_false_elim in B as [C1 C2]. rewrite C1, C2.
      destruct fault as [f|].
      * rewrite connect_fault_spec. apply N; try reflexivity.
        cbn [emitted]. rewrite sent_app. cbn [sent]. rewrite sent_releases.
        destruct (stage f); reflexivity.
      * rewrite connect_ok_spec. cbn [final emitted sent map].
        split; [|intros x []]. split; [reflexivity|].
        intros p pr S L. cbn in S. injection S as <-.
        cbn in L. rewrite Nat.eqb_refl in L. injection L as <-.
        intros x [].
  - cbn [handle]. rewrite disconnect_spec.
    destruct (sessionPromiseRef h) as [p|] eqn:S; cbn [final emitted].
    + destruct (then_final_fields p CloseSession (torn_down h))
        as (_ & _ & F3 & F4).
      assert (E : sent ((ConsoleLog "Cleaning up Gemini Live session..."
                         :: releases h)
                        ++ then_emitted p CloseSession (torn_down h)) = []).
      { rewrite sent_app. cbn [sent]. rewrite sent_releases.
        unfold then_emitted.
        destruct (lookup_promise p (promises (torn_down h))) as [pr|];
          [destruct (settled pr)|]; reflexivity. }
      rewrite E. split; [|intros x []].
      apply queue_within_no_refs; [rewrite F3 | rewrite F4]; reflexivity.
    + apply N; try reflexivity. cbn [sent]. apply sent_releases.
  - cbn [handle]. rewrite cleanup_spec. apply N; try reflexivity.
    cbn [emitted sent]. apply sent_releases.
  - (* the connection promise resolves *)
    cbn [handle]. rewrite session_resolved_spec.
    destruct (sessionResolveRef h) as [p|] eqn:R;
      [|apply K; try reflexivity; assumption].
    cbn [final emitted]. destruct G as [G1 G2].
    rewrite R in G1. symmetry in G1.
    unfold resolve_final, resolve_emitted.
    destruct (lookup_promise p (promises h)) as [pr|] eqn:L;
      [|apply K; try reflexivity; assumption].
    destruct (settled pr) eqn:St; [apply K; try reflexivity; assumption|].
    split.
    + split; [cbn; congruence|]. intros q qr S L'. cbn in S.
      rewrite G1 in S. injection S as <-. cbn [promises set_promises] in L'.
      rewrite (@lookup_update_same p _ _ _ L) in L'. injection L' as <-.
      intros x [].
    + rewrite sent_reactions, map_map. cbn [snd]. rewrite map_id.
      apply (G2 p pr G1 L).
  - cbn [handle]. rewrite session_rejected_spec. apply N; try reflexivity.
    cbn [emitted sent]. apply sent_releases.
  - cbn [handle]. destruct mic.
    + rewrite onopen_granted_spec. now apply K.
    + rewrite onopen_denied_spec. apply N; try reflexivity.
      cbn [emitted sent app]. apply sent_releases.
  - cbn [handle]. rewrite resume_block_spec. apply K; try reflexivity.
    cbn [emitted]. destruct (ctx_state clock); try reflexivity.
    destruct (resume_error clock); reflexivity.
  - now apply K.
  - now apply K.
  - now apply K.
  - cbn [handle]. rewrite interruption_spec. apply K; try reflexivity.
    cbn [emitted sent]. apply sent_quiet, stops_quiet.
  - cbn [handle]. rewrite onclose_spec. apply N; try reflexivity.
    cbn [emitted sent]. apply sent_releases.
  - cbn [handle]. rewrite onerror_spec. apply N; try reflexivity.
    cbn [emitted sent]. apply sent_releases.
  - (* a captured frame *)
    rewrite audio_process_spec.
    destruct (scriptProcessorRef h); [|now apply K].
    destruct (sessionPromiseRef h) as [p|] eqn:S;
      [|apply K; try reflexivity; assumption].
    cbn [final emitted]. destruct G as [G1 G2].
    unfold then_final, then_emitted.
    destruct (lookup_promise p (promises h)) as [pr|] eqn:L;
      [|apply K; try reflexivity; assumption].
    destruct (settled pr) as [session|] eqn:St.
    + split.
      * split; [exact G1|]. intros q qr S' L'.
        apply incl_appr. exact (G2 q qr S' L').
      * cbn. intros x [<- | []]. now left.
    + split; [|intros x []].
      split; [exact G1|]. intros q qr S' L'. cbn in S'.
      rewrite S in S'. injection S' as <-. cbn [promises set_promises] in L'.
      rewrite (@lookup_update_same p _ _ _ L) in L'. injection L' as <-.
      cbn [reactions]. rewrite frames_app. cbn [frames captured app].
      intros x Hx. apply in_app_or in Hx as [Hx | [<- | []]];
        [right; exact (G2 p pr S L x Hx) | now left].
  - now apply K.
  - cbn [handle]. rewrite speaking_timeout_spec. cbn [final emitted].
    destruct (activeSourcesRef h); now apply K.
Qed.

Lemma queue_step pool s h :
  queue_within pool h ->
  queue_within (captured [s] ++ pool) (final (step s h))
  /\ incl (map snd (sent (emitted (step s h)))) (captured [s] ++ pool).
Proof.
  intros G. destruct s as [ev | | cl mic graph_error]; cbn [step].
  - now apply queue_block.
  - rewrite onopen_begin_spec. split; [exact G | intros x []].
  - destruct mic as [|e]; [destruct graph_error as [e|]|].
    + rewrite onopen_resume_refused_spec. cbn [final emitted sent app].
      rewrite sent_releases. split; [|intros x []].
      now apply queue_within_no_refs.
    + rewrite onopen_resume_granted_spec. split; [exact G | intros x []].
    + rewrite onopen_resume_denied_spec. cbn [final emitted sent app].
      rewrite sent_releases. split; [|intros x []].
      now apply queue_within_no_refs.
Qed.

Lemma queue_steps l : forall pool h,
  queue_within pool h ->
  incl (map snd (sent (emitted (steps l h)))) (captured l ++ pool).
Proof.
  induction l as [|s l IH]; intros pool h G; [intros x []|].
  rewrite steps_cons, emitted_prepend, sent_app, map_app.
  destruct (@queue_step pool s h G) as [G' I].
  specialize (IH _ _ G').
  change (s :: l) with ([s] ++ l). rewrite captured_app.
  intros x Hx. apply in_app_or in Hx as [Hx | Hx].
  - apply I in Hx. apply in_app_or in Hx as [Hx | Hx];
      apply in_or_app; [left; apply in_or_app; now left | now right].
  - apply IH in Hx. apply in_app_or in Hx as [Hx | Hx];
      [apply in_or_app; left; apply in_or_app; now right|].
    apply in_app_or in Hx as [Hx | Hx]; apply in_or_app;
      [left; apply in_or_app; now left | now right].
Qed.

(** X5. Teardown drops the frames that were waiting for the session.
    After a [cleanup], whatever the state it ran in and whatever blocks
    follow, every frame sent to a transport was captured after that
    [cleanup]: none of the frames queued before it is ever sent. *)
Theorem teardown_drops_waiting_frames h l session pcmBlob :
  In (session, pcmBlob) (sent (emitted (steps l (final (cleanup h))))) ->
  In pcmBlob (captured l).
Proof.
  intros I. rewrite cleanup_spec in I. cbn [final] in I.
  assert (G : queue_within [] (torn_down h))
    by (now apply queue_within_no_refs).
  pose proof (@queue_steps l [] _ G pcmBlob) as Q.
  rewrite app_nil_r in Q. apply Q.
  change pcmBlob with (snd (session, pcmBlob)). now apply in_map.
Qed.

End CapturePath.

(* ================================================================== *)
(** ** Closing the session and releasing its resources *)
(* ================================================================== *)

Section Release.

Context {T : Type} {JN : JsNumber T}.

Implicit Types (h : Hook T) (ev : Event T) (evs : list (Event T))
  (s : Step T) (l : list (Step T)).

Lemma stops_no_close (l : list (SourceNode T)) :
  filter is_session_close
    (map (fun source => @SourceStop T (node source)) l) = [].
Proof. induction l as [|x l IH]; [reflexivity | exact IH]. Qed.

Lemma releases_no_close h : filter is_session_close (releases h) = [].
Proof.
  unfold releases. rewrite !filter_app, stops_no_close.
  destruct (scriptProcessorRef h), (inputSourceRef h), (streamRef h),
    (inputAudioContextRef h), (outputAudioContextRef h); reflexivity.
Qed.

Lemma disconnect_closes h :
  filter is_session_close (emitted (disconnect h))
  = opt_effect SessionClose (resolved_session h).
Proof.
  rewrite disconnect_spec. unfold resolved_session.
  destruct (sessionPromiseRef h) as [p|]; cbn [emitted].
  - unfold then_emitted. cbn [promises torn_down].
    rewrite filter_app. cbn [filter is_session_close].
    rewrite releases_no_close.
    destruct (lookup_promise p (promises h)) as [pr|];
      [destruct (settled pr) as [s|]|]; reflexivity.
  - cbn [filter is_session_close]. now rewrite releases_no_close.
Qed.

(** X6. [disconnect] closes the session exactly when the connection
    promise has already resolved: it then calls [session.close()] once,
    after the local teardown; while the promise is pending, or when there
    is none, it calls [close] on nothing. *)
Theorem disconnect_closes_resolved_session h :
  filter is_session_close (emitted (disconnect h))
  = opt_effect SessionClose (resolved_session h)
  /\ match resolved_session h with
     | Some session =>
       emitted (disconnect h)
       = (ConsoleLog "Cleaning up Gemini Live session..." :: releases h)
         ++ [SessionClose session]
     | None =>
       emitted (disconnect h)
       = ConsoleLog "Cleaning up Gemini Live session..." :: releases h
     end.
Proof.
  split; [apply disconnect_closes|].
  rewrite disconnect_spec. unfold resolved_session.
  destruct (sessionPromiseRef h) as [p|]; cbn [emitted]; [|reflexivity].
  unfold then_emitted. cbn [promises torn_down].
  destruct (lookup_promise p (promises h)) as [pr|];
    [destruct (settled pr) as [s|]|]; cbn [reaction_effect];
    rewrite ?app_nil_r; reflexivity.
Qed.

(** Without a promise and a resolver, a block other than [connect]
    closes no session and leaves both references null. *)
Lemma orphan_block ev h :
  is_connect (Block ev) = false ->
  sessionPromiseRef h = None -> sessionResolveRef h = None ->
  filter is_session_close (emitted (handle ev h)) = []
  /\ sessionPromiseRef (final (handle ev h)) = None
  /\ sessionResolveRef (final (handle ev h)) = None.
Proof.
  intros C S R. destruct ev; try discriminate.
  - cbn [handle]. rewrite disconnect_spec, S. cbn [final emitted filter is_session_close].
    rewrite releases_no_close. repeat split.
  - cbn [handle]. rewrite cleanup_spec. cbn [final emitted filter is_session_close].
    rewrite releases_no_close. repeat split.
  - cbn [handle]. rewrite session_resolved_spec, R. repeat split; assumption.
  - cbn [handle]. rewrite session_rejected_spec.
    cbn [final emitted filter is_session_close].
    rewrite releases_no_close. repeat split.
  - cbn [handle]. destruct mic.
    + rewrite onopen_granted_spec. repeat split; assumption.
    + rewrite onopen_denied_spec.
      cbn [final emitted filter is_session_close app].
      rewrite releases_no_close. repeat split.
  - cbn [handle]. rewrite resume_block_spec. cbn [final emitted].
    destruct (ctx_state clock); [|repeat split; assumption..].
    destruct (resume_error clock); repeat split; assumption.
  - repeat split; assumption.
  - repeat split; assumption.
  - repeat split; assumption.
  - cbn [handle]. rewrite interruption_spec.
    cbn [final emitted filter is_session_close].
    rewrite stops_no_close. repeat split; assumption.
  - cbn [handle]. rewrite onclose_spec.
    cbn [final emitted filter is_session_close].
    rewrite releases_no_close. repeat split.
  - cbn [handle]. rewrite onerror_spec.
    cbn [final emitted filter is_session_close].
    rewrite releases_no_close. repeat split.
  - rewrite audio_process_spec, S.
    destruct (scriptProcessorRef h); repeat split; assumption.
  - repeat split; assumption.
  - cbn [handle]. rewrite speaking_timeout_spec. cbn [final emitted].
    destruct (activeSourcesRef h); repeat split; assumption.
Qed.

Lemma orphan_step s h :
  is_connect s = false ->
  sessionPromiseRef h = None -> sessionResolveRef h = None ->
  filter is_session_close (emitted (step s h)) = []
  /\ sessionPromiseRef (final (step s h)) = None
  /\ sessionResolveRef (final (step s h)) = None.
Proof.
  intros C S R. destruct s as [ev | | cl mic graph_error]; cbn [step].
  - now apply orphan_block.
  - rewrite onopen_begin_spec. repeat split; assumption.
  - destruct mic as [|e]; [destruct graph_error as [e|]|].
    + rewrite onopen_resume_refused_spec.
      cbn [final emitted filter is_session_close app].
      rewrite releases_no_close. repeat split.
    + rewrite onopen_resume_granted_spec. repeat split; assumption.
    + rewrite onopen_resume_denied_spec.
      cbn [final emitted filter is_session_close app].
      rewrite releases_no_close. repeat split.
Qed.

Lemma orphan_steps l : forall h,
  forallb (fun s => negb (is_connect s)) l = true ->
  sessionPromiseRef h = None -> sessionResolveRef h = None ->
  filter is_session_close (emitted (steps l h)) = [].
Proof.
  induction l as [|s l IH]; intros h C S R; [reflexivity|].
  cbn [forallb] in C. apply andb_prop in C as [Cs Cl].
  apply negb_true_iff in Cs.
  rewrite steps_cons, emitted_prepend, filter_app.
  destruct (@orphan_step s h Cs S R) as (-> & S' & R').
  now apply IH.
Qed.

(** X7. A [disconnect] that runs before the connection promise has
    resolved never closes the transport: it calls [close] on nothing, and
    no later block does either, the late resolution of the promise
    included, until [connect] is called again. *)
Theorem early_disconnect_never_closes_session h l :
  resolved_session h = None ->
  forallb (fun s => negb (is_connect s)) l = true ->
  filter is_session_close (emitted (steps (Block EvDisconnect :: l) h)) = []
  /\ (forall session,
        handle (EvSessionResolved session) (final (disconnect h))
        = {| completion := Normal tt; final := final (disconnect h);
             emitted := [] |}).
Proof.
  intros P C.
  assert (F : sessionPromiseRef (final (disconnect h)) = None
              /\ sessionResolveRef (final (disconnect h)) = None).
  { rewrite disconnect_spec.
    destruct (sessionPromiseRef h) as [p|]; cbn [final];
      [|split; reflexivity].
    destruct (then_final_fields p CloseSession (torn_down h))
      as (_ & _ & -> & ->). split; reflexivity. }
  destruct F as [F1 F2]. split.
  - rewrite steps_cons, emitted_prepend, filter_app. cbn [step handle].
    rewrite disconnect_closes, P. cbn [opt_effect app]. now apply orphan_steps.
  - intros session. cbn [handle]. now rewrite session_resolved_spec, F2.
Qed.

Lemma stops_no_device (l : list (SourceNode T)) :
  filter is_device_release
    (map (fun source => @SourceStop T (node source)) l) = [].
Proof. induction l as [|x l IH]; [reflexivity | exact IH]. Qed.

Lemma device_releases h :
  filter is_device_release (releases h)
  = opt_effect NodeDisconnect (scriptProcessorRef h)
    ++ opt_effect NodeDisconnect (inputSourceRef h)
    ++ opt_effect TrackStop (streamRef h)
    ++ opt_effect ContextClose (inputAudioContextRef h)
    ++ opt_effect ContextClose (outputAudioContextRef h).
Proof.
  unfold releases. rewrite !filter_app, stops_no_device.
  destruct (scriptProcessorRef h), (inputSourceRef h), (streamRef h),
    (inputAudioContextRef h), (outputAudioContextRef h); reflexivity.
Qed.




(** Every block that ends in [cleanup] releases what the references
    hold and leaves the session Idle with every reference null. *)
Lemma teardown_releases_devices ev h :
  is_teardown ev = true ->
  filter is_device_release (emitted (handle ev h)) = releases_of_devices h
  /\ released (final (handle ev h)) = true
  /\ idle (final (handle ev h)) = true.
Proof.
  unfold releases_of_devices.
  destruct ev; try discriminate; intros _; cbn [handle].
  - rewrite disconnect_spec.
    destruct (sessionPromiseRef h) as [p|]; cbn [final emitted].
    + destruct (then_final_store p CloseSession (torn_down h)) as [store ->].
      rewrite filter_app. cbn [filter is_device_release].
      rewrite device_releases. unfold then_emitted.
      destruct (lookup_promise p (promises (torn_down h))) as [pr|];
        [destruct (settled pr)|]; cbn; rewrite ?app_nil_r; repeat split.
    + cbn [filter is_device_release]. rewrite device_releases. repeat split.
  - rewrite cleanup_spec. cbn [final emitted filter is_device_release].
    rewrite device_releases. repeat split.
  - rewrite session_rejected_spec. cbn [final emitted filter is_device_release].
    rewrite device_releases. repeat split.
  - rewrite onclose_spec. cbn [final emitted filter is_device_release].
    rewrite device_releases. repeat split.
  - rewrite onerror_spec. cbn [final emitted filter is_device_release].
    rewrite device_releases. repeat split.
Qed.


(** X9. A constructor that throws inside [connect] leaves the hook Idle
    with every reference null, the error set to the message of the
    exception or to "Failed to connect", and the transport never
    contacted.  When the client constructor throws, the two audio
    contexts already created are closed; when the second context
    constructor throws, the first context, not yet stored in its
    reference, is not closed. *)
Theorem failed_connect_outcome h f :
  idle h = true -> released h = true ->
  let o := handle (EvConnect (Some f)) h in
  idle (final o) = true
  /\ no_refs (final o) = true
  /\ error (final o)
     = Some (or_default (message (thrown f)) "Failed to connect")
  /\ existsb is_live_connect (emitted o) = false
  /\ filter is_context_call (emitted o)
     = match stage f with
       | AtInputContext => []
       | AtOutputContext => [NewAudioContext (heap h)]
       | AtClient =>
         [NewAudioContext (heap h); NewAudioContext (1 + heap h);
          ContextClose (heap h); ContextClose (1 + heap h)]
       end.
Proof.
  intros I R. cbv zeta.
  unfold idle in I. apply andb_prop in I as [I1 I2].
  apply negb_true_iff in I1, I2.
  rewrite handle_connect, I1, I2, connect_fault_spec. cbn [final emitted].
  repeat split.
  - rewrite existsb_app. cbn [existsb is_live_connect orb].
    destruct h as [c g sp er ia oa ic oc pr isr st ns act rr pp hp ps].
    unfold released in R. cbn in R.
    destruct ic, oc, pr, isr, st, pp, rr, act; try discriminate.
    destruct (stage f); reflexivity.
  - rewrite filter_app. cbn [filter is_context_call].
    destruct h as [c g sp er ia oa ic oc pr isr st ns act rr pp hp ps].
    unfold released in R. cbn in R.
    destruct ic, oc, pr, isr, st, pp, rr, act; try discriminate.
    destruct (stage f); reflexivity.
Qed.

Lemma or_default_not_empty (m : option string) (fallback : string) :
  fallback <> "" -> or_default m fallback <> "".
Proof. intros F. destruct m as [[|c s]|]; cbn; [exact F | discriminate | exact F]. Qed.

(** X10. The error shown to the user is kept until it is replaced.
    Each block either leaves [error] as it was, or ends Idle with a
    message that is not empty, or is a [connect] that passed the guard of
    line 99 without a fault, which clears the error and leaves the
    session Connecting.  In particular no teardown clears the error. *)
Theorem error_is_kept_until_replaced ev h :
  let h' := final (handle ev h) in
  error h' = error h
  \/ (exists msg, error h' = Some msg /\ msg <> "" /\ idle h' = true)
  \/ (ev = EvConnect None /\ idle h = true /\ error h' = None
      /\ isConnecting h' = true).
Proof.
  cbv zeta. destruct ev.
  - rewrite handle_connect.
    destruct (isConnected h || isConnecting h)%bool eqn:B.
    + left. now rewrite connect_guarded.
    + apply orb_false_elim in B as [C1 C2]. rewrite C1, C2.
      destruct fault as [f|].
      * right. left. rewrite connect_fault_spec. cbn [final].
        eexists. split; [reflexivity|]. split; [|reflexivity].
        now apply or_default_not_empty.
      * right. right. rewrite connect_ok_spec. unfold idle.
        rewrite C1, C2. repeat split.
  - left. cbn [handle]. rewrite disconnect_spec.
    destruct (sessionPromiseRef h) as [p|]; cbn [final]; [|reflexivity].
    now destruct (then_final_store p CloseSession (torn_down h)) as [store ->].
  - left. cbn [handle]. now rewrite cleanup_spec.
  - left. cbn [handle]. rewrite session_resolved_spec.
    destruct (sessionResolveRef h) as [p|]; cbn [final]; [|reflexivity].
    now destruct (resolve_final_store p session h) as [store ->].
  - right. left. cbn [handle]. rewrite session_rejected_spec. cbn [final].
    eexists. split; [reflexivity|]. split; [|reflexivity].
    now apply or_default_not_empty.
  - cbn [handle]. destruct mic.
    + left. now rewrite onopen_granted_spec.
    + right. left. rewrite onopen_denied_spec. cbn [final].
      eexists. split; [reflexivity|]. split; [discriminate | reflexivity].
  - left. cbn [handle]. now rewrite resume_block_spec.
  - now left.
  - now left.
  - now left.
  - left. cbn [handle]. now rewrite interruption_spec.
  - left. cbn [handle]. now rewrite onclose_spec.
  - right. left. cbn [handle]. rewrite onerror_spec. cbn [final].
    eexists. split; [reflexivity|]. split; [discriminate | reflexivity].
  - left. rewrite audio_process_spec.
    destruct (scriptProcessorRef h); [|reflexivity].
    destruct (sessionPromiseRef h) as [p|]; cbn [final]; [|reflexivity].
    now destruct (then_final_store p (SendFrame pcmBlob) h) as [store ->].
  - now left.
  - left. cbn [handle]. rewrite speaking_timeout_spec. cbn [final].
    destruct (activeSourcesRef h); reflexivity.
Qed.

End Release.

(* ================================================================== *)
(** ** More on the playback timeline *)
(* ================================================================== *)

Section TimelineMore.

Local Open Scope Q_scope.

Implicit Types (h : Hook Q) (ev : Event Q) (evs : list (Event Q)).

Lemma Qmax_ahead (cursor now : Q) : now <= cursor -> Qmax cursor now = cursor.
Proof.
  intros L. unfold Qmax, GenericMinMax.gmax.
  destruct (cursor ?= now) eqn:C; try reflexivity.
  apply Qlt_alt in C. lra.
Qed.

(** X11. Unless the cursor is reset in between, no segment is scheduled
    in the past of its synchronisation.  Once a block has synchronised the
    cursor at device time [now], every segment committed by the blocks
    that follow starts at or after [now], and at or after the cursor as it
    was before, as long as none of those blocks is an interruption or a
    teardown; either resets the cursor to 0. *)
Theorem segments_start_after_sync now evs h :
  forallb (timeline_event (T:=Q)) evs = true ->
  Forall duration_ok evs ->
  let o := run (EvChunkSync now :: evs) h in
  Forall (fun s => now <= fst s /\ nextStartTimeRef h <= fst s)
    (scheduled (emitted o))
  /\ now <= nextStartTimeRef (final o)
  /\ nextStartTimeRef h <= nextStartTimeRef (final o).
Proof.
  intros TL D. cbv zeta.
  rewrite run_cons, final_prepend, emitted_prepend. cbn [handle].
  change (emitted (sync_timeline now h)) with (@nil (Effect Q)).
  cbn [app].
  set (h1 := final (sync_timeline now h)).
  assert (E : nextStartTimeRef h1 = Qmax (nextStartTimeRef h) now)
    by reflexivity.
  destruct (@timeline_chain evs h1 TL D) as (Hle & Hst & _ & _).
  rewrite E in Hle, Hst.
  pose proof (Q.le_max_l (nextStartTimeRef h) now) as M1.
  pose proof (Q.le_max_r (nextStartTimeRef h) now) as M2.
  repeat split; try lra.
  eapply Forall_impl; [|exact Hst]. cbn. intros s Hs. split; lra.
Qed.

Lemma segments_start_after_sync_witness :
  let o := run [EvChunkSync 10;
                EvChunkDecoded first_closure {| duration := 1 # 2 |};
                EvChunkSync 9; EvEnded 0%nat;
                EvChunkDecoded first_closure {| duration := 3 # 10 |}]
               (set_nextStartTimeRef 4 (initial (T:=Q))) in
  Forall (fun s => 10 <= fst s /\ 4 <= fst s) (scheduled (emitted o))
  /\ 10 <= nextStartTimeRef (final o)
  /\ 4 <= nextStartTimeRef (final o).
Proof.
  cbv zeta.
  apply (@segments_start_after_sync 10
           [EvChunkDecoded first_closure {| duration := 1 # 2 |};
            EvChunkSync 9; EvEnded 0%nat;
            EvChunkDecoded first_closure {| duration := 3 # 10 |}]
           (set_nextStartTimeRef 4 (initial (T:=Q)))).
  - reflexivity.
  - repeat constructor; cbn; lra.
Defined.

(** The blocks of an audio message that resumes, decodes and carries no
    interruption are the blocks of one chunk. *)
Lemma chunk_events_of_message
    (decodeAudioData : string -> Exn + AudioBuffer Q) cl message
    (clock : OutputClock Q) base64Audio audioBuffer :
  truthy (base64Audio_of message) = Some base64Audio ->
  decodeAudioData base64Audio = inr audioBuffer ->
  interrupted_of message = false ->
  resume_fails clock = false ->
  message_blocks decodeAudioData cl message clock
  = chunk_events cl [(clock, audioBuffer)].
Proof.
  intros A D I R. unfold message_blocks. rewrite A, D, I.
  revert R. unfold resume_fails.
  destruct (ctx_state clock), (resume_error clock); try discriminate;
    intros _; reflexivity.
Qed.

(** X12. Chunks that arrive in time play back to back.  If each chunk
    is synchronised while the cursor is at or ahead of the device clock,
    its segment starts exactly where the previous one ends: the first at
    the cursor, each next one at the previous start plus the previous
    duration, and the cursor ends at the end of the last segment. *)
Theorem chunks_in_time_play_back_to_back cl
    (chunks : list (OutputClock Q * AudioBuffer Q)) h :
  in_time (nextStartTimeRef h) chunks ->
  let o := run (chunk_events cl chunks) h in
  scheduled (emitted o)
  = back_to_back (nextStartTimeRef h)
      (map (fun c => duration (snd c)) chunks)
  /\ nextStartTimeRef (final o)
     = fold_left Qplus (map (fun c => duration (snd c)) chunks)
         (nextStartTimeRef h).
Proof.
  revert h. induction chunks as [|[clock b] chunks IH]; intros h A; cbv zeta.
  - split; reflexivity.
  - destruct A as (_ & A1 & A2).
    cbn [chunk_events map snd fold_left back_to_back].
    rewrite !run_cons, !final_prepend, !emitted_prepend, !scheduled_app.
    destruct (timeline_step (EvChunkResume cl clock) h eq_refl) as [_ ->].
    cbn [segment_of app].
    assert (R : final (handle (EvChunkResume cl clock) h) = h)
      by (cbn [handle]; now rewrite resume_block_spec).
    rewrite R. cbn [handle].
    set (h2 := final (schedule cl b
                        (final (sync_timeline (currentTime clock) h)))).
    assert (E2 : nextStartTimeRef h2 = nextStartTimeRef h + duration b).
    { unfold h2. cbn. now rewrite Qmax_ahead. }
    assert (S2 : scheduled (emitted (sync_timeline (currentTime clock) h))
                 ++ scheduled (emitted (schedule cl b
                                 (final (sync_timeline (currentTime clock) h))))
                 = [(nextStartTimeRef h, duration b)]).
    { cbn. now rewrite Qmax_ahead. }
    rewrite app_assoc, S2.
    rewrite <- E2 in A2. destruct (IH h2 A2) as [-> ->].
    rewrite E2. split; reflexivity.
Qed.

Lemma chunks_in_time_play_back_to_back_witness :
  let o := run (chunk_events first_closure
                  [(running_at 10, {| duration := 1 # 2 |});
                   (running_at (10 + (1 # 4)), {| duration := 3 # 10 |});
                   (running_at (10 + (4 # 5)), {| duration := 1 # 5 |})])
               (set_nextStartTimeRef 10 (initial (T:=Q))) in
  scheduled (emitted o)
  = [(10, 1 # 2); (10 + (1 # 2), 3 # 10);
     (10 + (1 # 2) + (3 # 10), 1 # 5)]
  /\ nextStartTimeRef (final o) = 10 + (1 # 2) + (3 # 10) + (1 # 5).
Proof.
  cbv zeta.
  apply (@chunks_in_time_play_back_to_back first_closure
           [(running_at 10, {| duration := 1 # 2 |});
            (running_at (10 + (1 # 4)), {| duration := 3 # 10 |});
            (running_at (10 + (4 # 5)), {| duration := 1 # 5 |})]
           (set_nextStartTimeRef 10 (initial (T:=Q)))).
  cbn. repeat split; lra.
Defined.

End TimelineMore.

(* ================================================================== *)
(** ** Inbound messages without audio in their first part *)
(* ================================================================== *)

Section MessageParts.

Context {T : Type} {JN : JsNumber T}.

Implicit Types (h : Hook T).

(** X14. Audio is read from the first part of a model turn only
    (line 197).  Later parts never change what [onmessage] does; a turn
    whose first part carries no inline data plays nothing, whatever its
    later parts carry; and a turn with no parts, or with an empty payload
    in its first part, is ignored. *)
Theorem audio_is_read_from_first_part_only
    (decodeAudioData : string -> Exn + AudioBuffer T) cl
    (clock : OutputClock T) (p : Part) (rest : list Part)
    (flag : option bool) h :
  onmessage decodeAudioData cl (turn_message (p :: rest) flag) clock h
  = onmessage decodeAudioData cl (turn_message [p] flag) clock h
  /\ onmessage decodeAudioData cl
       (turn_message ({| inlineData := None |} :: rest) None) clock h
     = {| completion := Normal tt; final := h; emitted := [] |}
  /\ onmessage decodeAudioData cl (turn_message [] None) clock h
     = {| completion := Normal tt; final := h; emitted := [] |}
  /\ onmessage decodeAudioData cl
       (turn_message [{| inlineData := Some {| data := Some "" |} |}] None)
       clock h
     = {| completion := Normal tt; final := h; emitted := [] |}
  /\ onmessage decodeAudioData cl {| serverContent := None |} clock h
     = {| completion := Normal tt; final := h; emitted := [] |}.
Proof. repeat split. Qed.

End MessageParts.

(* ================================================================== *)
(** ** The application shell *)
(* ================================================================== *)

Section Shell.

Context {T : Type} {JN : JsNumber T}.

Implicit Types (h : Hook T) (ev : Event T) (l : list (Step T)).

(** X15. The status display is coherent in every reachable state.  The
    label of line 60 tests [isConnecting] first and the colours of lines
    51-58 test [isConnected] first; since the two flags are never set
    together, label, colour, caption and the disabled state of the button,
    and the idle icon, always show the same one of the three session
    states. *)
Theorem status_display_is_coherent l :
  let h := final (steps l (initial (T:=T))) in
  let view := (status_label h, status_tone h, button_label h,
               button_disabled h, idle_icon h) in
  view = ("DISCONNECTED", Zinc, "Start Conversation", false, true)
  \/ view = ("CONNECTING...", Yellow, "Connecting...", true, false)
  \/ view = ("LIVE", Green, "End Call", false, false).
Proof.
  cbv zeta. destruct (consistent_steps l consistent_initial) as (G1 & _ & _).
  unfold status_label, status_tone, button_label, button_disabled, idle_icon.
  destruct (isConnected _), (isConnecting _); try discriminate; auto.
Qed.

Lemma click_spec fault h :
  click fault h
  = if isConnecting h then
      {| completion := Normal tt; final := h; emitted := [] |}
    else handleToggleConnection (isConnected h) (isConnecting h) fault h.
Proof.
  unfold click. run_block. destruct (isConnecting h); reflexivity.
Qed.

(** X16. What a click on the button does in a reachable state.  While
    the display shows LIVE it runs [disconnect]: the hook ends Idle with
    every reference null and the transport is not contacted.  While it
    shows DISCONNECTED it runs [connect]: without a fault the hook becomes
    Connecting and the transport is contacted once, with the closure of
    this call.  While it shows CONNECTING the click does nothing, and so
    would [handleToggleConnection] if it were called. *)
Theorem click_toggles_the_session l :
  let h := final (steps l (initial (T:=T))) in
  let o := click None h in
  match status_tone h with
  | Green =>
    o = handle EvDisconnect h
    /\ status_label (final o) = "DISCONNECTED"
    /\ released (final o) = true
    /\ filter is_live_connect (emitted o) = []
  | Zinc =>
    o = handle (EvConnect None) h
    /\ status_label (final o) = "CONNECTING..."
    /\ button_disabled (final o) = true
    /\ filter is_live_connect (emitted o) = [LiveConnect (next_closure h)]
  | Yellow =>
    o = {| completion := Normal tt; final := h; emitted := [] |}
    /\ handleToggleConnection (isConnected h) (isConnecting h) None h
       = {| completion := Normal tt; final := h; emitted := [] |}
  end.
Proof.
  cbv zeta. destruct (consistent_steps l consistent_initial) as (G1 & _ & _).
  set (h := final (steps l initial)) in *.
  rewrite click_spec. unfold status_tone, handleToggleConnection.
  destruct (isConnected h) eqn:C, (isConnecting h) eqn:G; try discriminate.
  - (* LIVE *)
    cbn [handle]. split; [reflexivity|].
    destruct (teardown_releases_devices (EvDisconnect (T:=T)) h eq_refl)
      as (_ & R & I).
    cbn [handle] in R, I. split; [|split; [exact R|]].
    + unfold idle in I. apply andb_prop in I as [I1 I2].
      apply negb_true_iff in I1, I2. unfold status_label. now rewrite I1, I2.
    + rewrite disconnect_spec.
      assert (Rl : filter is_live_connect (releases h) = []).
      { unfold releases. rewrite !filter_app.
        assert (S : forall srcs : list (SourceNode T),
          filter is_live_connect
            (map (fun source => @SourceStop T (node source)) srcs) = [])
          by (induction srcs as [|x srcs IH]; [reflexivity | exact IH]).
        rewrite S.
        destruct (scriptProcessorRef h), (inputSourceRef h), (streamRef h),
          (inputAudioContextRef h), (outputAudioContextRef h); reflexivity. }
      destruct (sessionPromiseRef h) as [p|]; cbn [emitted].
      * rewrite filter_app. cbn [filter is_live_connect]. rewrite Rl.
        unfold then_emitted.
        destruct (lookup_promise p (promises (torn_down h))) as [pr|];
          [destruct (settled pr)|]; reflexivity.
      * cbn [filter is_live_connect]. exact Rl.
  - (* CONNECTING *)
    split; [reflexivity|]. now rewrite connect_guarded.
  - (* DISCONNECTED *)
    rewrite handle_connect, C, G, connect_ok_spec. repeat split.
Qed.

(** X17. Which message the error banner shows.  A transport error shows
    "Connection error.", a refused microphone "Microphone access
    failed.", a rejected connection promise and a constructor that throws
    show the message of the exception, or "Connection failed" and "Failed
    to connect" when that message is missing or empty; the banner is never
    rendered with an empty text, and a [connect] that passes the guard
    removes it. *)
Theorem error_banner_after_failure h cl (e : Exn) (f : ConnectFault) :
  error_banner (final (handle EvError h)) = Some "Connection error."
  /\ error_banner (final (handle (EvOpen cl (Denied e)) h))
     = Some "Microphone access failed."
  /\ error_banner (final (handle (EvSessionRejected e) h))
     = Some (or_default (message e) "Connection failed")
  /\ error_banner
       (final (connect false false (Some f) h))
     = Some (or_default (message (thrown f)) "Failed to connect")
  /\ error_banner (final (connect false false None h)) = None
  /\ error_banner h <> Some "".
Proof.
  assert (D : forall m fallback, fallback <> "" ->
            truthy (Some (or_default m fallback))
            = Some (or_default m fallback)).
  { intros m fallback F. pose proof (@or_default_not_empty m fallback F) as N.
    destruct (or_default m fallback); [now elim N | reflexivity]. }
  cbn [handle]. rewrite onerror_spec, onopen_denied_spec,
    session_rejected_spec, connect_fault_spec, connect_ok_spec.
  unfold error_banner. cbn [final error torn_down setError].
  repeat split; try (apply D; discriminate).
  destruct (error h) as [[|c s]|]; discriminate.
Qed.

End Shell.

(* ================================================================== *)
(** ** A chunk that is still being decoded at teardown *)
(* ================================================================== *)

Section LateChunk.

Context {T : Type} {JN : JsNumber T}.

Implicit Types (h : Hook T) (ev : Event T) (evs : list (Event T)).

Lemma teardown_final ev h :
  is_teardown ev = true ->
  exists e store,
    final (handle ev h) = set_promises store (torn_down (setError e h))
    /\ scheduled (emitted (handle ev h)) = [].
Proof.
  assert (Q : scheduled (releases h) = [])
    by (apply quiet_trace, releases_quiet).
  destruct ev; try discriminate; intros _; cbn [handle].
  - rewrite disconnect_spec.
    destruct (sessionPromiseRef h) as [p|]; cbn [final emitted].
    + destruct (then_final_store p CloseSession (torn_down h)) as [store ->].
      exists (error h), store. split; [reflexivity|].
      rewrite scheduled_app. cbn [scheduled]. rewrite Q. unfold then_emitted.
      destruct (lookup_promise p (promises (torn_down h))) as [pr|];
        [destruct (settled pr)|]; reflexivity.
    + exists (error h), (promises h). split; [reflexivity | exact Q].
  - rewrite cleanup_spec. exists (error h), (promises h).
    split; [reflexivity | exact Q].
  - rewrite session_rejected_spec.
    exists (Some (or_default (message err) "Connection failed")), (promises h).
    split; [reflexivity | exact Q].
  - rewrite onclose_spec. exists (error h), (promises h).
    split; [reflexivity | exact Q].
  - rewrite onerror_spec. exists (Some "Connection error."), (promises h).
    split; [reflexivity | exact Q].
Qed.

(** X18. The continuation of an audio chunk does not test the session
    state.  If a teardown runs while a chunk is being decoded (the [await]
    of line 211, after the cursor was synchronised), the chunk is still
    started once decoded: the hook is Idle with every reference null, and
    yet it reports speaking with the new segment in the live set,
    scheduled at 0, whatever the device time.  If the teardown runs while
    the chunk waits for [resume()] (line 202), the segment is scheduled
    at [Math.max(0, now)]. *)
Theorem late_chunk_is_played_after_teardown td now cl (b : AudioBuffer T) h :
  is_teardown td = true ->
  (let o := run [EvChunkSync now; td; EvChunkDecoded cl b] h in
   idle (final o) = true
   /\ no_refs (final o) = true
   /\ isSpeaking (final o) = true
   /\ map node (activeSourcesRef (final o)) = [heap h]
   /\ scheduled (emitted o) = [(num_zero, duration b)])
  /\ (let o := run [td; EvChunkSync now; EvChunkDecoded cl b] h in
      idle (final o) = true
      /\ no_refs (final o) = true
      /\ isSpeaking (final o) = true
      /\ map node (activeSourcesRef (final o)) = [heap h]
      /\ scheduled (emitted o) = [(num_max num_zero now, duration b)]).
Proof.
  intros TD. cbv zeta. split.
  - destruct (teardown_final td (final (sync_timeline now h)) TD)
      as (e & store & F & S).
    rewrite !run_cons, !final_prepend, !emitted_prepend, !scheduled_app.
    cbn [handle] in *. rewrite F, S. repeat split.
  - destruct (teardown_final td h TD) as (e & store & F & S).
    rewrite !run_cons, !final_prepend, !emitted_prepend, !scheduled_app.
    rewrite F, S. repeat split.
Qed.

Lemma frames_without_promise (bs : list string) h :
  sessionPromiseRef h = None ->
  run (map (@EvAudioProcess T) bs) h
  = {| completion := Normal tt; final := h; emitted := [] |}.
Proof.
  intros S. induction bs as [|b bs IH]; [reflexivity|].
  cbn [map]. rewrite run_cons, audio_process_spec, S.
  destruct (scriptProcessorRef h); cbn [final emitted]; now rewrite IH.
Qed.

(** X19. The continuation of [onopen] does not test the session state
    either.  If a teardown runs while [getUserMedia] is pending and the
    microphone is then granted, the hook stays Idle and one of two things
    happens.  If the browser builds the capture graph on the closed
    context, the stream, its source node and the processor are stored in
    the Idle hook and nothing is released; the frames captured while the
    hook stays as it is are dropped, since [sessionPromiseRef] is null,
    and a teardown that runs next releases the three.  If the browser
    refuses, the [catch] block stops the stream that was just granted and
    the user is shown "Microphone access failed.". *)
Theorem microphone_granted_after_teardown td next cl graph_error
    (captured_frames : list string) h :
  is_teardown td = true ->
  is_teardown next = true ->
  let g := final (steps [OpenBegin; Block td] h) in
  let o := step (OpenResume cl Granted graph_error) g in
  idle g = true
  /\ no_refs g = true
  /\ idle (final o) = true
  /\ match graph_error with
     | None =>
       streamRef (final o) = Some (heap g)
       /\ inputSourceRef (final o) = Some (1 + heap g)
       /\ scriptProcessorRef (final o) = Some (2 + heap g)
       /\ filter is_release (emitted o) = []
       /\ error (final o) = error g
       /\ run (map (@EvAudioProcess T) captured_frames) (final o)
          = {| completion := Normal tt; final := final o; emitted := [] |}
       /\ filter is_device_release (emitted (handle next (final o)))
          = [NodeDisconnect (2 + heap g); NodeDisconnect (1 + heap g);
             TrackStop (heap g)]
     | Some _ =>
       no_refs (final o) = true
       /\ filter is_release (emitted o) = [TrackStop (heap g)]
       /\ error (final o) = Some "Microphone access failed."
     end.
Proof.
  intros TD TN. cbv zeta.
  rewrite !steps_cons, !final_prepend. cbn [step steps for_each ret final].
  rewrite onopen_begin_spec. cbn [final].
  destruct (teardown_final td (setIsConnecting false (setIsConnected true h))
              TD) as (e & store & -> & _).
  split; [reflexivity|]. split; [reflexivity|].
  destruct graph_error as [x|].
  - rewrite onopen_resume_refused_spec. repeat split.
  - rewrite onopen_resume_granted_spec. cbn [final emitted].
    do 6 (split; [reflexivity|]). split.
    + now apply frames_without_promise.
    + match goal with
      | |- filter _ (emitted (handle next ?s)) = _ =>
        destruct (teardown_releases_devices next s TN) as (-> & _ & _)
      end.
      reflexivity.
Qed.

End LateChunk.

(* ================================================================== *)
(** ** The first commit after a reset of the cursor *)
(* ================================================================== *)

Section AfterReset.

Local Open Scope Q_scope.

Implicit Types (h : Hook Q) (ev : Event Q) (evs : list (Event Q)).

Lemma stops_not_scheduled (l : list (SourceNode Q)) :
  scheduled (map (fun src => @SourceStop Q (node src)) l) = [].
Proof. induction l as [|x l IH]; [reflexivity | exact IH]. Qed.

(** A block that commits nothing, and synchronises no later than [now],
    schedules nothing, leaves an empty live set empty and keeps the cursor
    at or before [now]. *)
Lemma before_commit_step now ev h :
  before_commit_at now ev ->
  0 <= now ->
  nextStartTimeRef h <= now ->
  activeSourcesRef h = [] ->
  scheduled (emitted (handle ev h)) = []
  /\ nextStartTimeRef (final (handle ev h)) <= now
  /\ activeSourcesRef (final (handle ev h)) = [].
Proof.
  intros B N C A.
  assert (Q : scheduled (releases h) = [])
    by (apply quiet_trace, releases_quiet).
  destruct ev; cbn [before_commit_at] in B.
  - rewrite handle_connect.
    destruct (isConnected h || isConnecting h)%bool eqn:G.
    + rewrite connect_guarded by exact G. repeat split; assumption.
    + apply orb_false_elim in G as [C1 C2]. rewrite C1, C2.
      destruct fault as [f|].
      * rewrite connect_fault_spec. cbn [final emitted].
        rewrite scheduled_app. cbn [scheduled].
        assert (Q' : scheduled (releases (setIsConnecting false
                      (setError (Some (or_default (message (thrown f))
                                         "Failed to connect"))
                         (fault_state (stage f) h)))) = [])
          by (apply quiet_trace, releases_quiet).
        rewrite Q'. destruct (stage f); repeat split; exact N.
      * rewrite connect_ok_spec. repeat split; assumption.
  - cbn [handle]. rewrite disconnect_spec.
    destruct (sessionPromiseRef h) as [p|]; cbn [final emitted].
    + destruct (then_final_store p CloseSession (torn_down h)) as [store ->].
      rewrite scheduled_app. cbn [scheduled]. rewrite Q. unfold then_emitted.
      destruct (lookup_promise p (promises (torn_down h))) as [pr|];
        [destruct (settled pr)|]; repeat split; exact N.
    + cbn [scheduled]. rewrite Q. repeat split; exact N.
  - cbn [handle]. rewrite cleanup_spec. cbn [final emitted scheduled].
    rewrite Q. repeat split; exact N.
  - destruct (timeline_step (EvSessionResolved session) h eq_refl) as [E1 E2].
    rewrite E1, E2. cbn [cursor_after segment_of]. repeat split; [exact C|].
    cbn [handle]. rewrite session_resolved_spec.
    destruct (sessionResolveRef h) as [p|]; [|exact A]. cbn [final].
    now destruct (resolve_final_store p session h) as [store ->].
  - cbn [handle]. rewrite session_rejected_spec.
    cbn [final emitted scheduled]. rewrite Q. repeat split; exact N.
  - cbn [handle]. destruct mic.
    + rewrite onopen_granted_spec. repeat split; assumption.
    + rewrite onopen_denied_spec. cbn [final emitted scheduled app].
      rewrite Q. repeat split; exact N.
  - cbn [handle]. rewrite resume_block_spec. cbn [final emitted].
    destruct (ctx_state clock); [|repeat split; assumption..].
    destruct (resume_error clock); repeat split; assumption.
  - cbn. repeat split; [|exact A]. apply Q.max_lub; assumption.
  - destruct B.
  - repeat split; assumption.
  - cbn [handle]. rewrite interruption_spec. cbn [final emitted scheduled].
    rewrite stops_not_scheduled. repeat split; exact N.
  - cbn [handle]. rewrite onclose_spec. cbn [final emitted scheduled].
    rewrite Q. repeat split; exact N.
  - cbn [handle]. rewrite onerror_spec. cbn [final emitted scheduled].
    rewrite Q. repeat split; exact N.
  - destruct (timeline_step (EvAudioProcess pcmBlob) h eq_refl) as [E1 E2].
    rewrite E1, E2. cbn [cursor_after segment_of]. repeat split; [exact C|].
    rewrite audio_process_spec.
    destruct (scriptProcessorRef h); [|exact A].
    destruct (sessionPromiseRef h) as [p|]; [|exact A]. cbn [final].
    now destruct (then_final_store p (SendFrame pcmBlob) h) as [store ->].
  - cbn. rewrite A. repeat split. exact C.
  - cbn [handle]. rewrite speaking_timeout_spec. cbn [final emitted].
    rewrite A. repeat split; assumption.
Qed.

Lemma before_commit_run now evs : forall h,
  Forall (before_commit_at now) evs ->
  0 <= now ->
  nextStartTimeRef h <= now ->
  activeSourcesRef h = [] ->
  scheduled (emitted (run evs h)) = []
  /\ nextStartTimeRef (final (run evs h)) <= now
  /\ activeSourcesRef (final (run evs h)) = [].
Proof.
  induction evs as [|ev evs IH]; intros h B N C A.
  - repeat split; assumption.
  - inversion B as [|? ? Bev Bevs]; subst.
    rewrite run_cons, final_prepend, emitted_prepend, scheduled_app.
    destruct (@before_commit_step now ev h Bev N C A) as (-> & C' & A').
    now apply IH.
Qed.

Lemma before_commit_durations now evs :
  Forall (before_commit_at now) evs -> Forall duration_ok evs.
Proof.
  intros B. eapply Forall_impl; [|exact B].
  intros ev. destruct ev; cbn; auto. intros [].
Qed.

(** X13. An interruption drops the backlog.  Take the first chunk that
    is committed after an interruption, synchronised after it at a device
    time [now >= 0].  Between the interruption and its synchronisation any
    blocks may run, and between its synchronisation and its commit any
    blocks of the audio traffic (no interruption, no teardown), provided
    they commit nothing and synchronise no later than [now].  The chunk is
    scheduled at [now], not behind the segments that had been queued
    before the interruption, and it is the only live segment.  A chunk
    that was synchronised before the interruption and is committed after
    it is not covered: it takes the cursor at 0. *)
Theorem interruption_restarts_at_device_time cl now (b : AudioBuffer Q)
    evs evs' h :
  0 <= now ->
  Forall (before_commit_at now) evs ->
  Forall (before_commit_at now) evs' ->
  forallb (timeline_event (T:=Q)) evs' = true ->
  let o := run (EvInterrupted :: evs ++ EvChunkSync now :: evs'
                ++ [EvChunkDecoded cl b]) h in
  Forall2 (fun segment t => fst segment == t /\ snd segment = duration b)
    (scheduled (emitted o)) [now]
  /\ nextStartTimeRef (final o) == now + duration b
  /\ List.length (activeSourcesRef (final o)) = 1%nat.
Proof.
  intros N B B' TL. cbv zeta.
  rewrite run_cons, final_prepend, emitted_prepend, scheduled_app.
  cbn [handle]. rewrite interruption_spec. cbn [final emitted scheduled].
  rewrite stops_not_scheduled. cbn [app].
  set (h1 := setIsSpeaking false _).
  destruct (run_app evs (EvChunkSync now :: evs' ++ [EvChunkDecoded cl b]) h1)
    as [-> ->].
  destruct (@before_commit_run now evs h1 B N N eq_refl) as (S & C & A).
  rewrite scheduled_app, S. cbn [app].
  set (h2 := final (run evs h1)) in *.
  rewrite run_cons, final_prepend, emitted_prepend, scheduled_app.
  cbn [handle].
  change (scheduled (emitted (sync_timeline now h2))) with (@nil (Q * Q)).
  cbn [app].
  set (h3 := final (sync_timeline now h2)).
  assert (C3 : nextStartTimeRef h3 == now).
  { change (nextStartTimeRef h3) with (Qmax (nextStartTimeRef h2) now).
    apply Q.max_r. exact C. }
  assert (A3 : activeSourcesRef h3 = []) by exact A.
  destruct (run_app evs' [EvChunkDecoded cl b] h3) as [-> ->].
  assert (C3' : nextStartTimeRef h3 <= now) by (rewrite C3; apply Qle_refl).
  destruct (@before_commit_run now evs' h3 B' N C3' A3) as (S' & C' & A').
  destruct (@timeline_chain evs' h3 TL (before_commit_durations B'))
    as (G & _).
  rewrite scheduled_app, S'. cbn [app].
  set (h4 := final (run evs' h3)) in *.
  assert (Cur : nextStartTimeRef h4 == now) by (apply Qle_antisym; lra).
  destruct (run_one (EvChunkDecoded cl b) h4) as [-> ->].
  cbn. rewrite A'. cbn. repeat split.
  - constructor; [|constructor]. split; [exact Cur | reflexivity].
  - rewrite Cur. reflexivity.
Qed.

End AfterReset.

(* ================================================================== *)
(** ** The audio visualizer *)
(* ================================================================== *)

Section VisualizerFacts.

Local Open Scope Q_scope.

Variable tr : Trig.

Implicit Types (v : Visualizer) (inst : Instance) (fr : Frame).

Lemma bar_index_bound (n i : nat) :
  (i < 60)%nat -> (0 < n)%nat -> (bar_index n i < n)%nat.
Proof.
  intros I N. unfold bar_index.
  pose proof (Nat.Div0.mul_div_le n 60) as D.
  destruct (n / 60)%nat as [|q] eqn:E; [rewrite Nat.mul_0_r; exact N|].
  nia.
Qed.

(** X20. The radial bars never read outside the frequency array.  For
    an array that is not empty each of the sixty bars samples an index
    inside it, so the fallback [|| 0] for an undefined element is never
    taken; with fewer than sixty bins every bar samples bin 0, and no bar
    samples a bin beyond [59 * floor(length / 60)]. *)
Theorem bars_sample_inside_the_array (array : list Byte.byte) (i : nat) :
  (i < 60)%nat -> (0 < List.length array)%nat ->
  (exists b,
     nth_error array (bar_index (List.length array) i) = Some b
     /\ bar_value array (bar_index (List.length array) i) = Byte.to_nat b)
  /\ ((List.length array < 60)%nat -> bar_index (List.length array) i = 0%nat)
  /\ (bar_index (List.length array) i <= 59 * (List.length array / 60))%nat.
Proof.
  intros I N.
  pose proof (bar_index_bound I N) as B.
  split; [|split].
  - destruct (nth_error array (bar_index (List.length array) i)) as [b|] eqn:E.
    + exists b. split; [reflexivity|]. unfold bar_value. now rewrite E.
    + apply nth_error_None in E. lia.
  - intros L. unfold bar_index. rewrite Nat.div_small by exact L. lia.
  - unfold bar_index. nia.
Qed.

Lemma num_nonneg (n : nat) : 0 <= num n.
Proof.
  unfold num. change 0 with (inject_Z 0). rewrite <- Zle_Qle. lia.
Qed.

Lemma radius_nonneg fr : 0 <= radius_of fr.
Proof.
  unfold radius_of.
  pose proof (num_nonneg (canvas_width fr)) as W.
  pose proof (num_nonneg (canvas_height fr)) as H.
  assert (M : 0 <= Qmin (num (canvas_width fr)) (num (canvas_height fr)))
    by (apply Q.min_glb; assumption).
  apply Qle_shift_div_l; lra.
Qed.

Lemma bar_value_bound (array : list Byte.byte) index :
  (bar_value array index <= 255)%nat.
Proof.
  unfold bar_value. destruct (nth_error array index) as [b|]; [|lia].
  apply Byte.to_nat_bounded.
Qed.

(** X21. The length of a radial bar is between zero and [0.8 * radius],
    whatever the array holds and whichever index is read; a byte of 255
    gives the full [0.8 * radius], which puts the outer end of the bar at
    [0.6 * min(width, height)] from the centre. *)
Theorem bar_height_is_bounded fr (array : list Byte.byte) (index : nat) :
  let radius := radius_of fr in
  let barHeight := bar_height radius (bar_value array index) in
  0 <= barHeight
  /\ barHeight <= radius * (8 # 10)
  /\ bar_height radius 255 == radius * (8 # 10)
  /\ radius + bar_height radius 255
     == Qmin (num (canvas_width fr)) (num (canvas_height fr)) * (6 # 10).
Proof.
  cbv zeta. pose proof (radius_nonneg fr) as R.
  pose proof (bar_value_bound array index) as B.
  pose proof (num_nonneg (bar_value array index)) as V.
  assert (V2 : num (bar_value array index) <= 255).
  { unfold num. change 255 with (inject_Z 255). rewrite <- Zle_Qle. lia. }
  unfold bar_height.
  set (x := num (bar_value array index)) in *.
  set (r := radius_of fr) in *.
  assert (P0 : 0 <= x / 255) by (apply Qle_shift_div_l; lra).
  assert (P1 : x / 255 <= 1) by (apply Qle_shift_div_r; lra).
  assert (R8 : 0 <= r * (8 # 10)) by lra.
  split; [|split; [|split]].
  - apply Qmult_le_0_compat; assumption.
  - setoid_replace (r * (8 # 10)) with (1 * (r * (8 # 10))) at 2 by ring.
    apply Qmult_le_compat_r; assumption.
  - unfold num. cbn. field.
  - unfold r, radius_of, num. cbn. field.
Qed.

Lemma length_getByteFrequencyData (written array : list Byte.byte) :
  List.length (getByteFrequencyData written array) = List.length array.
Proof.
  revert written. induction array as [|a array IH]; intros written;
    [reflexivity|].
  destruct written as [|w written]; [reflexivity|].
  cbn. now rewrite IH.
Qed.

Lemma circle_bars_lines inst cx cy r (l : list nat) :
  filter is_line (flat_map (circle_bar tr inst cx cy r) l)
  = map (fun i =>
      LineTo (cx + cos tr (PI tr * 2 * num i / 60)
                   * (r + bar_height r
                            (bar_value (dataArray inst)
                               (bar_index (bufferLength inst) i))))
             (cy + sin tr (PI tr * 2 * num i / 60)
                   * (r + bar_height r
                            (bar_value (dataArray inst)
                               (bar_index (bufferLength inst) i))))) l.
Proof.
  induction l as [|i l IH]; [reflexivity|].
  cbn [flat_map map]. rewrite filter_app, IH. reflexivity.
Qed.

Lemma circle_bars_other inst cx cy r (l : list nat) :
  filter is_rect (flat_map (circle_bar tr inst cx cy r) l) = []
  /\ filter is_request (flat_map (circle_bar tr inst cx cy r) l) = []
  /\ filter is_read (flat_map (circle_bar tr inst cx cy r) l) = [].
Proof.
  induction l as [|i l (IH1 & IH2 & IH3)]; [repeat split|].
  cbn [flat_map]. rewrite !filter_app, IH1, IH2, IH3. repeat split.
Qed.

Lemma simple_bars_calls inst height barWidth (array : list Byte.byte) :
  forall x,
  List.length (filter is_rect (simple_bars inst height barWidth x array))
  = List.length array
  /\ filter is_line (simple_bars inst height barWidth x array) = []
  /\ filter is_request (simple_bars inst height barWidth x array) = []
  /\ filter is_read (simple_bars inst height barWidth x array) = [].
Proof.
  induction array as [|b array IH]; intros x; [repeat split|].
  destruct (IH (x + (barWidth + 1))) as (E1 & E2 & E3 & E4).
  cbn. rewrite E1, E2, E3, E4. repeat split.
Qed.

(** What [draw_mode] adds to the calls made before it. *)
Lemma draw_mode_calls inst fr calls v :
  let out := snd (draw_mode tr inst fr calls v) in
  filter is_request out
  = filter is_request calls ++ [RequestAnimationFrame (fresh v)]
  /\ filter is_read out = filter is_read calls
  /\ List.length (filter is_line out)
     = (List.length (filter is_line calls)
        + match mode (props inst) with Circle => 60 | Bars => 0 end)%nat
  /\ List.length (filter is_rect out)
     = (List.length (filter is_rect calls)
        + match mode (props inst) with
          | Circle => 0
          | Bars => Nat.min (bufferLength inst) (List.length (dataArray inst))
          end)%nat.
Proof.
  cbv zeta. unfold draw_mode.
  destruct (mode (props inst)); cbn [snd request_frame].
  - rewrite !filter_app.
    destruct (circle_bars_other inst (num (canvas_width fr) / 2)
                (num (canvas_height fr) / 2) (radius_of fr) (seq 0 60))
      as (-> & -> & ->).
    rewrite circle_bars_lines. cbn [filter is_request is_read is_line is_rect].
    rewrite !app_nil_r, !length_app, length_map, length_seq.
    repeat split; cbn; lia.
  - rewrite !filter_app.
    destruct (simple_bars_calls inst (num (canvas_height fr))
                (num (canvas_width fr) / num (bufferLength inst) * (25 # 10))
                (firstn (bufferLength inst) (dataArray inst)) 0)
      as (E1 & -> & -> & ->).
    rewrite !length_app, E1, length_firstn.
    cbn [filter is_request is_read is_line is_rect app].
    rewrite !app_nil_r. repeat split; cbn; lia.
Qed.

(** X22. The shape of one frame.  Every call of [draw] clears the canvas
    first and requests exactly one next frame, under a fresh id that it
    stores in [animationRef].  It reads the analyser exactly when the
    component is active and has an analyser.  An inactive component draws
    the idle ring only: no bar, whatever the mode and the analyser.  An
    active one draws sixty radial bars in circle mode, whatever the length
    of the array, and one rectangle per array element in bars mode. *)
Theorem draw_shape inst fr v :
  let out := snd (draw tr inst fr v) in
  let v' := fst (draw tr inst fr v) in
  hd_error out
  = Some (ClearRect 0 0 (num (canvas_width fr)) (num (canvas_height fr)))
  /\ filter is_request out = [RequestAnimationFrame (fresh v)]
  /\ animationRef v' = Some (fresh v)
  /\ fresh v' = S (fresh v)
  /\ existsb is_read out
     = (isActive (props inst) && negb (is_none (analyser (props inst))))%bool
  /\ List.length (filter is_line out)
     = (if isActive (props inst)
        then match mode (props inst) with Circle => 60 | Bars => 0 end
        else 0)%nat
  /\ List.length (filter is_rect out)
     = (if isActive (props inst)
        then match mode (props inst) with
             | Circle => 0
             | Bars => Nat.min (bufferLength inst) (List.length (dataArray inst))
             end
        else 0)%nat.
Proof.
  cbv zeta. unfold draw.
  destruct (isActive (props inst)) eqn:A;
    [destruct (analyser (props inst)) as [a|] eqn:N|].
  - (* active, with an analyser *)
    set (inst' := {| props := props inst; bufferLength := bufferLength inst;
                     dataArray := getByteFrequencyData (spectrum fr)
                                    (dataArray inst) |}).
    destruct (draw_mode_calls inst' fr
                [ClearRect 0 0 (num (canvas_width fr)) (num (canvas_height fr));
                 GetByteFrequencyData] v) as (E1 & E2 & E3 & E4).
    cbn [filter is_request is_read is_line is_rect app List.length] in E1, E2, E3, E4.
    cbn [props bufferLength dataArray inst'] in E3, E4.
    rewrite length_getByteFrequencyData in E4.
    rewrite E1, E3, E4.
    assert (R : existsb is_read
                  (snd (draw_mode tr inst' fr
                     [ClearRect 0 0 (num (canvas_width fr))
                        (num (canvas_height fr)); GetByteFrequencyData] v))
                = true).
    { apply existsb_exists. exists GetByteFrequencyData. split; [|reflexivity].
      apply (proj1 (filter_In is_read _ _)).
      rewrite E2. now left. }
    rewrite R.
    unfold draw_mode. destruct (mode (props inst')); repeat split.
  - (* active, without an analyser *)
    destruct (draw_mode_calls inst fr
                [ClearRect 0 0 (num (canvas_width fr)) (num (canvas_height fr))]
                v) as (E1 & E2 & E3 & E4).
    cbn [filter is_request is_read is_line is_rect app List.length] in E1, E2, E3, E4.
    rewrite E1, E3, E4.
    assert (R : existsb is_read
                  (snd (draw_mode tr inst fr
                     [ClearRect 0 0 (num (canvas_width fr))
                        (num (canvas_height fr))] v))
                = false).
    { destruct (existsb is_read _) eqn:X; [|reflexivity].
      apply existsb_exists in X as (c & I & C).
      assert (I' : In c (filter is_read
                (snd (draw_mode tr inst fr
                   [ClearRect 0 0 (num (canvas_width fr))
                      (num (canvas_height fr))] v))))
        by (apply filter_In; split; assumption).
      rewrite E2 in I'. destruct I'. }
    rewrite R.
    unfold draw_mode. destruct (mode (props inst)); repeat split.
  - repeat split.
Qed.

Lemma draw_state inst fr v :
  exists inst',
    props inst' = props inst
    /\ bufferLength inst' = bufferLength inst
    /\ List.length (dataArray inst') = List.length (dataArray inst)
    /\ fst (draw tr inst fr v)
       = {| animationRef := Some (fresh v);
            pending := pending v ++ [(fresh v, inst')];
            fresh := S (fresh v); has_cleanup := has_cleanup v |}.
Proof.
  unfold draw, draw_mode.
  destruct (isActive (props inst)); [destruct (analyser (props inst))|].
  - eexists {| props := props inst; bufferLength := bufferLength inst;
               dataArray := getByteFrequencyData (spectrum fr)
                              (dataArray inst) |}.
    cbn [props bufferLength dataArray].
    rewrite length_getByteFrequencyData.
    destruct (mode (props inst)); repeat split.
  - exists inst. destruct (mode (props inst)); repeat split.
  - exists inst. repeat split.
Qed.

Lemma cancel_one id inst : cancel id [(id, inst)] = [].
Proof. unfold cancel. cbn. now rewrite Nat.eqb_refl. Qed.

Lemma cleanup_empties v latest :
  one_loop latest v ->
  pending (fst (effect_cleanup v)) = []
  /\ has_cleanup (fst (effect_cleanup v)) = false
  /\ fresh (fst (effect_cleanup v)) = fresh v.
Proof.
  unfold one_loop, effect_cleanup.
  destruct (pending v) as [|[id inst] [|e rest]] eqn:P; [| |intros []].
  - intros _.
    destruct (has_cleanup v) eqn:C; [destruct (animationRef v)|]; cbn;
      rewrite ?P, ?C; repeat split.
  - intros (R & C & _). rewrite C, R.
    cbn [fst pending has_cleanup fresh]. rewrite cancel_one. repeat split.
Qed.

Lemma one_loop_empty latest v : pending v = [] -> one_loop latest v.
Proof. unfold one_loop. now intros ->. Qed.

(** Every event keeps a single animation loop, and the loop belongs to
    the latest commit. *)
Lemma one_loop_step ev v latest :
  one_loop latest v ->
  one_loop (latest_props [ev] latest) (fst (visualizer_step tr ev v)).
Proof.
  intros G. destruct ev as [p canvas fr | id fr |].
  - (* commit *)
    cbn [visualizer_step latest_props].
    destruct (@cleanup_empties _ _ G) as (E1 & E2 & E3).
    destruct (effect_cleanup v) as [v1 calls1]. cbn [fst] in E1, E2, E3.
    unfold effect_body. destruct canvas.
    + set (inst := {| props := p; bufferLength := _; dataArray := _ |}).
      destruct (draw_state inst fr v1) as (inst' & I1 & I2 & I3 & D).
      destruct (draw tr inst fr v1) as [v' calls]. cbn [fst] in D. subst v'.
      cbn [fst]. unfold one_loop. cbn [pending animationRef has_cleanup].
      rewrite E1. cbn [app]. repeat split.
      * now rewrite I1.
      * rewrite I3, I2. unfold inst. cbn. apply repeat_length.
    + cbn [fst]. apply one_loop_empty. exact E1.
  - (* an animation callback *)
    cbn [visualizer_step latest_props]. revert G. unfold one_loop.
    destruct (pending v) as [|[id' inst] [|e rest]] eqn:P; [| |intros []].
    + intros _. cbn [callback_of fst]. now rewrite P.
    + intros (R & C & L & A). cbn [callback_of].
      destruct (Nat.eqb id' id) eqn:E.
      * apply Nat.eqb_eq in E. subst id'. rewrite cancel_one.
        set (v1 := {| animationRef := animationRef v; pending := [];
                      fresh := fresh v; has_cleanup := has_cleanup v |}).
        destruct (draw_state inst fr v1) as (inst' & I1 & I2 & I3 & D).
        rewrite D. cbn [pending animationRef has_cleanup app v1].
        repeat split; [exact C | now rewrite I1 | now rewrite I3, I2].
      * cbn [fst]. rewrite P. repeat split; assumption.
  - (* unmount *)
    cbn [visualizer_step latest_props].
    destruct (@cleanup_empties _ _ G) as (E1 & _ & _).
    apply one_loop_empty. exact E1.
Qed.

Lemma visualizer_run_cons ev evs v :
  visualizer_run tr (ev :: evs) v
  = (fst (visualizer_run tr evs (fst (visualizer_step tr ev v))),
     snd (visualizer_step tr ev v)
     ++ snd (visualizer_run tr evs (fst (visualizer_step tr ev v)))).
Proof.
  cbn [visualizer_run]. destruct (visualizer_step tr ev v) as [v1 calls1].
  cbn [fst snd]. now destruct (visualizer_run tr evs v1).
Qed.

Lemma visualizer_run_app evs1 evs2 v :
  visualizer_run tr (evs1 ++ evs2) v
  = (fst (visualizer_run tr evs2 (fst (visualizer_run tr evs1 v))),
     snd (visualizer_run tr evs1 v)
     ++ snd (visualizer_run tr evs2 (fst (visualizer_run tr evs1 v)))).
Proof.
  revert v. induction evs1 as [|ev evs1 IH]; intros v.
  - cbn. now destruct (visualizer_run tr evs2 v).
  - cbn [app]. rewrite !visualizer_run_cons, IH. cbn [fst snd].
    now rewrite app_assoc.
Qed.

Lemma one_loop_run evs : forall v latest,
  one_loop latest v ->
  one_loop (latest_props evs latest) (fst (visualizer_run tr evs v)).
Proof.
  induction evs as [|ev evs IH]; intros v latest G; [exact G|].
  rewrite visualizer_run_cons. cbn [fst].
  replace (latest_props (ev :: evs) latest)
    with (latest_props evs (latest_props [ev] latest))
    by (destruct ev; reflexivity).
  apply IH, one_loop_step, G.
Qed.

(** X23. A visualizer never runs two animation loops.  After any
    sequence of commits, animation frames and an unmount, at most one
    animation callback is registered; it is the one whose id
    [animationRef] holds, and it draws with the props of the latest
    commit: the loop of an earlier render is cancelled before the next
    one starts. *)
Theorem one_animation_loop evs :
  let v := fst (visualizer_run tr evs unmounted) in
  (List.length (pending v) <= 1)%nat
  /\ Forall (fun entry =>
        animationRef v = Some (fst entry)
        /\ latest_props evs None = Some (props (snd entry))
        /\ List.length (dataArray (snd entry)) = bufferLength (snd entry))
       (pending v).
Proof.
  cbv zeta.
  pose proof (@one_loop_run evs unmounted None I) as G.
  revert G. unfold one_loop.
  destruct (pending (fst (visualizer_run tr evs unmounted)))
    as [|[id inst] [|e rest]]; [| |intros []].
  - intros _. split; [cbn; lia | constructor].
  - intros (R & _ & L & A). split; [cbn; lia|].
    constructor; [|constructor]. cbn [fst snd]. repeat split; assumption.
Qed.

Lemma frames_after_unmount later : forall v,
  pending v = [] ->
  forallb is_animation_frame later = true ->
  visualizer_run tr later v = (v, []).
Proof.
  induction later as [|ev later IH]; intros v P F; [reflexivity|].
  cbn [forallb] in F. apply andb_prop in F as [Fev Flater].
  destruct ev as [| id fr |]; try discriminate.
  rewrite visualizer_run_cons. cbn [visualizer_step]. rewrite P.
  cbn [callback_of fst snd]. now rewrite (IH v P Flater).
Qed.

(** X24. Unmounting stops the animation.  The cleanup of the effect
    cancels the one registered callback, so that after an unmount no
    animation frame draws anything or requests another frame. *)
Theorem unmount_stops_the_animation evs later :
  forallb is_animation_frame later = true ->
  let v := fst (visualizer_run tr (evs ++ [Unmount]) unmounted) in
  pending v = []
  /\ visualizer_run tr later v = (v, []).
Proof.
  intros F. cbv zeta.
  assert (P : pending (fst (visualizer_run tr (evs ++ [Unmount]) unmounted))
              = []).
  { rewrite visualizer_run_app. cbn [fst].
    rewrite visualizer_run_cons. cbn [fst visualizer_run visualizer_step].
    pose proof (@one_loop_run evs unmounted None I) as G.
    now destruct (@cleanup_empties _ _ G) as (E1 & _ & _). }
  split; [exact P|]. now apply frames_after_unmount.
Qed.

End VisualizerFacts.

(* ================================================================== *)
(** ** Where scheduled segments do overlap *)
(* ================================================================== *)

Section Overlaps.

Local Open Scope Q_scope.

#[local] Set Warnings "-inexact-float".

(** C1, as stated, fails, in two ways.  In binary64, three chunks of
    0.1 s, 0.7 s and 0.1 s handled back to back from a cursor at 0 are
    started at 0, 0.1 and 0.79999999999999993: [+=] rounds the sum of
    0.1 and 0.7 down, so the third segment starts before the second
    ends.  And an interruption resets the cursor: a segment scheduled at
    10 for one second and the first segment synchronised after the
    interruption, at device time 10.2, have intersecting intervals. *)
Lemma segments_overlap_after_rounding_or_reset :
  (let o :=
     deliver (three_chunks 0.1 0.7 0.1)%float first_closure
       {| ctx_state := Running; resume_error := None;
          currentTime := 0%float |}
       [audio_message "chunk1"; audio_message "chunk2";
        audio_message "chunk3"]
       initial in
   scheduled (emitted o)
   = [(0, 0.1); (0.1, 0.7); (0.79999999999999993, 0.1)]%float
   /\ float_value 0.79999999999999993
      < float_value 0.1 + float_value 0.7
   /\ overlaps (float_value 0.1, float_value 0.7)
        (float_value 0.79999999999999993, float_value 0.1))
  /\ (let o :=
        run [EvChunkSync 10;
             EvChunkDecoded first_closure {| duration := 1 |};
             EvInterrupted;
             EvChunkSync (51 # 5);
             EvChunkDecoded first_closure {| duration := 1 |}]
            (initial (T:=Q)) in
      scheduled (emitted o) = [(10, 1); (51 # 5, 1)]
      /\ overlaps (10, 1) (51 # 5, 1)).
Proof.
  cbv zeta. split; [split; [|split]|split].
  - vm_compute. reflexivity.
  - vm_compute. reflexivity.
  - exists (float_value 0.79999999999999993).
    repeat split; vm_compute; try reflexivity; discriminate.
  - vm_compute. reflexivity.
  - exists (51 # 5). repeat split; vm_compute; try reflexivity; discriminate.
Qed.

End Overlaps.

(* ================================================================== *)
(** ** Capture across the [await] of [onopen] *)
(* ================================================================== *)

Section GateAcrossAwait.

Context {T : Type} {JN : JsNumber T}.


End GateAcrossAwait.

(* ================================================================== *)
(** ** [connect] through a callback that holds stale flags *)
(* ================================================================== *)

Section StaleConnect.

Context {T : Type} {JN : JsNumber T}.

(** C6, what the code does.  The guard of line 99 reads the flags that
    [useCallback] captured (line 285), not the state of the hook.  A
    second call through the same callback, whose closure still holds
    [isConnected = isConnecting = false], passes the guard while the
    session is Connecting: it constructs two more audio contexts, stores
    them over the first two, which are never closed, creates a second
    promise and contacts the transport again.  On an Open session it sets
    [isConnecting] beside [isConnected].  Only a call through a callback
    created after the flags last changed returns at the guard. *)
Theorem stale_connect_passes_the_guard :
  let first := connect false false None (initial (T:=T)) in
  let second := connect false false None (final first) in
  let opened := final (onopen first_closure Granted (final first)) in
  let third := connect false false None opened in
  (forall h : Hook T,
     emitted (connect false false None h)
     = [NewAudioContext (heap h); NewAudioContext (1 + heap h);
        LiveConnect (next_closure h)]
     /\ isConnecting (final (connect false false None h)) = true
     /\ isConnected (final (connect false false None h)) = isConnected h)
  /\ (isConnecting (final first) = true
      /\ inputAudioContextRef (final first) = Some 0
      /\ outputAudioContextRef (final first) = Some 1)
  /\ (emitted second
      = [NewAudioContext 5; NewAudioContext 6;
         LiveConnect {| inputCtx := 5; outputCtx := 6;
                        inAnalyser := 7; outAnalyser := 8 |}]
      /\ inputAudioContextRef (final second) = Some 5
      /\ outputAudioContextRef (final second) = Some 6
      /\ sessionPromiseRef (final second) = Some 9
      /\ List.length (promises (final second)) = 2)
  /\ (isConnected opened = true
      /\ isConnected (final third) = true
      /\ isConnecting (final third) = true
      /\ existsb is_live_connect (emitted third) = true)
  /\ handle (EvConnect None) (final first)
     = {| completion := Normal tt; final := final first; emitted := [] |}.
Proof.
  cbv zeta. split.
  - intros h. rewrite connect_ok_spec. repeat split.
  - vm_compute. repeat split.
Qed.

End StaleConnect.

(* ================================================================== *)
(** ** More inhabited instances of the conditional statements *)
(* ================================================================== *)

Section MoreInstances.

(** One frame waits already; two more are captured before the promise
    resolves and one after. *)
Lemma frames_are_sent_in_capture_order_witness :
  let h := final (run [EvConnect None; EvOpen first_closure Granted;
                       EvAudioProcess "frame0"] (initial (T:=Q))) in
  emitted (run (map (@EvAudioProcess Q) ["frame1"; "frame2"]) h) = []
  /\ sent (emitted (run (map (@EvAudioProcess Q) ["frame1"; "frame2"]
                          ++ EvSessionResolved 100
                          :: map (@EvAudioProcess Q) ["frame3"]) h))
     = [(100%nat, "frame0"); (100%nat, "frame1"); (100%nat, "frame2");
        (100%nat, "frame3")].
Proof.
  cbv zeta.
  apply (@frames_are_sent_in_capture_order Q _
           (final (run [EvConnect None; EvOpen first_closure Granted;
                        EvAudioProcess "frame0"] (initial (T:=Q))))
           4%nat {| settled := None; reactions := [SendFrame "frame0"] |}
           7%nat 100%nat ["frame1"; "frame2"] ["frame3"]);
    reflexivity.
Defined.

(** A frame waits when the session is torn down; the next session sends
    only its own frame. *)
Lemma teardown_drops_waiting_frames_witness :
  let h := final (run [EvConnect None; EvOpen first_closure Granted;
                       EvAudioProcess "stale"] (initial (T:=Q))) in
  let l := [Block (EvConnect None); OpenBegin;
            OpenResume (next_closure (final (cleanup h))) Granted None;
            Block (EvAudioProcess "fresh"); Block (EvSessionResolved 100)] in
  In (100, "fresh") (sent (emitted (steps l (final (cleanup h)))))
  /\ In "fresh" (captured l).
Proof.
  cbv zeta.
  assert (I : In (100, "fresh")
                (sent (emitted
                   (steps [Block (EvConnect None); OpenBegin;
                           OpenResume (next_closure (final (cleanup
                             (final (run [EvConnect None;
                                          EvOpen first_closure Granted;
                                          EvAudioProcess "stale"]
                                         (initial (T:=Q))))))) Granted None;
                           Block (EvAudioProcess "fresh");
                           Block (EvSessionResolved 100)]
                          (final (cleanup
                             (final (run [EvConnect None;
                                          EvOpen first_closure Granted;
                                          EvAudioProcess "stale"]
                                         (initial (T:=Q))))))))))
    by (vm_compute; left; reflexivity).
  split; [exact I|].
  exact (@teardown_drops_waiting_frames Q _ _ _ _ _ I).
Defined.

(** The user disconnects while the promise is pending; the promise
    resolves afterwards. *)
Lemma early_disconnect_never_closes_session_witness :
  let h := final (run [EvConnect None; EvOpen first_closure Granted;
                       EvAudioProcess "frame"] (initial (T:=Q))) in
  resolved_session h = None
  /\ filter is_session_close
       (emitted (steps [Block EvDisconnect; Block (EvSessionResolved 100);
                        Block (EvAudioProcess "late"); Block EvDisconnect;
                        Block EvClose] h)) = [].
Proof.
  cbv zeta. split; [reflexivity|].
  apply (@early_disconnect_never_closes_session Q _
           (final (run [EvConnect None; EvOpen first_closure Granted;
                        EvAudioProcess "frame"] (initial (T:=Q))))
           [Block (EvSessionResolved 100); Block (EvAudioProcess "late");
            Block EvDisconnect; Block EvClose]);
    reflexivity.
Defined.


(** The second context constructor throws an exception without a
    message. *)
Lemma failed_connect_outcome_witness :
  let o := handle
    (EvConnect (Some {| stage := AtOutputContext;
                        thrown := {| message := Some "" |} |}))
    (initial (T:=Q)) in
  idle (final o) = true
  /\ no_refs (final o) = true
  /\ error (final o) = Some "Failed to connect"
  /\ existsb is_live_connect (emitted o) = false
  /\ filter is_context_call (emitted o) = [NewAudioContext 0].
Proof.
  cbv zeta.
  apply (@failed_connect_outcome Q _ (initial (T:=Q))
           {| stage := AtOutputContext;
              thrown := {| message := Some "" |} |});
    reflexivity.
Defined.

(** The last bar on the 128 bins of an analyser with [fftSize = 256]. *)
Lemma bars_sample_inside_the_array_witness :
  (exists b,
     nth_error (repeat Byte.x2a 128) (bar_index 128 59) = Some b
     /\ bar_value (repeat Byte.x2a 128) (bar_index 128 59) = Byte.to_nat b)
  /\ bar_index 128 59 = 118%nat.
Proof.
  destruct (@bars_sample_inside_the_array (repeat Byte.x2a 128) 59)
    as (E & _ & _); [cbn; lia | cbn; lia |].
  split; [exact E | reflexivity].
Defined.

(** The output visualizer is mounted, draws two frames, is committed
    again and unmounted; the callbacks of both loops are then dead. *)
Lemma unmount_stops_the_animation_witness :
  let evs := [Commit speaking_props true (canvas_frame 0 []);
              AnimationFrame 0 (canvas_frame 16 (repeat Byte.x2a 128));
              Commit speaking_props true (canvas_frame 32 [])] in
  let later := [AnimationFrame 1 (canvas_frame 48 []);
                AnimationFrame 2 (canvas_frame 64 [])] in
  let v := fst (visualizer_run taylor_trig (evs ++ [Unmount]) unmounted) in
  pending v = [] /\ visualizer_run taylor_trig later v = (v, []).
Proof.
  cbv zeta.
  apply (@unmount_stops_the_animation taylor_trig
           [Commit speaking_props true (canvas_frame 0 []);
            AnimationFrame 0 (canvas_frame 16 (repeat Byte.x2a 128));
            Commit speaking_props true (canvas_frame 32 [])]
           [AnimationFrame 1 (canvas_frame 48 []);
            AnimationFrame 2 (canvas_frame 64 [])]).
  reflexivity.
Defined.

(** The transport closes while the first chunk is being decoded, after
    its synchronisation at device time 3. *)
Lemma late_chunk_is_played_after_teardown_witness :
  let o := run [EvConnect None; EvOpen first_closure Granted;
                EvChunkSync 3%Q; EvClose;
                EvChunkDecoded first_closure {| duration := (1 # 2)%Q |}]
               (initial (T:=Q)) in
  idle (final o) = true
  /\ isSpeaking (final o) = true
  /\ map node (activeSourcesRef (final o)) = [8]
  /\ scheduled (emitted o) = [(0%Q, (1 # 2)%Q)].
Proof.
  cbv zeta.
  destruct (@late_chunk_is_played_after_teardown Q _ (EvClose (T:=Q)) 3%Q
              first_closure {| duration := (1 # 2)%Q |}
              (final (run [EvConnect None; EvOpen first_closure Granted]
                          (initial (T:=Q)))) eq_refl)
    as ((W1 & _ & W3 & W4 & W5) & _).
  repeat split; assumption.
Defined.

(** The user ends the call while the permission prompt is open and
    then grants the microphone; two frames are captured and the component
    unmounts. *)
Lemma microphone_granted_after_teardown_witness :
  let g := final (steps [Block (EvConnect None); OpenBegin;
                         Block EvDisconnect] (initial (T:=Q))) in
  let o := step (OpenResume first_closure Granted None) g in
  idle (final o) = true
  /\ streamRef (final o) = Some 5
  /\ scriptProcessorRef (final o) = Some 7
  /\ filter is_release (emitted o) = []
  /\ emitted (run [EvAudioProcess "frame1"; EvAudioProcess "frame2"]
                  (final o)) = []
  /\ filter is_device_release (emitted (handle EvUnmount (final o)))
     = [NodeDisconnect 7; NodeDisconnect 6; TrackStop 5].
Proof.
  cbv zeta.
  destruct (@microphone_granted_after_teardown Q _ (EvDisconnect (T:=Q))
              (EvUnmount (T:=Q)) first_closure None ["frame1"; "frame2"]
              (final (handle (EvConnect None) (initial (T:=Q))))
              eq_refl eq_refl)
    as (_ & _ & W3 & W4 & _ & W6 & W7 & _ & W9 & W10).
  repeat split; try assumption.
Defined.

(** A backlog of five seconds is queued when the interruption arrives;
    a frame and a chunk that fails to decode come before the next chunk is
    synchronised, a natural completion, its timer and a frame before it
    is committed. *)
Lemma interruption_restarts_at_device_time_witness :
  let h := final (run [EvChunkSync 10%Q;
                       EvChunkDecoded first_closure {| duration := 5%Q |}]
                      (initial (T:=Q))) in
  let o := run (EvInterrupted
                :: [EvAudioProcess "frame"; EvChunkSync 11%Q;
                    EvChunkFailed {| message := None |}]
                ++ EvChunkSync 12%Q
                :: [EvEnded 0; EvTimeout; EvAudioProcess "frame2"]
                ++ [EvChunkDecoded first_closure
                      {| duration := (1 # 2)%Q |}]) h in
  nextStartTimeRef h = (10 + 5)%Q
  /\ Forall2 (fun segment t => (fst segment == t)%Q
                               /\ snd segment = (1 # 2)%Q)
       (scheduled (emitted o)) [12%Q]
  /\ (nextStartTimeRef (final o) == 12 + (1 # 2))%Q
  /\ List.length (activeSourcesRef (final o)) = 1.
Proof.
  cbv zeta. split; [reflexivity|].
  apply (@interruption_restarts_at_device_time first_closure 12%Q
           {| duration := (1 # 2)%Q |}
           [EvAudioProcess "frame"; EvChunkSync 11%Q;
            EvChunkFailed {| message := None |}]
           [EvEnded 0; EvTimeout; EvAudioProcess "frame2"]
           (final (run [EvChunkSync 10%Q;
                        EvChunkDecoded first_closure {| duration := 5%Q |}]
                       (initial (T:=Q))))).
  - cbn. lra.
  - repeat constructor; cbn; lra.
  - repeat constructor.
  - reflexivity.
Defined.

End MoreInstances.
